(** * Biratnagar traffic solution: the route page of [script.js]

    A shallow embedding of [script.js]: the page's global variables, the
    Leaflet map they draw on, [geocodeLocation], [findRoute] and [clearMap].

    - JavaScript numbers are IEEE 754 binary64 values: Rocq's primitive
      [float], with the operations of [PrimFloat].
    - JavaScript strings are kept as UTF-8 byte strings ([string]).
    - Leaflet layer objects live in a store indexed by handles; the map holds
      the set of handles that are currently added to it.
    - An [async] function is cut at its [await]s: a call runs up to the first
      [await] and leaves a continuation, which a later event resumes with the
      response of the network.
    - Leaflet is embedded as far as the script uses it and for coordinates it
      accepts. For a coordinate that is not a number it throws ("Invalid
      LatLng object"), and an infinite one makes [fitBounds] throw; the script
      then ends in its [catch] block, with the layers it has added so far.
      That path is not embedded: [showRoutes] is the [try] block run to its
      end, and every statement about shown routes is made for valid
      coordinates (latitude in [-90, 90], longitude in [-180, 180]), for which
      the block does run to its end. *)

From Stdlib Require Import ZArith Uint63 Floats Lia Ascii String.
From stdpp Require Import base gmap strings list.

Local Open Scope string_scope.

(* Decimal literals such as 0.15 stand for the nearest binary64 value, as
   they do in JavaScript. *)
Set Warnings "-inexact-float".
(* set_solver clears hypotheses that are not always there. *)
Set Warnings "-clear-no-such-hyp".

(** ** Strings *)

Module Js.

(** The double quote, which the template literals of the page contain. *)
Definition dq : string := String "034"%char EmptyString.
Definition nl : string := String "010"%char EmptyString.

(** A template literal, given line by line. *)
Fixpoint lines (l : list string) : string :=
  match l with
  | [] => EmptyString
  | [s] => s
  | s :: l' => s ++ nl ++ lines l'
  end.

(** UTF-8 bytes of a code point of the basic multilingual plane. *)
Definition utf8 (c : N) : list ascii :=
  if (c <? 128)%N then [ascii_of_N c]
  else if (c <? 2048)%N then
    [ascii_of_N (192 + c / 64); ascii_of_N (128 + c mod 64)]
  else
    [ascii_of_N (224 + c / 4096); ascii_of_N (128 + (c / 64) mod 64);
     ascii_of_N (128 + c mod 64)].

(** ECMAScript's WhiteSpace and LineTerminator code points, the ones
    [String.prototype.trim] removes. *)
Definition whiteSpace : list N :=
  [9; 10; 11; 12; 13; 32; 160; 5760;
   8192; 8193; 8194; 8195; 8196; 8197; 8198; 8199; 8200; 8201; 8202;
   8232; 8233; 8239; 8287; 12288; 65279]%N.

Fixpoint dropPrefix (p l : list ascii) : option (list ascii) :=
  match p, l with
  | [], _ => Some l
  | a :: p', b :: l' => if Ascii.eqb a b then dropPrefix p' l' else None
  | _ :: _, [] => None
  end.

Fixpoint dropOneOf (ps : list (list ascii)) (l : list ascii) : option (list ascii) :=
  match ps with
  | [] => None
  | p :: ps' =>
      match dropPrefix p l with
      | Some l' => Some l'
      | None => dropOneOf ps' l
      end
  end.

Fixpoint dropWhile (ps : list (list ascii)) (fuel : nat) (l : list ascii) : list ascii :=
  match fuel with
  | O => l
  | S fuel' =>
      match dropOneOf ps l with
      | Some l' => dropWhile ps fuel' l'
      | None => l
      end
  end.

Definition trimStart (l : list ascii) : list ascii :=
  dropWhile (map utf8 whiteSpace) (length l) l.

Definition trimEnd (l : list ascii) : list ascii :=
  rev (dropWhile (map (fun c => rev (utf8 c)) whiteSpace) (length l) (rev l)).

(** [s.trim()] *)
Definition trim (s : string) : string :=
  string_of_list_ascii (trimEnd (trimStart (list_ascii_of_string s))).

(** [!s] for a string: only the empty string is falsy. *)
Definition falsy (s : string) : bool :=
  match s with
  | EmptyString => true
  | String _ _ => false
  end.

Definition hexDigit (n : N) : ascii :=
  if (n <? 10)%N then ascii_of_N (48 + n) else ascii_of_N (55 + n).

(** The bytes [encodeURIComponent] leaves as they are: letters, digits and
    [- _ . ! ~ * ' ( )]. *)
Definition unreserved (a : ascii) : bool :=
  let n := N_of_ascii a in
  ((65 <=? n) && (n <=? 90) || (97 <=? n) && (n <=? 122) || (48 <=? n) && (n <=? 57)
   || (n =? 45) || (n =? 95) || (n =? 46) || (n =? 33) || (n =? 126) || (n =? 42)
   || (n =? 39) || (n =? 40) || (n =? 41))%N.

Fixpoint encodeURIComponent (s : string) : string :=
  match s with
  | EmptyString => EmptyString
  | String a s' =>
      if unreserved a then String a (encodeURIComponent s')
      else
        let n := N_of_ascii a in
        String "%"%char (String (hexDigit (n / 16)) (String (hexDigit (n mod 16))
          (encodeURIComponent s')))
  end.

(** [s.includes(sub)] *)
Fixpoint includes (sub s : string) : bool :=
  if String.prefix sub s then true
  else
    match s with
    | EmptyString => false
    | String _ s' => includes sub s'
    end.

(** [s.toLowerCase()], on the letters A to Z. *)
Definition lowerAscii (a : ascii) : ascii :=
  let n := N_of_ascii a in
  if ((65 <=? n) && (n <=? 90))%N then ascii_of_N (n + 32) else a.

Fixpoint toLowerCase (s : string) : string :=
  match s with
  | EmptyString => EmptyString
  | String a s' => String (lowerAscii a) (toLowerCase s')
  end.

(** [i] as a number, for an array index [i]. *)
Definition ofIndex (i : nat) : float := of_uint63 (Uint63.of_Z (Z.of_nat i)).

End Js.

(** ** The Leaflet map and the page *)

(** A pair [[lat, lon]] as Leaflet takes it. *)
Definition LatLng : Type := float * float.

(** Layer objects are referred to by handles: two variables that hold the
    same handle hold the same object. *)
Definition Handle : Type := positive.

(** The layers the page creates. A marker has the default icon ([None]) or a
    [L.divIcon] with the given html; its popup is the html bound to it. A
    polyline carries its click listeners, in the order they were registered:
    each one writes its html into [#result]. *)
Inductive Layer :=
| TileLayer (url attribution : string)
| Marker (latlng : LatLng) (icon : option string) (popup : option string)
| Polyline (latlngs : list LatLng) (color : string) (weight : Z) (onClick : list string).

(** The last command that moved the viewport. *)
Inductive View :=
| SetView (center : LatLng) (zoom : Z)
| FitBounds (layers : list Handle).

(** What [geocodeLocation] returns. *)
Record Place := mkPlace { lat : float; lon : float; display : string }.

(** A suspended call of [findRoute]: at [await geocodeLocation(startName)],
    with [endName] still to resolve, or at [await geocodeLocation(endName)],
    with [start] resolved. *)
Inductive Await :=
| AwaitStart (endName : string)
| AwaitEnd (start : Place).

(** The page: the Leaflet side ([objects], [nextId], [onMap], [popupOpen],
    [view]), the global variables of the script, and what the user and the
    network see ([result] is the string the script last assigned to the
    inner html of [#result], which the browser then reads as html; [alerts]
    and [fetched] list the calls of [alert] and [fetch], oldest first). *)
Record Page := mkPage {
  objects : gmap Handle Layer;
  nextId : Handle;
  onMap : gset Handle;
  popupOpen : option Handle;
  view : View;
  routeA : option Handle;
  routeB : option Handle;
  startMarker : option Handle;
  endMarker : option Handle;
  hazardMarkers : list Handle;
  result : string;
  alerts : list string;
  fetched : list string
}.

(** Assignments: to the Leaflet side as a whole, and to one variable. *)
Definition set_leaflet (o : gmap Handle Layer) (n : Handle) (m : gset Handle)
    (p : option Handle) (st : Page) : Page :=
  mkPage o n m p (view st) (routeA st) (routeB st) (startMarker st) (endMarker st)
    (hazardMarkers st) (result st) (alerts st) (fetched st).

Definition set_view (v : View) (st : Page) : Page :=
  mkPage (objects st) (nextId st) (onMap st) (popupOpen st) v (routeA st) (routeB st)
    (startMarker st) (endMarker st) (hazardMarkers st) (result st) (alerts st) (fetched st).

Definition set_routeA (h : option Handle) (st : Page) : Page :=
  mkPage (objects st) (nextId st) (onMap st) (popupOpen st) (view st) h (routeB st)
    (startMarker st) (endMarker st) (hazardMarkers st) (result st) (alerts st) (fetched st).

Definition set_routeB (h : option Handle) (st : Page) : Page :=
  mkPage (objects st) (nextId st) (onMap st) (popupOpen st) (view st) (routeA st) h
    (startMarker st) (endMarker st) (hazardMarkers st) (result st) (alerts st) (fetched st).

Definition set_startMarker (h : option Handle) (st : Page) : Page :=
  mkPage (objects st) (nextId st) (onMap st) (popupOpen st) (view st) (routeA st) (routeB st)
    h (endMarker st) (hazardMarkers st) (result st) (alerts st) (fetched st).

Definition set_endMarker (h : option Handle) (st : Page) : Page :=
  mkPage (objects st) (nextId st) (onMap st) (popupOpen st) (view st) (routeA st) (routeB st)
    (startMarker st) h (hazardMarkers st) (result st) (alerts st) (fetched st).

Definition set_hazardMarkers (l : list Handle) (st : Page) : Page :=
  mkPage (objects st) (nextId st) (onMap st) (popupOpen st) (view st) (routeA st) (routeB st)
    (startMarker st) (endMarker st) l (result st) (alerts st) (fetched st).

Definition set_result (s : string) (st : Page) : Page :=
  mkPage (objects st) (nextId st) (onMap st) (popupOpen st) (view st) (routeA st) (routeB st)
    (startMarker st) (endMarker st) (hazardMarkers st) s (alerts st) (fetched st).

(** [alert(s)] *)
Definition alert (s : string) (st : Page) : Page :=
  mkPage (objects st) (nextId st) (onMap st) (popupOpen st) (view st) (routeA st) (routeB st)
    (startMarker st) (endMarker st) (hazardMarkers st) (result st) (alerts st ++ [s]) (fetched st).

(** [fetch(url, ...)]: the request leaves; its answer comes with a later event. *)
Definition fetch (url : string) (st : Page) : Page :=
  mkPage (objects st) (nextId st) (onMap st) (popupOpen st) (view st) (routeA st) (routeB st)
    (startMarker st) (endMarker st) (hazardMarkers st) (result st) (alerts st) (fetched st ++ [url]).

Module L.

(** A new layer object: [L.marker(...)], [L.polyline(...)], [L.tileLayer(...)]. *)
Definition create (l : Layer) (st : Page) : Handle * Page :=
  (nextId st,
   set_leaflet (<[nextId st := l]> (objects st)) (Pos.succ (nextId st)) (onMap st)
     (popupOpen st) st).

(** [layer.addTo(map)] *)
Definition addTo (h : Handle) (st : Page) : Page :=
  set_leaflet (objects st) (nextId st) ({[h]} ∪ onMap st) (popupOpen st) st.

(** [map.removeLayer(layer)]: nothing happens for a layer that is not on the
    map; removing a marker closes its popup. *)
Definition removeLayer (h : Handle) (st : Page) : Page :=
  if decide (h ∈ onMap st) then
    set_leaflet (objects st) (nextId st) (onMap st ∖ {[h]})
      (if decide (popupOpen st = Some h) then None else popupOpen st) st
  else st.

(** [marker.bindPopup(html)] *)
Definition bindPopup (h : Handle) (html : string) (st : Page) : Page :=
  let bind l :=
    match l with
    | Marker p i _ => Marker p i (Some html)
    | _ => l
    end in
  set_leaflet (alter bind h (objects st)) (nextId st) (onMap st) (popupOpen st) st.

(** [marker.openPopup()]: the popup of a marker on the map opens, and it is
    the one open popup of the map. *)
Definition openPopup (h : Handle) (st : Page) : Page :=
  if decide (h ∈ onMap st) then
    set_leaflet (objects st) (nextId st) (onMap st) (Some h) st
  else st.

(** What a click that reaches the map does: the open popup closes. *)
Definition closePopup (st : Page) : Page :=
  set_leaflet (objects st) (nextId st) (onMap st) None st.

(** [polyline.on("click", listener)], for a listener that writes [html] into
    [#result]. *)
Definition onClick (h : Handle) (html : string) (st : Page) : Page :=
  let add l :=
    match l with
    | Polyline c col w ls => Polyline c col w (ls ++ [html])
    | _ => l
    end in
  set_leaflet (alter add h (objects st)) (nextId st) (onMap st) (popupOpen st) st.

End L.

(** ** The script *)

(** The first page state: [L.map(...).setView([28.3949, 84.1240], 7)] and the
    tile layer added to it, no route, no marker. [html] is what [#result]
    holds when the page loads. *)
Definition initial (html : string) : Page :=
  mkPage
    {[ 1%positive := TileLayer "https://{s}.tile.openstreetmap.org/{z}/{x}/{y}.png"
                       "&copy; OpenStreetMap contributors" ]}
    2%positive {[ 1%positive ]} None
    (SetView (28.3949, 84.1240)%float 7)
    None None None None [] html [] [].

Record Hazard := mkHazard { type : string; reason : string }.

Definition simulatedHazards : list Hazard :=
  [ mkHazard "Flooding" "Heavy rainfall reported";
    mkHazard "Construction" "Ongoing road maintenance";
    mkHazard "Congestion" "High traffic volume" ].

(** [icons[type] || "⚠️"]: the entry of the type, and the warning sign for a
    type that names neither an entry nor a member every object inherits
    ("constructor", "toString" and the like, for which [icons[type]] is that
    member and not the warning sign). The script passes the types of
    [simulatedHazards] only. *)
Definition hazardGlyph (t : string) : string :=
  if String.eqb t "Flooding" then "🌊"
  else if String.eqb t "Construction" then "🚧"
  else if String.eqb t "Congestion" then "🚗"
  else if String.eqb t "Accident" then "💥"
  else "⚠️".

(** The html of the [L.divIcon] that [getHazardIcon(type)] returns. *)
Definition getHazardIcon (t : string) : string :=
  Js.lines
    [ "<div style=" ++ Js.dq;
      "            font-size:22px;";
      "            background:white;";
      "            border:2px solid #ff4d4d;";
      "            border-radius:50%;";
      "            width:34px;";
      "            height:34px;";
      "            display:flex;";
      "            align-items:center;";
      "            justify-content:center;";
      "        " ++ Js.dq ++ ">" ++ hazardGlyph t ++ "</div>" ].

(** One entry of the array that Nominatim answers with, its [lat] and [lon]
    given as the numbers [parseFloat] reads from them. *)
Record Hit := mkHit { hit_lat : float; hit_lon : float; display_name : string }.

(** What comes back for a [fetch]: the request or the reading of its body
    fails with an error of the given message, or the body is a JSON array. *)
Inductive Response :=
| Rejected (message : string)
| Json (data : list Hit).

(** The url [geocodeLocation(place)] fetches. *)
Definition geocodeUrl (place : string) : string :=
  "https://nominatim.openstreetmap.org/search?format=json&limit=1&q="
  ++ Js.encodeURIComponent (place ++ ", Nepal").

(** The rest of [geocodeLocation] once the response is there: the place, or
    the message of the error thrown. *)
Definition geocodeResult (r : Response) : Place + string :=
  match r with
  | Rejected msg => inr msg
  | Json [] => inr "Location not found in Nepal. Try a nearby area, road, or landmark."
  | Json (h :: _) => inl (mkPlace (hit_lat h) (hit_lon h) (display_name h))
  end.

(** [clearMap()] *)
Definition removeIfSet (v : option Handle) (st : Page) : Page :=
  match v with
  | Some h => L.removeLayer h st
  | None => st
  end.

Definition clearMap (st : Page) : Page :=
  let st := removeIfSet (routeA st) st in
  let st := removeIfSet (routeB st) st in
  let st := removeIfSet (startMarker st) st in
  let st := removeIfSet (endMarker st) st in
  let st := foldl (fun s marker => L.removeLayer marker s) st (hazardMarkers st) in
  set_hazardMarkers [] st.

(** Lines 113-126: the two alternative routes between two places. *)
Definition midLat (start end_ : Place) : float := ((lat start + lat end_) / 2)%float.
Definition midLon (start end_ : Place) : float := ((lon start + lon end_) / 2)%float.

Definition routeAcoords (start end_ : Place) : list LatLng :=
  [ (lat start, lon start);
    ((midLat start end_ + 0.15)%float, midLon start end_);
    (lat end_, lon end_) ].

Definition routeBcoords (start end_ : Place) : list LatLng :=
  [ (lat start, lon start);
    ((midLat start end_ - 0.15)%float, midLon start end_);
    (lat end_, lon end_) ].

(** Lines 134-147: the body of [simulatedHazards.forEach((hazard, i) => ...)],
    run for the entries from index [i] on. *)
Definition hazardPopup (hazard : Hazard) : string :=
  Js.lines
    [ EmptyString;
      "                <b>" ++ type hazard ++ "</b><br>";
      "                " ++ reason hazard ++ "<br>";
      "                <i>Simulated condition</i>";
      "            " ].

Definition hazardLatLng (mLat mLon : float) (i : nat) : LatLng :=
  ((mLat + Js.ofIndex i * 0.05)%float, (mLon - Js.ofIndex i * 0.05)%float).

Fixpoint addHazards (mLat mLon : float) (i : nat) (hazards : list Hazard)
    (st : Page) : Page :=
  match hazards with
  | [] => st
  | hazard :: rest =>
      let '(marker, st) :=
        L.create (Marker (hazardLatLng mLat mLon i) (Some (getHazardIcon (type hazard))) None) st in
      let st := L.addTo marker st in
      let st := L.bindPopup marker (hazardPopup hazard) st in
      let st := set_hazardMarkers (hazardMarkers st ++ [marker]) st in
      addHazards mLat mLon (S i) rest st
  end.

(** What the page writes into [#result]. *)
Definition routesFound : string :=
  Js.lines
    [ EmptyString;
      "<b>Two route options found:</b><br><br>";
      "🔴 <b>Route A</b>: Faster but riskier due to road conditions.<br>";
      "🟢 <b>Route B</b>: Safer and more reliable.<br><br>";
      "Click a route on the map to select it.";
      "        " ].

Definition routeASelected : string :=
  Js.lines
    [ EmptyString;
      "<div class=" ++ Js.dq ++ "route-selected" ++ Js.dq ++ ">";
      "🔴 <b>Route A Selected</b><br>";
      "Recommended when speed is critical.";
      "</div>" ].

Definition routeBSelected : string :=
  Js.lines
    [ EmptyString;
      "<div class=" ++ Js.dq ++ "route-selected" ++ Js.dq ++ ">";
      "🟢 <b>Route B Selected</b><br>";
      "Recommended for safer and consistent travel.";
      "</div>" ].

Definition uncertaintyBox (message : string) : string :=
  Js.lines
    [ EmptyString;
      "<div class=" ++ Js.dq ++ "uncertainty-box" ++ Js.dq ++ ">";
      "⚠️ " ++ message ++ "<br><br>";
      "Try examples like:<br>";
      "• Biratnagar Bus Park<br>";
      "• Main Road Biratnagar<br>";
      "• Pokhara Lakeside";
      "</div>" ].

(** Lines 99-172: the [try] block of [findRoute] after both places are
    resolved, run to its end, as it is when Leaflet accepts the coordinates
    (it does accept valid ones). *)
Definition showRoutes (start end_ : Place) (st : Page) : Page :=
  let st := set_view (SetView (lat start, lon start) 11) st in
  let '(m, st) := L.create (Marker (lat start, lon start) None None) st in
  let st := L.addTo m st in
  let st := L.bindPopup m ("📍 Start<br>" ++ display start) st in
  let st := L.openPopup m st in
  let st := set_startMarker (Some m) st in
  let '(m, st) := L.create (Marker (lat end_, lon end_) None None) st in
  let st := L.addTo m st in
  let st := L.bindPopup m ("🏁 Destination<br>" ++ display end_) st in
  let st := set_endMarker (Some m) st in
  let '(a, st) := L.create (Polyline (routeAcoords start end_) "red" 6 []) st in
  let st := L.addTo a st in
  let st := set_routeA (Some a) st in
  let '(b, st) := L.create (Polyline (routeBcoords start end_) "green" 6 []) st in
  let st := L.addTo b st in
  let st := set_routeB (Some b) st in
  let st := set_view (FitBounds [a; b]) st in
  let st := addHazards (midLat start end_) (midLon start end_) 0 simulatedHazards st in
  let st := set_result routesFound st in
  let st := L.onClick a routeASelected st in
  let st := L.onClick b routeBSelected st in
  st.

(** The [catch] block. *)
Definition showError (message : string) (st : Page) : Page :=
  set_result (uncertaintyBox message) st.

(** A call of [findRoute()], with the values of [#start] and [#end], up to its
    first [await]. *)
Definition findRoute (startValue endValue : string) (st : Page) : option Await * Page :=
  let startName := Js.trim startValue in
  let endName := Js.trim endValue in
  if Js.falsy startName || Js.falsy endName then
    (None, alert "Please enter both start and destination locations." st)
  else
    let st := clearMap st in
    (Some (AwaitStart endName), fetch (geocodeUrl startName) st).

(** The call goes on when the response it waits for arrives. *)
Definition resume (k : Await) (r : Response) (st : Page) : option Await * Page :=
  match k with
  | AwaitStart endName =>
      match geocodeResult r with
      | inl start => (Some (AwaitEnd start), fetch (geocodeUrl endName) st)
      | inr message => (None, showError message st)
      end
  | AwaitEnd start =>
      match geocodeResult r with
      | inl end_ => (None, showRoutes start end_ st)
      | inr message => (None, showError message st)
      end
  end.

(** A click on a layer of the map. A click on a route goes on to the map,
    where it closes the open popup, and the listeners of the route run in
    order; a click on the tiles is a click on the map; a click on a marker
    stays with the marker, which opens its popup, or closes it when it is the
    open one. *)
Definition click (h : Handle) (st : Page) : Page :=
  if decide (h ∈ onMap st) then
    match objects st !! h with
    | Some (Polyline _ _ _ listeners) =>
        foldl (fun s html => set_result html s) (L.closePopup st) listeners
    | Some (Marker _ _ (Some _)) =>
        set_leaflet (objects st) (nextId st) (onMap st)
          (if decide (popupOpen st = Some h) then None else Some h) st
    | Some (TileLayer _ _) => L.closePopup st
    | _ => st
    end
  else st.

Definition clickOn (v : option Handle) (st : Page) : Page :=
  match v with
  | Some h => click h st
  | None => st
  end.

(** A whole search when nothing else happens in between: the call, then the
    answer [r1] for the start place and the answer [r2] for the destination,
    as far as the call asks for them. *)
Definition search (startValue endValue : string) (r1 r2 : Response) (st : Page) : Page :=
  match findRoute startValue endValue st with
  | (None, st) => st
  | (Some k, st) =>
      match resume k r1 st with
      | (None, st) => st
      | (Some k, st) => snd (resume k r2 st)
      end
  end.

(** ** The event loop

    The page is single-threaded: each event runs its handler up to the next
    [await] or to its end. [calls] holds, for every call of [findRoute] so
    far, the [await] it is suspended at, if any. *)
Record System := mkSystem { page : Page; calls : list (option Await) }.

Inductive Event :=
| Press (startValue endValue : string)
| Reply (call : nat) (r : Response)
| Click (h : Handle).

Definition step (sys : System) (e : Event) : System :=
  match e with
  | Press startValue endValue =>
      let '(k, st) := findRoute startValue endValue (page sys) in
      mkSystem st (calls sys ++ [k])
  | Reply i r =>
      match calls sys !! i with
      | Some (Some k) =>
          let '(k', st) := resume k r (page sys) in
          mkSystem st (<[i := k']> (calls sys))
      | _ => sys
      end
  | Click h => mkSystem (click h (page sys)) (calls sys)
  end.

Definition run (events : list Event) (sys : System) : System := foldl step sys events.

(** ** Vocabulary of the statements *)

(** The alert of [findRoute] for an empty field. *)
Definition enterBoth : string := "Please enter both start and destination locations.".

(** The handles the global variables hold. *)
Definition held (v : option Handle) : gset Handle :=
  match v with
  | Some h => {[h]}
  | None => ∅
  end.

Definition tracked (st : Page) : gset Handle :=
  held (routeA st) ∪ held (routeB st) ∪ held (startMarker st) ∪ held (endMarker st)
  ∪ list_to_set (hazardMarkers st).

Definition heldList (st : Page) : list Handle :=
  option_list (routeA st) ++ option_list (routeB st) ++ option_list (startMarker st)
  ++ option_list (endMarker st) ++ hazardMarkers st.

(** [clearMap] removes layers one after the other. *)
Definition removeAll (l : list Handle) (st : Page) : Page :=
  foldl (fun s marker => L.removeLayer marker s) st l.

(** The open popup once the layers of [gone] are removed. *)
Definition popupAfter (gone : gset Handle) (st : Page) : option Handle :=
  match popupOpen st with
  | Some h => if decide (h ∈ gone ∧ h ∈ onMap st) then None else Some h
  | None => None
  end.

(** The overlays of the map: its markers and routes, not the tiles. *)
Definition isOverlay (l : Layer) : bool :=
  match l with
  | TileLayer _ _ => false
  | _ => true
  end.

Definition isOverlayAt (st : Page) (h : Handle) : bool :=
  match objects st !! h with
  | Some l => isOverlay l
  | None => false
  end.

Definition overlays (st : Page) : gset Handle :=
  filter (fun h => isOverlayAt st h = true) (onMap st).

(** The seven layers [showRoutes] creates: start and end marker, route A,
    route B, three hazard markers. *)
Definition created (st : Page) : list Handle :=
  let m1 := nextId st in
  let m2 := Pos.succ m1 in
  let a := Pos.succ m2 in
  let b := Pos.succ a in
  let h0 := Pos.succ b in
  let h1 := Pos.succ h0 in
  let h2 := Pos.succ h1 in
  [m1; m2; a; b; h0; h1; h2].

(** Handles are handed out in increasing order: what is on the map is older
    than the next handle. *)
Definition below (st : Page) : Prop := ∀ h, h ∈ onMap st → (h < nextId st)%positive.

(** A page on which every overlay of the map is held by a variable of the
    script: what [clearMap] relies on. *)
Definition consistent (st : Page) : Prop := below st ∧ overlays st ⊆ tracked st.

(** A page right after [clearMap]. *)
Definition cleared (st : Page) : Prop :=
  below st ∧ overlays st = ∅ ∧ hazardMarkers st = [].

(** A page on which, since [st], the map was cleared and nothing was shown:
    its overlays are those of [st] that no variable held. *)
Definition clearedFrom (st s : Page) : Prop :=
  below s ∧ hazardMarkers s = [] ∧ overlays s = overlays st ∖ tracked st
  ∧ tracked s ⊆ tracked st.

(** The page [showRoutes] leaves, field by field. *)
Definition shown (start end_ : Place) (st : Page) : Page :=
  let n := nextId st in
  let m1 := n in
  let m2 := Pos.succ m1 in
  let a := Pos.succ m2 in
  let b := Pos.succ a in
  let h0 := Pos.succ b in
  let h1 := Pos.succ h0 in
  let h2 := Pos.succ h1 in
  let mLat := midLat start end_ in
  let mLon := midLon start end_ in
  let hz i t r :=
    Marker (hazardLatLng mLat mLon i) (Some (getHazardIcon t))
      (Some (hazardPopup (mkHazard t r))) in
  mkPage
    (<[h2 := hz 2%nat "Congestion" "High traffic volume"]>
     (<[h1 := hz 1%nat "Construction" "Ongoing road maintenance"]>
     (<[h0 := hz 0%nat "Flooding" "Heavy rainfall reported"]>
     (<[b := Polyline (routeBcoords start end_) "green" 6 [routeBSelected]]>
     (<[a := Polyline (routeAcoords start end_) "red" 6 [routeASelected]]>
     (<[m2 := Marker (lat end_, lon end_) None (Some ("🏁 Destination<br>" ++ display end_))]>
     (<[m1 := Marker (lat start, lon start) None (Some ("📍 Start<br>" ++ display start))]>
        (objects st))))))))
    (Pos.succ h2)
    ({[h2]} ∪ ({[h1]} ∪ ({[h0]} ∪ ({[b]} ∪ ({[a]} ∪ ({[m2]} ∪ ({[m1]} ∪ onMap st)))))))
    (Some m1)
    (FitBounds [a; b])
    (Some a) (Some b) (Some m1) (Some m2)
    (hazardMarkers st ++ [h0; h1; h2])
    routesFound (alerts st) (fetched st).

(** The page of a search whose field values are not empty, once [clearMap]
    has run and both requests have left. *)
Definition afterFetches (sv ev : string) (st : Page) : Page :=
  fetch (geocodeUrl (Js.trim ev)) (fetch (geocodeUrl (Js.trim sv)) (clearMap st)).

(** What a search with two non-empty field values comes to. *)
Definition outcome (sv ev : string) (r1 r2 : Response) (st : Page) : Page :=
  let st1 := fetch (geocodeUrl (Js.trim sv)) (clearMap st) in
  match geocodeResult r1 with
  | inr message => showError message st1
  | inl start =>
      let st2 := fetch (geocodeUrl (Js.trim ev)) st1 in
      match geocodeResult r2 with
      | inr message => showError message st2
      | inl end_ => showRoutes start end_ st2
      end
  end.

(** A coordinate as the geocoder should give it: latitude in [-90, 90],
    longitude in [-180, 180]. *)
Definition latOK (x : float) : Prop :=
  (-90 <=? x)%float = true ∧ (x <=? 90)%float = true.

Definition lonOK (x : float) : Prop :=
  (-180 <=? x)%float = true ∧ (x <=? 180)%float = true.

Definition validCoordinate (p : Place) : Prop := latOK (lat p) ∧ lonOK (lon p).

(** A path that never leaves one point. *)
Definition zeroLength (path : list LatLng) : Prop :=
  ∀ x y, x ∈ path → y ∈ path → x = y.

(** The interior latitudes of the two routes. *)
Definition interiorA (start end_ : Place) : float := (midLat start end_ + 0.15)%float.
Definition interiorB (start end_ : Place) : float := (midLat start end_ - 0.15)%float.

(** ** Binary64 numbers as integers

    A finite binary64 number is a multiple of 2^-1074: [SFvalue] is that
    multiple, and [scaled] the same for a primitive float. *)

Module B64.

Local Open Scope Z_scope.

Definition SFvalue (x : spec_float) : Z :=
  match x with
  | S754_finite s m e => cond_Zopp s (Zpos m * 2 ^ (e + 1074))
  | _ => 0
  end.

Definition isFinite (x : spec_float) : bool :=
  match x with
  | S754_finite _ _ _ | S754_zero _ => true
  | _ => false
  end.

Definition scaled (x : float) : Z := SFvalue (Prim2SF x).
Definition finiteF (x : float) : bool := isFinite (Prim2SF x).

Abbreviation fexp64 := (fexp 53 1024).

(** The record [shr] reaches after [n] shifts of an exact [m]: quotient,
    round bit, sticky bit. *)
Definition shifted (m : Z) (n : nat) : shr_record :=
  Build_shr_record (m / 2 ^ Z.of_nat n) (Z.odd (m / 2 ^ (Z.of_nat n - 1)))
    (negb (m mod 2 ^ (Z.of_nat n - 1) =? 0)).

(** Exponent range and canonical mantissa of a binary64 number. *)
Definition inFormat (x : spec_float) : Prop :=
  match x with
  | S754_finite _ m e => -1074 <= e <= 971 /\ fexp64 (Zpos (digits2_pos m) + e) = e
  | _ => True
  end.

(** The number 2. *)
Definition two64 : spec_float := S754_finite false 4503599627370496 (-51).

(** The unit the error bounds are counted in: 2^-55. *)
Definition unit1019 : Z := 2 ^ 1019.

End B64.

(** ** Sample data *)

Definition pokhara : Hit := mkHit 28.2096 83.9856 "Pokhara".
Definition kathmandu : Hit := mkHit 27.7172 85.3240 "Kathmandu".
Definition biratnagar : Hit := mkHit 26.4525 87.2718 "Biratnagar".
Definition dharan : Hit := mkHit 26.8065 87.2846 "Dharan".


Definition placeOf (h : Hit) : Place := mkPlace (hit_lat h) (hit_lon h) (display_name h).

(** The page after a first search from Pokhara to Kathmandu, and after a
    second one back. *)
Abbreviation demo :=
  (search "Pokhara" " Kathmandu " (Json [pokhara]) (Json [kathmandu]) (initial EmptyString)).

Abbreviation demoBack :=
  (search "Kathmandu" "Pokhara" (Json [kathmandu]) (Json [pokhara]) demo).

(** ** Two searches that overlap

    The user starts search A, then search B before A's first answer is
    there; B's two answers come first. *)
Definition overlapped (svA evA svB evB : string) (rB1 rB2 : Response) : list Event :=
  [ Press svA evA; Press svB evB; Reply 1 rB1; Reply 1 rB2 ].

(** The same with A's first answer whenever it comes: before the press for
    B ([k] = 0), or after the first [k] of B's three events. In every case
    search B is begun while search A waits for an answer, and the two answers
    for B come before the last answer for A. *)
Definition overtaking (svA evA svB evB : string) (rA1 rB1 rB2 : Response) (k : nat)
    : list Event :=
  let b := [ Press svB evB; Reply 1 rB1; Reply 1 rB2 ] in
  (Press svA evA :: take k b ++ Reply 0 rA1 :: drop k b)%list.

(** The page when both calls have cleared the map and B waits for its last
    answer. *)
Definition bothBegun (svA evA svB evB : string) (st : Page) : Page :=
  fetch (geocodeUrl (Js.trim evB))
    (fetch (geocodeUrl (Js.trim svB))
       (clearMap (fetch (geocodeUrl (Js.trim svA)) (clearMap st)))).

(** ** Vocabulary of the further properties *)

(** The encodings [trimStart] strips, and those [trimEnd] strips from the
    reversed string. *)
Definition spaces : list (list ascii) := map Js.utf8 Js.whiteSpace.
Definition secaps : list (list ascii) := map (fun c => rev (Js.utf8 c)) Js.whiteSpace.

(** A string of white space only: the UTF-8 encoding of white space code
    points. The empty string is one. *)
Definition blank (s : string) : Prop :=
  ∃ cs : list N, Forall (fun c => c ∈ Js.whiteSpace) cs
                 ∧ list_ascii_of_string s = concat (map Js.utf8 cs).

(** No member of [ps] is empty, and none begins another followed by more. *)
Definition prefixCode (ps : list (list ascii)) : Prop :=
  (∀ p, p ∈ ps → p ≠ [])
  ∧ ∀ p q x y, p ∈ ps → q ∈ ps → (p ++ x = q ++ y)%list → p = q.

(** Two byte strings one of which begins the other. *)
Fixpoint comparable (p q : list ascii) : bool :=
  match p, q with
  | a :: p', b :: q' => Ascii.eqb a b && comparable p' q'
  | _, _ => true
  end.

(** [prefixCode], checked. *)
Definition codeb (ps : list (list ascii)) : bool :=
  forallb (fun p =>
    match p with [] => false | _ => true end
    && forallb (fun q => bool_decide (p = q) || negb (comparable p q)) ps) ps.

(** The tails of a byte string that are not empty. *)
Fixpoint tails (l : list ascii) : list (list ascii) :=
  match l with
  | [] => []
  | a :: l' => (a :: l') :: tails l'
  end.

Definition sameHead (b q : list ascii) : bool :=
  match b, q with
  | x :: _, y :: _ => Ascii.eqb x y
  | _, _ => false
  end.

(** No member of [ps] has a proper tail that begins like a member of [ps]:
    a member cannot straddle the border of two strings. *)
Definition alignedb (ps : list (list ascii)) : bool :=
  forallb (fun p => forallb (fun b => forallb (fun q => negb (sameHead b q)) ps) (tails (tl p))) ps.

(** A request for a name that is trimmed and not empty. *)
Definition forName (url : string) : Prop :=
  ∃ place : string, place ≠ EmptyString ∧ Js.trim place = place ∧ url = geocodeUrl place.

(** A call that waits for its first answer holds such a name for its second
    request. *)
Definition namedCall (k : option Await) : Prop :=
  match k with
  | Some (AwaitStart endName) => endName ≠ EmptyString ∧ Js.trim endName = endName
  | _ => True
  end.

(** A layer of the map that no variable of the script holds, the tile layer
    for one. *)
Definition untracked (st : Page) (h : Handle) : Prop :=
  h ∈ onMap st ∧ (h ∉ tracked st) ∧ (h < nextId st)%positive.

(** Searches run one after the other: each with the values of the two
    fields and the two answers of the geocoder. *)
Record Query := mkQuery {
  fromText : string; toText : string; fromReply : Response; toReply : Response }.

Definition searches (l : list Query) (st : Page) : Page :=
  foldl (fun s q => search (fromText q) (toText q) (fromReply q) (toReply q) s) st l.

(** A search whose two places, when both resolve, have valid coordinates. *)
Definition validQuery (q : Query) : Prop :=
  ∀ start end_ : Place,
    geocodeResult (fromReply q) = inl start → geocodeResult (toReply q) = inl end_ →
    validCoordinate start ∧ validCoordinate end_.

(** An event that is no press of the button. *)
Definition noPress (e : Event) : bool :=
  match e with
  | Press _ _ => false
  | _ => true
  end.

(** Two systems that differ by one rejected press: one alert more, and one
    call more that waits for nothing. *)
Definition oneAlertMore (sys sys' : System) : Prop :=
  page sys' = alert enterBoth (page sys) ∧ calls sys' = (calls sys ++ [None])%list.

(** ** Rounding of binary64 sums, differences and halves *)

Module B64Facts.

Import B64.
Local Open Scope Z_scope.

(** [digits2_pos p] is the number of binary digits of [p]. *)
Lemma digits2_bounds (p : positive) :
  2 ^ (Zpos (digits2_pos p) - 1) <= Zpos p < 2 ^ Zpos (digits2_pos p).
Proof.
  induction p as [p IH|p IH|]; cbn [digits2_pos].
  - rewrite Pos2Z.inj_succ. change (Zpos p~1) with (2 * Zpos p + 1).
    replace (Z.succ (Zpos (digits2_pos p)) - 1) with (Z.succ (Zpos (digits2_pos p) - 1)) by lia.
    rewrite !Z.pow_succ_r by lia.
    revert IH. generalize (2 ^ (Zpos (digits2_pos p) - 1)) (2 ^ Zpos (digits2_pos p)). intros A B IH. lia.
  - rewrite Pos2Z.inj_succ. change (Zpos p~0) with (2 * Zpos p).
    replace (Z.succ (Zpos (digits2_pos p)) - 1) with (Z.succ (Zpos (digits2_pos p) - 1)) by lia.
    rewrite !Z.pow_succ_r by lia.
    revert IH. generalize (2 ^ (Zpos (digits2_pos p) - 1)) (2 ^ Zpos (digits2_pos p)). intros A B IH. lia.
  - cbn. lia.
Qed.

(** Powers of two. *)
Lemma pow2_pos (n : Z) : 0 <= n -> 0 < 2 ^ n.
Proof. intros. apply Z.pow_pos_nonneg; lia. Qed.

Lemma pow2_le (a b : Z) : 0 <= a <= b -> 2 ^ a <= 2 ^ b.
Proof. intros. apply Z.pow_le_mono_r; lia. Qed.

Lemma pow2_lt (a b : Z) : 0 <= a < b -> 2 ^ a < 2 ^ b.
Proof. intros. apply Z.pow_lt_mono_r; lia. Qed.

Lemma digits2_le (p : positive) (k : Z) :
  0 <= k -> Zpos p < 2 ^ k -> Zpos (digits2_pos p) <= k.
Proof.
  intros Hk Hp. destruct (digits2_bounds p) as [Hlo _].
  destruct (Z_le_gt_dec (Zpos (digits2_pos p)) k) as [|Hgt]; [assumption|].
  assert (2 ^ k <= 2 ^ (Zpos (digits2_pos p) - 1)) by (apply pow2_le; lia). lia.
Qed.

Lemma digits2_ge (p : positive) (k : Z) :
  0 <= k -> 2 ^ k <= Zpos p -> k < Zpos (digits2_pos p).
Proof.
  intros Hk Hp. destruct (digits2_bounds p) as [_ Hhi].
  destruct (Z_lt_ge_dec k (Zpos (digits2_pos p))) as [|Hge]; [assumption|].
  assert (2 ^ Zpos (digits2_pos p) <= 2 ^ k) by (apply pow2_le; lia). lia.
Qed.

(** [shr] shifts by iterating [shr_1]; the iteration, counted in [nat]. *)
Lemma iter_pos_nat {A} (f : A -> A) (p : positive) (x : A) :
  SpecFloat.iter_pos f p x = Nat.iter (Pos.to_nat p) f x.
Proof.
  revert x. induction p as [p IH|p IH|]; intros x; cbn [SpecFloat.iter_pos].
  - rewrite !IH, Pos2Nat.inj_xI, <- Nat.iter_add, <- Nat.iter_succ_r. f_equal. lia.
  - rewrite !IH, Pos2Nat.inj_xO, <- Nat.iter_add. f_equal. lia.
  - reflexivity.
Qed.

(** One shift: the mantissa is halved, its last bit becomes the round bit,
    the old round bit goes to the sticky bit. *)
Lemma shr_1_nonneg (m : Z) (r s : bool) :
  0 <= m ->
  shr_1 (Build_shr_record m r s) = Build_shr_record (m / 2) (Z.odd m) (r || s).
Proof.
  intros Hm. destruct m as [|[p|p|]|p]; try lia; cbn [shr_1 Z.odd]; f_equal.
  - change (Zpos p~1) with (2 * Zpos p + 1). Z.div_mod_to_equations. lia.
  - change (Zpos p~0) with (2 * Zpos p). Z.div_mod_to_equations. lia.
Qed.

Lemma shr_iter (m : Z) (n : nat) :
  0 <= m ->
  Nat.iter (S n) shr_1 (Build_shr_record m false false) = shifted m (S n).
Proof.
  intros Hm. induction n as [|n IH].
  - cbn [Nat.iter]. rewrite shr_1_nonneg by assumption. unfold shifted.
    replace (Z.of_nat 1 - 1) with 0 by lia. rewrite Z.pow_0_r, Z.div_1_r, Z.mod_1_r.
    change (2 ^ Z.of_nat 1) with 2. reflexivity.
  - rewrite Nat.iter_succ, IH. unfold shifted.
    assert (Hp : 0 < 2 ^ Z.of_nat n) by (apply pow2_pos; lia).
    rewrite shr_1_nonneg by (apply Z.div_pos; [lia | apply pow2_pos; lia]).
    replace (Z.of_nat (S (S n)) - 1) with (Z.of_nat (S n)) by lia.
    replace (Z.of_nat (S n) - 1) with (Z.of_nat n) by lia.
    replace (Z.of_nat (S (S n))) with (Z.succ (Z.of_nat (S n))) by lia.
    replace (Z.of_nat (S n)) with (Z.succ (Z.of_nat n)) by lia.
    rewrite !Z.pow_succ_r by lia.
    f_equal.
    + rewrite Z.div_div by lia. f_equal. lia.
    + (* sticky bit *)
      rewrite (Z.mul_comm 2 (2 ^ Z.of_nat n)).
      rewrite Z.rem_mul_r by lia.
      rewrite Zmod_odd.
      assert (0 <= m mod 2 ^ Z.of_nat n < 2 ^ Z.of_nat n) by (apply Z.mod_pos_bound; lia).
      destruct (Z.odd (m / 2 ^ Z.of_nat n)); cbn [orb].
      * symmetry. apply Bool.negb_true_iff, Z.eqb_neq. lia.
      * rewrite Z.mul_0_r, Z.add_0_r. reflexivity.
Qed.

(** Rounding to nearest after [S n] shifts is within half of 2^(S n). *)
Lemma round_shifted (m : Z) (n : nat) :
  0 <= m ->
  let r := shifted m (S n) in
  let m1 := round_nearest_even (shr_m r) (loc_of_shr_record r) in
  0 <= m1 /\ 2 * Z.abs (m1 * 2 ^ Z.of_nat (S n) - m) <= 2 ^ Z.of_nat (S n)
  /\ m / 2 ^ Z.of_nat (S n) <= m1 <= m / 2 ^ Z.of_nat (S n) + 1.
Proof.
  intros Hm. unfold shifted. cbn zeta. cbn [shr_m].
  replace (Z.of_nat (S n) - 1) with (Z.of_nat n) by lia.
  replace (Z.of_nat (S n)) with (Z.succ (Z.of_nat n)) by lia.
  rewrite Z.pow_succ_r by lia.
  set (h := 2 ^ Z.of_nat n).
  assert (Hh : 0 < h) by (apply pow2_pos; lia).
  assert (Hq : m / (2 * h) = (m / h) / 2) by (rewrite Z.mul_comm, Z.div_div by lia; reflexivity).
  rewrite Hq.
  pose proof (Z.div_mod m h ltac:(lia)) as Hdm.
  pose proof (Z.mod_pos_bound m h Hh) as Hl.
  assert (Hq2 : 0 <= m / h) by (apply Z.div_pos; lia).
  pose proof (Z.div_mod (m / h) 2 ltac:(lia)) as Hdq.
  rewrite Zmod_odd in Hdq.
  set (q2 := m / h) in *. set (l := m mod h) in *. set (q := q2 / 2) in *.
  assert (Hq0 : 0 <= q) by (subst q; apply Z.div_pos; lia).
  assert (Hm' : m = 2 * (h * q) + (if Z.odd q2 then h else 0) + l).
  { rewrite Hdm at 1. rewrite Hdq at 1. destruct (Z.odd q2); lia. }
  clearbody q2 l q. clear Hdm Hdq Hq.
  unfold loc_of_shr_record, round_nearest_even.
  destruct (Z.odd q2); destruct (Z.eqb_spec l 0) as [El|El]; cbn [negb];
    try destruct (Z.even q); lia.
Qed.

(** The exponent binary64 gives a number of [z] digits above 2^0. *)
Lemma fexp64_eq (z : Z) : fexp64 z = Z.max (z - 53) (-1074).
Proof. reflexivity. Qed.

Lemma shr_fexp_noshift (m e : Z) :
  fexp64 (Zdigits2 m + e) - e <= 0 ->
  shr_fexp 53 1024 m e loc_Exact = (Build_shr_record m false false, e).
Proof.
  intros H. unfold shr_fexp, shr. cbn [shr_record_of_loc].
  destruct (fexp64 (Zdigits2 m + e) - e); try reflexivity. lia.
Qed.

Lemma shr_fexp_shift (m e : Z) (p : positive) :
  0 <= m -> fexp64 (Zdigits2 m + e) - e = Zpos p ->
  shr_fexp 53 1024 m e loc_Exact = (shifted m (Pos.to_nat p), e + Zpos p).
Proof.
  intros Hm H. unfold shr_fexp, shr. cbn [shr_record_of_loc]. rewrite H.
  rewrite iter_pos_nat. destruct (Pos2Nat.is_succ p) as [n Hn]. rewrite Hn.
  rewrite shr_iter by assumption. reflexivity.
Qed.

Lemma pow2_split (a b : Z) : 0 <= a -> 0 <= b -> 2 ^ (a + b) = 2 ^ a * 2 ^ b.
Proof. intros. apply Z.pow_add_r; lia. Qed.

(** [binary_round_aux] on an exact mantissa: the result is finite, of the
    same sign, and within 2^(k-54) of the value when the value is below 2^k. *)
Lemma round_aux_exact (sx : bool) (mz : positive) (ez k : Z) :
  -1074 <= ez <= 971 -> -1020 <= k <= 1000 ->
  Zpos mz * 2 ^ (ez + 1074) < 2 ^ (k + 1074) ->
  exists m e,
    binary_round_aux 53 1024 sx (Zpos mz) ez loc_Exact = S754_finite sx m e
    /\ -1074 <= e
    /\ Z.abs (Zpos m * 2 ^ (e + 1074) - Zpos mz * 2 ^ (ez + 1074)) <= 2 ^ (k + 1020).
Proof.
  intros He Hk Hlt.
  assert (Hpe : 0 < 2 ^ (ez + 1074)) by (apply pow2_pos; lia).
  assert (Hezk : ez < k).
  { destruct (Z_lt_ge_dec ez k) as [|Hge]; [assumption|].
    assert (2 ^ (k + 1074) <= 2 ^ (ez + 1074)) by (apply pow2_le; lia). nia. }
  destruct (digits2_bounds mz) as [Hdlo Hdhi].
  set (dg := Zpos (digits2_pos mz)) in *.
  assert (Hdg : dg + ez <= k).
  { assert (dg <= k - ez); [|lia]. apply digits2_le; [lia|].
    replace (k + 1074) with ((k - ez) + (ez + 1074)) in Hlt by lia.
    rewrite (pow2_split (k - ez) (ez + 1074)) in Hlt by lia. nia. }
  unfold binary_round_aux.
  destruct (Z_le_gt_dec (fexp64 (dg + ez) - ez) 0) as [Hn|Hn].
  - (* no shift: the value is kept *)
    rewrite shr_fexp_noshift by (cbn [Zdigits2]; assumption).
    cbn [shr_m loc_of_shr_record round_nearest_even].
    rewrite shr_fexp_noshift by (cbn [Zdigits2]; assumption).
    cbn [shr_m]. replace (ez <=? 1024 - 53) with true by (symmetry; apply Z.leb_le; lia).
    exists mz, ez. split; [reflexivity|]. split; [lia|].
    rewrite Z.sub_diag. cbn [Z.abs]. apply Z.lt_le_incl, pow2_pos. lia.
  - (* shift by n = dg - 53 *)
    rewrite fexp64_eq in Hn.
    assert (Hfe : fexp64 (dg + ez) = dg + ez - 53) by (rewrite fexp64_eq; lia).
    remember (fexp64 (dg + ez) - ez) as n eqn:En.
    destruct n as [|p|p]; try lia.
    rewrite (shr_fexp_shift (Zpos mz) ez p) by first [lia | symmetry; exact En].
    destruct (Pos2Nat.is_succ p) as [n' Hn']. rewrite Hn'.
    destruct (round_shifted (Zpos mz) n' ltac:(lia)) as (Hm0 & Herr & Hq).
    cbn zeta in Hm0, Herr, Hq.
    set (m1 := round_nearest_even (shr_m (shifted (Zpos mz) (S n')))
                 (loc_of_shr_record (shifted (Zpos mz) (S n')))) in *.
    assert (HSn : Z.of_nat (S n') = Zpos p) by (rewrite <- Hn'; apply positive_nat_Z).
    rewrite HSn in Herr, Hq.
    assert (Hp : Zpos p = dg - 53) by lia.
    assert (H2p : 0 < 2 ^ Zpos p) by (apply pow2_pos; lia).
    (* the quotient has 53 digits *)
    assert (Hqb : 2 ^ 52 <= Zpos mz / 2 ^ Zpos p < 2 ^ 53).
    { split.
      - apply Z.div_le_lower_bound; [lia|].
        replace (dg - 1) with (Zpos p + 52) in Hdlo by lia.
        rewrite (pow2_split (Zpos p) 52) in Hdlo by lia. lia.
      - apply Z.div_lt_upper_bound; [lia|].
        replace dg with (Zpos p + 53) in Hdhi by lia.
        rewrite (pow2_split (Zpos p) 53) in Hdhi by lia. lia. }
    assert (Hval : Z.abs (m1 * 2 ^ (ez + Zpos p + 1074) - Zpos mz * 2 ^ (ez + 1074))
                   <= 2 ^ (k + 1020)).
    { replace (ez + Zpos p + 1074) with (Zpos p + (ez + 1074)) by lia.
      rewrite (pow2_split (Zpos p) (ez + 1074)) by lia.
      replace (m1 * (2 ^ Zpos p * 2 ^ (ez + 1074)) - Zpos mz * 2 ^ (ez + 1074))
        with ((m1 * 2 ^ Zpos p - Zpos mz) * 2 ^ (ez + 1074)) by ring.
      rewrite Z.abs_mul, (Z.abs_eq (2 ^ (ez + 1074))) by lia.
      assert (Hle : 2 ^ (Zpos p + (ez + 1074)) <= 2 ^ (k + 1021)) by (apply pow2_le; lia).
      rewrite (pow2_split (Zpos p) (ez + 1074)) in Hle by lia.
      replace (k + 1021) with (Z.succ (k + 1020)) in Hle by lia.
      rewrite Z.pow_succ_r in Hle by lia. nia. }
    destruct (Z.eq_dec m1 (2 ^ 53)) as [E53|N53].
    + (* the mantissa rounds up to 2^53: one more shift, exact *)
      rewrite E53 in *.
      change (2 ^ 53) with (Zpos 9007199254740992).
      rewrite (shr_fexp_shift _ _ 1%positive);
        [ | lia | cbn [Zdigits2]; change (Zpos (digits2_pos 9007199254740992)) with 54;
                  rewrite fexp64_eq; lia ].
      change (shr_m (shifted (Zpos 9007199254740992) (Pos.to_nat 1)))
        with (Zpos 4503599627370496).
      cbv iota beta.
      replace (ez + Zpos p + 1 <=? 1024 - 53) with true by (symmetry; apply Z.leb_le; lia).
      exists 4503599627370496%positive, (ez + Zpos p + 1). split; [reflexivity|].
      split; [lia|].
      replace (ez + Zpos p + 1 + 1074) with (Z.succ (ez + Zpos p + 1074)) by lia.
      rewrite Z.pow_succ_r by lia.
      change (2 ^ 53) with 9007199254740992 in Hval. lia.
    + assert (Hm1 : 2 ^ 52 <= m1 < 2 ^ 53) by lia.
      destruct m1 as [|p1|p1]; try lia.
      rewrite shr_fexp_noshift.
      2:{ cbn [Zdigits2].
          assert (Zpos (digits2_pos p1) <= 53) by (apply digits2_le; lia).
          assert (52 < Zpos (digits2_pos p1)) by (apply digits2_ge; lia).
          rewrite fexp64_eq. lia. }
      cbn [shr_m].
      replace (ez + Zpos p <=? 1024 - 53) with true by (symmetry; apply Z.leb_le; lia).
      exists p1, (ez + Zpos p). split; [reflexivity|]. split; [lia|]. assumption.
Qed.

(** Aligning a mantissa to a smaller exponent keeps the value. *)
Lemma iter_xO (m d : positive) : Zpos (Pos.iter xO m d) = Zpos m * 2 ^ Zpos d.
Proof.
  induction d as [|d IH] using Pos.peano_ind.
  - cbn. lia.
  - rewrite Pos.iter_succ, Pos2Z.inj_succ, Z.pow_succ_r by lia.
    change (Zpos (Pos.iter xO m d)~0) with (2 * Zpos (Pos.iter xO m d)). rewrite IH. ring.
Qed.

Lemma shl_align_value (mx : positive) (ex ez : Z) :
  -1074 <= ez <= ex ->
  Zpos (fst (shl_align mx ex ez)) * 2 ^ (ez + 1074) = Zpos mx * 2 ^ (ex + 1074)
  /\ snd (shl_align mx ex ez) = ez.
Proof.
  intros H. unfold shl_align.
  destruct (ez - ex) as [|d|d] eqn:E; cbn [fst snd]; try lia.
  - assert (ez = ex) by lia. subst ez. split; reflexivity.
  - split; [|reflexivity]. rewrite iter_xO.
    replace (ex + 1074) with (Zpos d + (ez + 1074)) by lia.
    rewrite (pow2_split (Zpos d) (ez + 1074)) by lia. ring.
Qed.

Lemma shl_align_fexp_value (mx : positive) (ex : Z) :
  -1074 <= ex <= 971 ->
  let '(mz, ez) := shl_align mx ex (fexp64 (Zpos (digits2_pos mx) + ex)) in
  -1074 <= ez <= 971 /\ Zpos mz * 2 ^ (ez + 1074) = Zpos mx * 2 ^ (ex + 1074).
Proof.
  intros H.
  destruct (Z_le_gt_dec ex (fexp64 (Zpos (digits2_pos mx) + ex))) as [Hle|Hgt].
  - unfold shl_align.
    destruct (fexp64 (Zpos (digits2_pos mx) + ex) - ex) eqn:E; try lia; split; (lia || reflexivity).
  - pose proof (shl_align_value mx ex (fexp64 (Zpos (digits2_pos mx) + ex))) as Hv.
    rewrite fexp64_eq in *.
    destruct (shl_align mx ex (Z.max (Zpos (digits2_pos mx) + ex - 53) (-1074))) as [mz ez].
    cbn [fst snd] in Hv. destruct Hv as [Hv1 Hv2]; [lia|]. subst ez. split; [lia|assumption].
Qed.

(** The same bound for [binary_round] and [binary_normalize]. *)
Lemma round_exact (sx : bool) (mx : positive) (ex k : Z) :
  -1074 <= ex <= 971 -> -1020 <= k <= 1000 ->
  Zpos mx * 2 ^ (ex + 1074) < 2 ^ (k + 1074) ->
  exists m e,
    binary_round 53 1024 sx mx ex = S754_finite sx m e
    /\ -1074 <= e
    /\ Z.abs (Zpos m * 2 ^ (e + 1074) - Zpos mx * 2 ^ (ex + 1074)) <= 2 ^ (k + 1020).
Proof.
  intros He Hk Hlt. unfold binary_round.
  pose proof (shl_align_fexp_value mx ex He) as Hs.
  destruct (shl_align mx ex (fexp64 (Zpos (digits2_pos mx) + ex))) as [mz ez].
  destruct Hs as [Hez Hv]. rewrite <- Hv in *.
  apply round_aux_exact; assumption.
Qed.

Lemma normalize_exact (M e k : Z) :
  -1074 <= e <= 971 -> -1020 <= k <= 1000 ->
  Z.abs M * 2 ^ (e + 1074) < 2 ^ (k + 1074) ->
  isFinite (binary_normalize 53 1024 M e false) = true
  /\ Z.abs (SFvalue (binary_normalize 53 1024 M e false) - M * 2 ^ (e + 1074)) <= 2 ^ (k + 1020).
Proof.
  intros He Hk Hlt.
  assert (Hp : 0 < 2 ^ (k + 1020)) by (apply pow2_pos; lia).
  destruct M as [|m|m]; cbn [binary_normalize].
  - cbn. lia.
  - destruct (round_exact false m e k He Hk Hlt) as (m' & e' & -> & He' & Herr).
    split; [reflexivity|]. cbn [SFvalue cond_Zopp]. assumption.
  - destruct (round_exact true m e k He Hk Hlt) as (m' & e' & -> & He' & Herr).
    split; [reflexivity|]. cbn [SFvalue cond_Zopp].
    replace (- (Zpos m' * 2 ^ (e' + 1074)) - Zneg m * 2 ^ (e + 1074))
      with (- (Zpos m' * 2 ^ (e' + 1074) - Zpos m * 2 ^ (e + 1074))) by (change (Zneg m) with (- Zpos m); ring).
    rewrite Z.abs_opp. assumption.
Qed.

(** What [valid_binary] says of a finite number. *)
Lemma valid_inFormat (x : spec_float) : valid_binary x = true -> inFormat x.
Proof.
  destruct x as [s|s| |s m e]; cbn [SpecFloat.valid_binary inFormat]; try trivial.
  unfold bounded, canonical_mantissa. intros H.
  apply Bool.andb_true_iff in H. destruct H as [H1 H2].
  apply Z.eqb_eq in H1. apply Z.leb_le in H2.
  change (fexp prec emax) with fexp64 in H1. change (emax - prec) with 971 in H2.
  split; [|exact H1]. rewrite fexp64_eq in H1. lia.
Qed.

Lemma value_aligned (s : bool) (m : positive) (e ez : Z) :
  -1074 <= ez <= e ->
  cond_Zopp s (Zpos (fst (shl_align m e ez))) * 2 ^ (ez + 1074) = SFvalue (S754_finite s m e).
Proof.
  intros H. destruct (shl_align_value m e ez H) as [Hv _].
  cbn [SFvalue]. destruct s; cbn [cond_Zopp]; lia.
Qed.

(** Sums and differences of finite numbers: finite, and within 2^(k-54) of
    the exact result when that is below 2^k. *)
Lemma SFadd_bound (x y : spec_float) (k : Z) :
  inFormat x -> inFormat y -> isFinite x = true -> isFinite y = true ->
  -1020 <= k <= 1000 ->
  Z.abs (SFvalue x + SFvalue y) < 2 ^ (k + 1074) ->
  isFinite (SF64add x y) = true
  /\ Z.abs (SFvalue (SF64add x y) - (SFvalue x + SFvalue y)) <= 2 ^ (k + 1020).
Proof.
  intros Hx Hy Fx Fy Hk Hlt.
  assert (Hp : 0 < 2 ^ (k + 1020)) by (apply pow2_pos; lia).
  destruct x as [sx|sx| |sx mx ex]; try discriminate;
  destruct y as [sy|sy| |sy my ey]; try discriminate.
  - destruct sx, sy; cbn; lia.
  - unfold SF64add; cbn [SFadd]. split; [reflexivity|]. cbn [SFvalue].
    rewrite Z.add_0_l, Z.sub_diag. cbn; lia.
  - unfold SF64add; cbn [SFadd]. split; [reflexivity|]. cbn [SFvalue].
    rewrite Z.add_0_r, Z.sub_diag. cbn; lia.
  - unfold SF64add; cbn [SFadd]. cbn [inFormat] in Hx, Hy.
    set (ez := Z.min ex ey).
    rewrite <- (value_aligned sx mx ex ez), <- (value_aligned sy my ey ez) in * by lia.
    rewrite <- Z.mul_add_distr_r in *.
    apply normalize_exact; lia.
Qed.

Lemma SFsub_bound (x y : spec_float) (k : Z) :
  inFormat x -> inFormat y -> isFinite x = true -> isFinite y = true ->
  -1020 <= k <= 1000 ->
  Z.abs (SFvalue x - SFvalue y) < 2 ^ (k + 1074) ->
  isFinite (SF64sub x y) = true
  /\ Z.abs (SFvalue (SF64sub x y) - (SFvalue x - SFvalue y)) <= 2 ^ (k + 1020).
Proof.
  intros Hx Hy Fx Fy Hk Hlt.
  assert (Hp : 0 < 2 ^ (k + 1020)) by (apply pow2_pos; lia).
  destruct x as [sx|sx| |sx mx ex]; try discriminate;
  destruct y as [sy|sy| |sy my ey]; try discriminate.
  - destruct sx, sy; cbn; lia.
  - unfold SF64sub; cbn [SFsub]. split; [reflexivity|]. cbn [SFvalue].
    destruct sy; cbn [negb cond_Zopp]; lia.
  - unfold SF64sub; cbn [SFsub]. split; [reflexivity|]. cbn [SFvalue].
    rewrite Z.sub_0_r, Z.sub_diag. cbn; lia.
  - unfold SF64sub; cbn [SFsub]. cbn [inFormat] in Hx, Hy.
    set (ez := Z.min ex ey).
    rewrite <- (value_aligned sx mx ex ez), <- (value_aligned sy my ey ez) in * by lia.
    rewrite <- Z.mul_sub_distr_r in *.
    apply normalize_exact; lia.
Qed.

(** [SFcompare] compares the values. *)
Lemma mant_pos (m : positive) (e : Z) : -1074 <= e -> 0 < Zpos m * 2 ^ (e + 1074).
Proof. intros. assert (0 < 2 ^ (e + 1074)) by (apply pow2_pos; lia). lia. Qed.

(** Among canonical numbers the one with the smaller exponent is smaller. *)
Lemma canonical_lt (s1 s2 : bool) (m1 m2 : positive) (e1 e2 : Z) :
  inFormat (S754_finite s1 m1 e1) -> inFormat (S754_finite s2 m2 e2) -> e1 < e2 ->
  Zpos m1 * 2 ^ (e1 + 1074) < Zpos m2 * 2 ^ (e2 + 1074).
Proof.
  cbn [inFormat]. intros [H1 C1] [H2 C2] Hlt. rewrite fexp64_eq in C1, C2.
  destruct (digits2_bounds m1) as [_ Hhi]. destruct (digits2_bounds m2) as [Hlo _].
  set (d1 := Zpos (digits2_pos m1)) in *. set (d2 := Zpos (digits2_pos m2)) in *.
  assert (Hd1 : 0 < d1) by (subst d1; lia).
  assert (Hd2 : 0 < d2) by (subst d2; lia).
  assert (Hd : d1 + e1 <= d2 - 1 + e2) by lia.
  assert (Ha : Zpos m1 * 2 ^ (e1 + 1074) < 2 ^ (d1 + (e1 + 1074))).
  { rewrite (pow2_split d1 (e1 + 1074)) by lia.
    assert (0 < 2 ^ (e1 + 1074)) by (apply pow2_pos; lia). nia. }
  assert (Hb : 2 ^ ((d2 - 1) + (e2 + 1074)) <= Zpos m2 * 2 ^ (e2 + 1074)).
  { rewrite (pow2_split (d2 - 1) (e2 + 1074)) by lia.
    assert (0 < 2 ^ (e2 + 1074)) by (apply pow2_pos; lia). nia. }
  assert (Hc : 2 ^ (d1 + (e1 + 1074)) <= 2 ^ ((d2 - 1) + (e2 + 1074))) by (apply pow2_le; lia).
  lia.
Qed.

Lemma SFcompare_value (x y : spec_float) :
  inFormat x -> inFormat y -> isFinite x = true -> isFinite y = true ->
  SFcompare x y = Some (SFvalue x ?= SFvalue y).
Proof.
  intros Hx Hy Fx Fy.
  destruct x as [sx|sx| |sx mx ex]; try discriminate;
  destruct y as [sy|sy| |sy my ey]; try discriminate; cbn [SFcompare SFvalue].
  - reflexivity.
  - pose proof (mant_pos my ey ltac:(cbn in Hy; lia)).
    f_equal. symmetry. destruct sy; cbn [cond_Zopp]; [apply Z.compare_gt_iff | apply Z.compare_lt_iff]; lia.
  - pose proof (mant_pos mx ex ltac:(cbn in Hx; lia)).
    f_equal. symmetry. destruct sx; cbn [cond_Zopp]; [apply Z.compare_lt_iff | apply Z.compare_gt_iff]; lia.
  - pose proof (mant_pos mx ex ltac:(cbn in Hx; lia)) as Px.
    pose proof (mant_pos my ey ltac:(cbn in Hy; lia)) as Py.
    f_equal. symmetry.
    destruct sx, sy; cbn [cond_Zopp].
    + (* both negative *)
      destruct (Z.compare_spec ex ey) as [E|L|G].
      * subst ey. change (Pos.compare_cont Eq mx my) with (mx ?= my)%positive.
        rewrite Z.compare_opp.
        rewrite <- Zmult_compare_compat_r by (apply Z.lt_gt, pow2_pos; cbn in Hx; lia).
        apply Pos.compare_antisym.
      * apply Z.compare_gt_iff. pose proof (canonical_lt _ _ _ _ _ _ Hx Hy L). lia.
      * apply Z.compare_lt_iff. pose proof (canonical_lt _ _ _ _ _ _ Hy Hx G). lia.
    + apply Z.compare_lt_iff. lia.
    + apply Z.compare_gt_iff. lia.
    + destruct (Z.compare_spec ex ey) as [E|L|G].
      * subst ey. change (Pos.compare_cont Eq mx my) with (mx ?= my)%positive.
        rewrite <- Zmult_compare_compat_r by (apply Z.lt_gt, pow2_pos; cbn in Hx; lia).
        reflexivity.
      * apply Z.compare_lt_iff. pose proof (canonical_lt _ _ _ _ _ _ Hx Hy L). lia.
      * apply Z.compare_gt_iff. pose proof (canonical_lt _ _ _ _ _ _ Hy Hx G). lia.
Qed.

(** Division by 2. *)
Lemma div_eucl_pair (a b : Z) : Z.div_eucl a b = (a / b, a mod b).
Proof. unfold Z.div, Z.modulo. destruct (Z.div_eucl a b); reflexivity. Qed.

Lemma inFormat_digits (s : bool) (m : positive) (e : Z) :
  inFormat (S754_finite s m e) -> Zpos (digits2_pos m) <= 53.
Proof. cbn [inFormat]. rewrite fexp64_eq. lia. Qed.

(** Halving a number whose exponent is above the smallest one is exact before
   rounding. *)
Lemma div2_core_normal (mx : positive) (ex : Z) :
  inFormat (S754_finite false mx ex) -> -1073 <= ex ->
  exists q e',
    SFdiv_core_binary 53 1024 (Zpos mx) ex (Zpos 4503599627370496) (-51) = (Zpos q, e', loc_Exact)
    /\ -1074 <= e' <= 971
    /\ 2 * (Zpos q * 2 ^ (e' + 1074)) = Zpos mx * 2 ^ (ex + 1074).
Proof.
  intros Hx Hex. pose proof (inFormat_digits _ _ _ Hx) as Hd.
  cbn [inFormat] in Hx. destruct Hx as [Hr _].
  unfold SFdiv_core_binary.
  change (Zdigits2 (Zpos 4503599627370496)) with 53. cbn [Zdigits2].
  set (d1 := Zpos (digits2_pos mx)) in *.
  assert (Hd1 : 0 < d1) by (subst d1; lia).
  rewrite fexp64_eq.
  set (e' := Z.min (Z.max (d1 + ex - (53 + -51) - 53) (-1074)) (ex - -51)).
  assert (He' : e' = Z.max (d1 + ex - 55) (-1074)) by lia.
  assert (Hs : 52 <= ex - -51 - e') by lia.
  destruct (ex - -51 - e') as [|ps|ps] eqn:Es; try lia.
  rewrite Z.shiftl_mul_pow2 by lia.
  rewrite div_eucl_pair.
  assert (Hpow : 2 ^ Zpos ps = 2 ^ (Zpos ps - 52) * 2 ^ 52).
  { rewrite <- pow2_split by lia. f_equal. lia. }
  rewrite Hpow, Z.mul_assoc.
  change (2 ^ 52) with (Zpos 4503599627370496).
  rewrite Z.div_mul, Z.mod_mul by lia.
  assert (Hq : 0 < Zpos mx * 2 ^ (Zpos ps - 52)).
  { assert (0 < 2 ^ (Zpos ps - 52)) by (apply pow2_pos; lia). lia. }
  destruct (Zpos mx * 2 ^ (Zpos ps - 52)) as [|q|q] eqn:Eq; try lia.
  exists q, e'. split; [reflexivity|]. split; [lia|].
  rewrite <- Eq.
  replace (ex + 1074) with ((Zpos ps - 52) + (e' + 1074) + 1) by lia.
  rewrite (Z.pow_add_r 2 ((Zpos ps - 52) + (e' + 1074)) 1), (pow2_split (Zpos ps - 52) (e' + 1074)) by lia.
  change (2 ^ 1) with 2. ring.
Qed.

Lemma div2_core_tiny (mx : positive) :
  inFormat (S754_finite false mx (-1074)) ->
  SFdiv_core_binary 53 1024 (Zpos mx) (-1074) (Zpos 4503599627370496) (-51)
  = (Zpos mx / 2, -1074, if Z.even (Zpos mx) then loc_Exact else loc_Inexact Eq).
Proof.
  intros Hx. pose proof (inFormat_digits _ _ _ Hx) as Hd.
  unfold SFdiv_core_binary.
  change (Zdigits2 (Zpos 4503599627370496)) with 53. cbn [Zdigits2].
  set (d1 := Zpos (digits2_pos mx)) in *.
  assert (Hd1 : 0 < d1) by (subst d1; lia).
  rewrite fexp64_eq.
  replace (Z.min (Z.max (d1 + -1074 - (53 + -51) - 53) (-1074)) (-1074 - -51)) with (-1074) by lia.
  change (-1074 - -51 - -1074) with 51.
  rewrite Z.shiftl_mul_pow2 by lia.
  rewrite div_eucl_pair.
  change (Zpos 4503599627370496) with (2 * 2 ^ 51).
  rewrite Z.div_mul_cancel_r, Z.mul_mod_distr_r by lia.
  rewrite Zmod_odd, <- Z.negb_even.
  destruct (Z.even (Zpos mx)); reflexivity.
Qed.

Lemma shr_fexp_noshift_loc (m e : Z) (l : location) :
  fexp64 (Zdigits2 m + e) - e <= 0 ->
  shr_fexp 53 1024 m e l = (shr_record_of_loc m l, e).
Proof.
  intros H. unfold shr_fexp, shr.
  destruct (fexp64 (Zdigits2 m + e) - e); try reflexivity. lia.
Qed.

Lemma loc_of_shr_record_of_loc (m : Z) (l : location) :
  loc_of_shr_record (shr_record_of_loc m l) = l.
Proof. destruct l as [|[ | | ]]; reflexivity. Qed.

Lemma shr_m_of_loc (m : Z) (l : location) : shr_m (shr_record_of_loc m l) = m.
Proof. destruct l as [|[ | | ]]; reflexivity. Qed.

Lemma Zdigits2_small (q : Z) : 0 <= q < 2 ^ 53 -> 0 <= Zdigits2 q <= 53.
Proof.
  intros H. destruct q as [|p|p]; cbn [Zdigits2]; try lia.
  split; [lia|]. apply digits2_le; lia.
Qed.

(** Rounding at the smallest exponent: no shift, only the last place moves. *)
Lemma round_aux_tiny (sx : bool) (q : Z) (l : location) :
  0 <= q < 2 ^ 52 -> 0 <= round_nearest_even q l <= q + 1 ->
  binary_round_aux 53 1024 sx q (-1074) l =
  match round_nearest_even q l with
  | Z0 => S754_zero sx
  | Zpos m => S754_finite sx m (-1074)
  | Zneg _ => S754_nan
  end.
Proof.
  intros Hq Hr. unfold binary_round_aux.
  rewrite shr_fexp_noshift_loc.
  2:{ pose proof (Zdigits2_small q ltac:(change (2 ^ 53) with (2 * 2 ^ 52); lia)).
      rewrite fexp64_eq. lia. }
  rewrite loc_of_shr_record_of_loc, shr_m_of_loc.
  rewrite shr_fexp_noshift.
  2:{ pose proof (Zdigits2_small (round_nearest_even q l)
                    ltac:(change (2 ^ 53) with (2 * 2 ^ 52); lia)).
      rewrite fexp64_eq. lia. }
  cbn [shr_m]. destruct (round_nearest_even q l); reflexivity.
Qed.

Lemma xorb_false_r' (b : bool) : xorb b false = b.
Proof. destruct b; reflexivity. Qed.

(** The half of a finite number is finite, and twice it is within 2^(k-53)
    of the number when the half is below 2^k. *)
Lemma SFdiv2_bound (x : spec_float) (k : Z) :
  inFormat x -> isFinite x = true -> -1020 <= k <= 1000 ->
  Z.abs (SFvalue x) < 2 ^ (k + 1075) ->
  isFinite (SF64div x two64) = true
  /\ Z.abs (2 * SFvalue (SF64div x two64) - SFvalue x) <= 2 ^ (k + 1021).
Proof.
  intros Hx Fx Hk Hlt.
  assert (Hp : 2 <= 2 ^ (k + 1021)).
  { change 2 with (2 ^ 1) at 1. apply pow2_le. lia. }
  destruct x as [sx|sx| |sx mx ex]; try discriminate.
  - cbn. lia.
  - unfold SF64div, two64. cbn [SFdiv]. rewrite xorb_false_r'.
    change (SFdiv_core_binary prec emax) with (SFdiv_core_binary 53 1024).
    change (binary_round_aux prec emax) with (binary_round_aux 53 1024).
    assert (Hx' : inFormat (S754_finite false mx ex)) by exact Hx.
    assert (Hv : Z.abs (SFvalue (S754_finite sx mx ex)) = Zpos mx * 2 ^ (ex + 1074)).
    { pose proof (mant_pos mx ex ltac:(cbn in Hx; lia)).
      cbn [SFvalue]. destruct sx; cbn [cond_Zopp]; lia. }
    rewrite Hv in Hlt.
    destruct (Z_le_gt_dec (-1073) ex) as [Hn|Ht].
    + destruct (div2_core_normal mx ex Hx' Hn) as (q & e' & -> & He' & Hq).
      replace (k + 1075) with (Z.succ (k + 1074)) in Hlt by lia.
      rewrite Z.pow_succ_r in Hlt by lia.
      destruct (round_aux_exact sx q e' k He' Hk ltac:(lia)) as (m & e & -> & He & Herr).
      split; [reflexivity|].
      replace (k + 1021) with (Z.succ (k + 1020)) by lia. rewrite Z.pow_succ_r by lia.
      cbn [SFvalue]. destruct sx; cbn [cond_Zopp]; lia.
    + assert (ex = -1074) by (cbn in Hx; lia). subst ex.
      rewrite (div2_core_tiny mx Hx').
      pose proof (inFormat_digits _ _ _ Hx') as Hd.
      destruct (digits2_bounds mx) as [_ Hhi].
      assert (Hmx : Zpos mx < 2 ^ 53).
      { assert (2 ^ Zpos (digits2_pos mx) <= 2 ^ 53) by (apply pow2_le; lia). lia. }
      change (2 ^ 53) with (2 * 2 ^ 52) in Hmx.
      pose proof (Z.div_mod (Zpos mx) 2 ltac:(lia)) as Hdm.
      rewrite Zmod_odd, <- Z.negb_even in Hdm.
      assert (Hq0 : 0 <= Zpos mx / 2) by (apply Z.div_pos; lia).
      set (q := Zpos mx / 2) in *.
      set (l := if Z.even (Zpos mx) then loc_Exact else loc_Inexact Eq).
      assert (Hr : 0 <= round_nearest_even q l <= q + 1
                   /\ Z.abs (2 * round_nearest_even q l - Zpos mx) <= 1).
      { subst l. destruct (Z.even (Zpos mx)); cbn [negb round_nearest_even] in *.
        - lia.
        - destruct (Z.even q); lia. }
      destruct Hr as [Hr1 Hr2].
      assert (Hqb : q < 2 ^ 52) by (destruct (Z.even (Zpos mx)); cbn [negb] in Hdm; lia).
      rewrite round_aux_tiny by lia.
      change (-1074 + 1074) with 0 in *. rewrite Z.pow_0_r in *.
      destruct (round_nearest_even q l) as [|m|m]; try lia.
      * split; [reflexivity|]. cbn [SFvalue]. destruct sx; cbn [cond_Zopp]; lia.
      * split; [reflexivity|]. cbn [SFvalue]. change (-1074 + 1074) with 0. rewrite Z.pow_0_r.
        destruct sx; cbn [cond_Zopp]; lia.
Qed.


(** The same facts for primitive floats, through their specification in
    [FloatAxioms]. *)
Lemma prim_inFormat (x : float) : inFormat (Prim2SF x).
Proof. apply valid_inFormat, Prim2SF_valid. Qed.

Lemma leb_scaled (x y : float) :
  finiteF x = true -> finiteF y = true -> (x <=? y)%float = true -> scaled x <= scaled y.
Proof.
  unfold finiteF, scaled. intros Fx Fy H. rewrite leb_spec in H. unfold SFleb in H.
  rewrite (SFcompare_value _ _ (prim_inFormat x) (prim_inFormat y) Fx Fy) in H.
  destruct (Z.compare_spec (SFvalue (Prim2SF x)) (SFvalue (Prim2SF y))); try discriminate; lia.
Qed.

Lemma ltb_scaled (x y : float) :
  finiteF x = true -> finiteF y = true -> scaled x < scaled y -> (x <? y)%float = true.
Proof.
  unfold finiteF, scaled. intros Fx Fy H. rewrite ltb_spec. unfold SFltb.
  rewrite (SFcompare_value _ _ (prim_inFormat x) (prim_inFormat y) Fx Fy).
  apply Z.compare_lt_iff in H. rewrite H. reflexivity.
Qed.

(** A number between two finite numbers is finite. *)
Lemma between_fin (lo x hi : float) :
  finiteF lo = true -> finiteF hi = true ->
  (lo <=? x)%float = true -> (x <=? hi)%float = true -> finiteF x = true.
Proof.
  unfold finiteF. intros Flo Fhi H1 H2. rewrite leb_spec in H1, H2. unfold SFleb in *.
  destruct (Prim2SF x) as [s|s| |s m e]; try reflexivity.
  - destruct (Prim2SF lo) as [s1|s1| |s1 m1 e1]; try discriminate;
    destruct (Prim2SF hi) as [s2|s2| |s2 m2 e2]; try discriminate;
    destruct s; cbn in H1, H2; discriminate.
  - destruct (Prim2SF lo) as [s1|s1| |s1 m1 e1]; discriminate.
Qed.

Lemma add_bound (x y : float) (k : Z) :
  finiteF x = true -> finiteF y = true -> -1020 <= k <= 1000 ->
  Z.abs (scaled x + scaled y) < 2 ^ (k + 1074) ->
  finiteF (x + y) = true /\ Z.abs (scaled (x + y) - (scaled x + scaled y)) <= 2 ^ (k + 1020).
Proof.
  unfold finiteF, scaled. intros. rewrite add_spec.
  apply SFadd_bound; auto using prim_inFormat.
Qed.

Lemma sub_bound (x y : float) (k : Z) :
  finiteF x = true -> finiteF y = true -> -1020 <= k <= 1000 ->
  Z.abs (scaled x - scaled y) < 2 ^ (k + 1074) ->
  finiteF (x - y) = true /\ Z.abs (scaled (x - y) - (scaled x - scaled y)) <= 2 ^ (k + 1020).
Proof.
  unfold finiteF, scaled. intros. rewrite sub_spec.
  apply SFsub_bound; auto using prim_inFormat.
Qed.

Lemma half_bound (x : float) (k : Z) :
  finiteF x = true -> -1020 <= k <= 1000 ->
  Z.abs (scaled x) < 2 ^ (k + 1075) ->
  finiteF (x / 2) = true /\ Z.abs (2 * scaled (x / 2) - scaled x) <= 2 ^ (k + 1021).
Proof.
  unfold finiteF, scaled. intros. rewrite div_spec.
  change (Prim2SF 2) with two64.
  apply SFdiv2_bound; auto using prim_inFormat.
Qed.

(** The constants of the script, and the powers of two of the bounds, in
    units of 2^-55. *)
Lemma unit1019_pos : 0 < unit1019.
Proof. reflexivity. Qed.

Lemma scaled_90 : scaled 90 = 3242591731706757120 * unit1019. Proof. vm_compute. reflexivity. Qed.
Lemma scaled_m90 : scaled (-90) = - (3242591731706757120 * unit1019). Proof. vm_compute. reflexivity. Qed.
Lemma scaled_015 : scaled 0.15 = 5404319552844595 * unit1019. Proof. vm_compute. reflexivity. Qed.
Lemma pow_1027 : 2 ^ (7 + 1020) = 256 * unit1019. Proof. vm_compute. reflexivity. Qed.
Lemma pow_1028 : 2 ^ (8 + 1020) = 512 * unit1019. Proof. vm_compute. reflexivity. Qed.
Lemma pow_1028' : 2 ^ (7 + 1021) = 512 * unit1019. Proof. vm_compute. reflexivity. Qed.
Lemma pow_1081 : 2 ^ (7 + 1074) = 4611686018427387904 * unit1019. Proof. vm_compute. reflexivity. Qed.
Lemma pow_1082 : 2 ^ (8 + 1074) = 9223372036854775808 * unit1019. Proof. vm_compute. reflexivity. Qed.
Lemma pow_1082' : 2 ^ (7 + 1075) = 9223372036854775808 * unit1019. Proof. vm_compute. reflexivity. Qed.

(** A valid latitude is finite and at most 90 in absolute value. *)
Lemma latOK_scaled (x : float) : latOK x -> finiteF x = true /\ Z.abs (scaled x) <= 3242591731706757120 * unit1019.
Proof.
  intros [H1 H2].
  assert (F : finiteF x = true) by (apply (between_fin (-90) x 90); auto).
  split; [exact F|].
  apply leb_scaled in H1; [|reflexivity|exact F]. apply leb_scaled in H2; [|exact F|reflexivity].
  rewrite scaled_m90 in H1. rewrite scaled_90 in H2. lia.
Qed.

(** The midpoint of two valid latitudes: twice it is the sum, up to 2^-45. *)
Lemma mid_bound (s e : float) :
  latOK s -> latOK e ->
  finiteF ((s + e) / 2) = true /\ Z.abs (2 * scaled ((s + e) / 2) - (scaled s + scaled e)) <= 1024 * unit1019.
Proof.
  intros Hs He. pose proof unit1019_pos.
  destruct (latOK_scaled s Hs) as [Fs Bs]. destruct (latOK_scaled e He) as [Fe Be].
  destruct (add_bound s e 8 Fs Fe ltac:(lia)) as [Fse Bse].
  { rewrite pow_1082. lia. }
  rewrite pow_1028 in Bse.
  destruct (half_bound (s + e) 7 Fse ltac:(lia)) as [Fm Bm].
  { rewrite pow_1082'. lia. }
  rewrite pow_1028' in Bm.
  split; [exact Fm|]. lia.
Qed.

(** Adding and subtracting 0.15 moves a latitude by 0.15, up to 2^-47. *)
Lemma offsets_bound (m : float) :
  finiteF m = true -> Z.abs (scaled m) <= 3242591731706757120 * unit1019 + 512 * unit1019 ->
  finiteF (m + 0.15) = true /\ finiteF (m - 0.15) = true
  /\ scaled m + 5404319552844595 * unit1019 - 256 * unit1019 <= scaled (m + 0.15)
  /\ scaled (m - 0.15) <= scaled m - 5404319552844595 * unit1019 + 256 * unit1019.
Proof.
  intros Fm Bm. pose proof unit1019_pos.
  destruct (add_bound m 0.15 7 Fm ltac:(reflexivity) ltac:(lia)) as [Fa Ba].
  { rewrite pow_1081, scaled_015. lia. }
  destruct (sub_bound m 0.15 7 Fm ltac:(reflexivity) ltac:(lia)) as [Fb Bb].
  { rewrite pow_1081, scaled_015. lia. }
  rewrite pow_1027, scaled_015 in Ba, Bb.
  repeat split; auto; lia.
Qed.

(** The midpoint of a latitude with itself, moved by 0.15 either way, is on
    either side of the latitude. *)
Lemma lat_same_point (s : float) :
  latOK s ->
  ((s + s) / 2 - 0.15 <? s)%float = true /\ (s <? (s + s) / 2 + 0.15)%float = true.
Proof.
  intros Hs. pose proof unit1019_pos.
  destruct (latOK_scaled s Hs) as [Fs Bs].
  destruct (mid_bound s s Hs Hs) as [Fm Bm].
  destruct (offsets_bound ((s + s) / 2) Fm ltac:(lia)) as (Fa & Fb & Ba & Bb).
  split; apply ltb_scaled; auto; lia.
Qed.



Lemma scaled_03 : scaled 0.3 = 10808639105689190 * unit1019.
Proof. vm_compute. reflexivity. Qed.

Lemma offsets_close (m : float) :
  finiteF m = true ->
  Z.abs (scaled m) <= 3242591731706757120 * unit1019 + 512 * unit1019 ->
  finiteF (m + 0.15) = true /\ finiteF (m - 0.15) = true
  /\ Z.abs (scaled (m + 0.15) - (scaled m + 5404319552844595 * unit1019)) <= 256 * unit1019
  /\ Z.abs (scaled (m - 0.15) - (scaled m - 5404319552844595 * unit1019)) <= 256 * unit1019.
Proof.
  intros Fm Bm. pose proof unit1019_pos.
  destruct (add_bound m 0.15 7 Fm ltac:(reflexivity) ltac:(lia)) as [Fa Ba].
  { rewrite pow_1081, scaled_015. lia. }
  destruct (sub_bound m 0.15 7 Fm ltac:(reflexivity) ltac:(lia)) as [Fb Bb].
  { rewrite pow_1081, scaled_015. lia. }
  rewrite pow_1027, scaled_015 in Ba, Bb.
  repeat split; auto.
Qed.

(** The two interior latitudes of a midpoint between valid latitudes:
    apart, and 0.3 apart up to rounding. *)
Lemma lat_offsets (s e : float) :
  latOK s -> latOK e ->
  ((s + e) / 2 - 0.15 <? (s + e) / 2 + 0.15)%float = true
  /\ Z.abs (scaled ((s + e) / 2 + 0.15) - scaled ((s + e) / 2 - 0.15) - scaled 0.3)
     <= 2 ^ 1028.
Proof.
  intros Hs He. pose proof unit1019_pos.
  destruct (latOK_scaled s Hs) as [Fs Bs]. destruct (latOK_scaled e He) as [Fe Be].
  destruct (mid_bound s e Hs He) as [Fm Bm].
  destruct (offsets_close ((s + e) / 2) Fm ltac:(lia)) as (Fa & Fb & Ba & Bb).
  split.
  - apply ltb_scaled; auto. lia.
  - rewrite scaled_03. change (2 ^ 1028) with (2 ^ (8 + 1020)). rewrite pow_1028. lia.
Qed.

(** [<?] is irreflexive, also on NaN. *)
Lemma ltb_irrefl (x : float) : (x <? x)%float = false.
Proof.
  rewrite ltb_spec. unfold SFltb.
  destruct (Prim2SF x) as [s|s| |s m e]; cbn [SFcompare].
  - reflexivity.
  - destruct s; reflexivity.
  - reflexivity.
  - rewrite Z.compare_refl. change (Pos.compare_cont Eq m m) with (m ?= m)%positive.
    rewrite Pos.compare_refl. destruct s; reflexivity.
Qed.

Lemma ltb_neq (x y : float) : (x <? y)%float = true -> x <> y.
Proof. intros H E. subst y. rewrite ltb_irrefl in H. discriminate. Qed.


End B64Facts.

(** ** The page: clearing and showing *)

(** [removeLayer], and a sequence of them, field by field. *)
Lemma removeLayer_eq h st :
  L.removeLayer h st =
  set_leaflet (objects st) (nextId st) (onMap st ∖ {[h]}) (popupAfter {[h]} st) st.
Proof.
  unfold L.removeLayer, popupAfter. destruct st as [o n m p v a b s e hz r al f]; cbn.
  destruct (decide (h ∈ m)) as [Hin|Hout].
  - unfold set_leaflet; cbn. f_equal. destruct p as [k|]; [|done].
    destruct (decide (Some k = Some h)) as [E|E].
    + inversion E; subst. rewrite decide_True; [done | set_solver].
    + rewrite decide_False; [done | ]. intros [H1 _]. apply E. f_equal. set_solver.
  - unfold set_leaflet; cbn. f_equal.
    + set_solver.
    + destruct p as [k|]; [|done]. rewrite decide_False; [done|]. set_solver.
Qed.

Lemma removeAll_eq l st :
  removeAll l st =
  set_leaflet (objects st) (nextId st) (onMap st ∖ list_to_set l) (popupAfter (list_to_set l) st) st.
Proof.
  revert st. induction l as [|h l IH]; intros st.
  - cbn. destruct st as [o n m p v a b s e hz r al f]; unfold set_leaflet, popupAfter; cbn.
    f_equal; [set_solver|]. destruct p; [|done]. rewrite decide_False; [done | set_solver].
  - unfold removeAll in *. cbn [foldl]. rewrite IH, removeLayer_eq.
    destruct st as [o n m p v a b s e hz r al f]; unfold set_leaflet, popupAfter; cbn.
    f_equal; [set_solver|].
    destruct p as [k|]; [|done].
    destruct (decide (k ∈ ({[h]} : gset Handle) ∧ k ∈ m)) as [[H1 H2]|H1].
    + rewrite decide_True; [done|set_solver].
    + destruct (decide (k ∈ (list_to_set l : gset Handle) ∧ k ∈ m ∖ {[h]})) as [H2|H2].
      * rewrite decide_True; [done|set_solver].
      * rewrite decide_False; [done|set_solver].
Qed.

(** [clearMap] removes what the variables hold, and empties the list of
    hazard markers. *)
Lemma removeIfSet_eq v st : removeIfSet v st = removeAll (option_list v) st.
Proof. destruct v; reflexivity. Qed.

Lemma removeAll_app l k st : removeAll (l ++ k) st = removeAll k (removeAll l st).
Proof. unfold removeAll. apply foldl_app. Qed.

Lemma heldList_tracked st : list_to_set (heldList st) = tracked st.
Proof.
  unfold heldList, tracked, held. destruct st as [o n m p v a b s e hz r al f]; cbn.
  destruct a, b, s, e; cbn; set_solver.
Qed.


Lemma removeAll_globals l st :
  routeA (removeAll l st) = routeA st ∧ routeB (removeAll l st) = routeB st ∧
  startMarker (removeAll l st) = startMarker st ∧ endMarker (removeAll l st) = endMarker st ∧
  hazardMarkers (removeAll l st) = hazardMarkers st.
Proof. rewrite removeAll_eq. done. Qed.

Lemma clearMap_removeAll st : clearMap st = set_hazardMarkers [] (removeAll (heldList st) st).
Proof.
  unfold clearMap, heldList. rewrite !removeIfSet_eq. fold (removeAll).
  set (s1 := removeAll (option_list (routeA st)) st).
  destruct (removeAll_globals (option_list (routeA st)) st) as (_ & B1 & S1 & E1 & H1).
  fold s1 in B1, S1, E1, H1. rewrite B1.
  set (s2 := removeAll (option_list (routeB st)) s1).
  destruct (removeAll_globals (option_list (routeB st)) s1) as (_ & _ & S2 & E2 & H2).
  fold s2 in S2, E2, H2. rewrite S2, S1.
  set (s3 := removeAll (option_list (startMarker st)) s2).
  destruct (removeAll_globals (option_list (startMarker st)) s2) as (_ & _ & _ & E3 & H3).
  fold s3 in E3, H3. rewrite E3, E2, E1.
  set (s4 := removeAll (option_list (endMarker st)) s3).
  destruct (removeAll_globals (option_list (endMarker st)) s3) as (_ & _ & _ & _ & H4).
  fold s4 in H4.
  change (foldl (λ s marker, L.removeLayer marker s) s4 (hazardMarkers s4))
    with (removeAll (hazardMarkers s4) s4).
  rewrite H4, H3, H2, H1.
  subst s4 s3 s2 s1. rewrite <- !removeAll_app. reflexivity.
Qed.

Lemma clearMap_eq st :
  clearMap st =
  set_hazardMarkers []
    (set_leaflet (objects st) (nextId st) (onMap st ∖ tracked st) (popupAfter (tracked st) st) st).
Proof. rewrite clearMap_removeAll, removeAll_eq, heldList_tracked. reflexivity. Qed.

(** With nothing held on the map, [clearMap] changes nothing. *)
Lemma clearMap_idle st :
  tracked st ## onMap st → hazardMarkers st = [] → clearMap st = st.
Proof.
  intros Hd Hh. rewrite clearMap_eq.
  destruct st as [o n m p v a b s e hz r al f]; cbn in *. subst hz.
  unfold set_hazardMarkers, set_leaflet, popupAfter; cbn. f_equal.
  - set_solver.
  - destruct p as [k|]; [|done]. rewrite decide_False; [done|]. set_solver.
Qed.

Lemma clearMap_twice st : clearMap (clearMap st) = clearMap st.
Proof.
  apply clearMap_idle.
  - rewrite clearMap_eq. unfold tracked; cbn. set_solver.
  - rewrite clearMap_eq. reflexivity.
Qed.

(** What [shown] puts on the map, and what it leaves as it was. *)
Lemma shown_onMap p q st : onMap (shown p q st) = list_to_set (created st) ∪ onMap st.
Proof. unfold shown, created; cbn. set_solver. Qed.

Lemma shown_old p q st h :
  (h < nextId st)%positive → objects (shown p q st) !! h = objects st !! h.
Proof.
  intros Hh. unfold shown; cbn [objects].
  rewrite !lookup_insert_ne by lia. reflexivity.
Qed.

Lemma shown_new p q st h : h ∈ created st → isOverlayAt (shown p q st) h = true.
Proof.
  unfold created, isOverlayAt, shown; cbn [objects]. intros Hh.
  repeat (apply elem_of_cons in Hh; destruct Hh as [->|Hh]);
    [ .. | by apply elem_of_nil in Hh ];
    repeat first [ rewrite lookup_insert_eq; reflexivity | rewrite lookup_insert_ne by lia ].
Qed.

Lemma shown_overlays p q st :
  below st → overlays (shown p q st) = list_to_set (created st) ∪ overlays st.
Proof.
  intros Hb. apply set_eq. intros h. unfold overlays.
  rewrite elem_of_union, !elem_of_filter, shown_onMap, elem_of_union.
  split.
  - intros [Ho [Hn|Hm]]; [by left|]. right. split; [|done].
    unfold isOverlayAt in *. rewrite shown_old in Ho; [done|]. by apply Hb.
  - intros [Hn|[Ho Hm]].
    + split; [apply shown_new; set_solver | by left].
    + destruct (decide (h ∈ (list_to_set (created st) : gset Handle))) as [Hn|Hn].
      * split; [apply shown_new; set_solver | by left].
      * split; [|by right]. unfold isOverlayAt in *. rewrite shown_old; [done|]. by apply Hb.
Qed.

Lemma shown_below p q st : below st → below (shown p q st).
Proof.
  intros Hb h. rewrite shown_onMap. unfold created, shown; cbn [nextId].
  intros [Hh|Hh]%elem_of_union.
  - apply elem_of_list_to_set in Hh.
    repeat (apply elem_of_cons in Hh; destruct Hh as [->|Hh]); try lia.
    by apply elem_of_nil in Hh.
  - specialize (Hb h Hh). lia.
Qed.

(** [showRoutes] computes [shown]. *)
Lemma showRoutes_shown start end_ st : showRoutes start end_ st = shown start end_ st.
Proof.
  destruct st as [o n m p v a b s e hz r al f].
  cbv [showRoutes shown L.create L.addTo L.bindPopup L.openPopup L.onClick set_leaflet set_view
    set_routeA set_routeB set_startMarker set_endMarker set_hazardMarkers set_result
    addHazards simulatedHazards type reason
    objects nextId onMap popupOpen view routeA routeB startMarker endMarker hazardMarkers result alerts fetched].
  rewrite decide_True by set_solver.
  f_equal.
  - repeat first [ rewrite alter_insert_eq | rewrite alter_insert_ne by lia ].
    reflexivity.
  - rewrite <- !app_assoc. reflexivity.
Qed.


(** The two ways [findRoute] begins. *)
Lemma falsy_false (s : string) : s ≠ EmptyString → Js.falsy s = false.
Proof. destruct s; [congruence | reflexivity]. Qed.

Lemma findRoute_invalid sv ev st :
  Js.trim sv = EmptyString ∨ Js.trim ev = EmptyString →
  findRoute sv ev st = (None, alert enterBoth st).
Proof.
  intros H. unfold findRoute. destruct H as [-> | ->]; cbn [Js.falsy orb].
  - reflexivity.
  - rewrite orb_true_r. reflexivity.
Qed.

Lemma findRoute_valid sv ev st :
  Js.trim sv ≠ EmptyString → Js.trim ev ≠ EmptyString →
  findRoute sv ev st =
  (Some (AwaitStart (Js.trim ev)), fetch (geocodeUrl (Js.trim sv)) (clearMap st)).
Proof.
  intros Hs He. unfold findRoute. rewrite (falsy_false _ Hs), (falsy_false _ He). reflexivity.
Qed.

(** A search with two names comes to [outcome]. *)
Lemma search_outcome sv ev r1 r2 st :
  Js.trim sv ≠ EmptyString → Js.trim ev ≠ EmptyString →
  search sv ev r1 r2 st = outcome sv ev r1 r2 st.
Proof.
  intros Hs He. unfold search, outcome. rewrite findRoute_valid by assumption.
  cbn [resume]. destruct (geocodeResult r1) as [p|msg]; [|reflexivity].
  cbn [resume snd]. destruct (geocodeResult r2) as [q|msg]; reflexivity.
Qed.

(** Consistency is kept by a search that nothing interrupts. *)
Lemma clearMap_cleared st : consistent st → cleared (clearMap st).
Proof.
  intros [Hb Ho]. rewrite clearMap_eq. split; [|split].
  - intros h Hh. cbn in Hh. apply Hb. set_solver.
  - apply set_eq. intros h. split; [|set_solver].
    unfold overlays. rewrite elem_of_filter. cbn. intros [H1 H2].
    assert (h ∈ overlays st) by (unfold overlays; rewrite elem_of_filter; set_solver).
    set_solver.
  - reflexivity.
Qed.

Lemma cleared_consistent st : cleared st → consistent st.
Proof. intros (Hb & Ho & _). split; [exact Hb|]. rewrite Ho. set_solver. Qed.

Lemma shown_session p q st :
  cleared st →
  overlays (shown p q st) = list_to_set (created st)
  ∧ tracked (shown p q st) = list_to_set (created st)
  ∧ below (shown p q st).
Proof.
  intros (Hb & Ho & Hh). split; [|split].
  - rewrite shown_overlays, Ho by assumption. set_solver.
  - unfold tracked, shown, created, held. cbn. rewrite Hh. cbn. set_solver.
  - by apply shown_below.
Qed.

Lemma consistent_outcome sv ev r1 r2 st : consistent st → consistent (outcome sv ev r1 r2 st).
Proof.
  intros Hwf. pose proof (clearMap_cleared st Hwf) as Hc. unfold outcome.
  destruct (geocodeResult r1) as [p|msg]; [|by apply cleared_consistent].
  destruct (geocodeResult r2) as [q|msg]; [|by apply cleared_consistent].
  rewrite showRoutes_shown.
  destruct (shown_session p q (fetch (geocodeUrl (Js.trim ev))
              (fetch (geocodeUrl (Js.trim sv)) (clearMap st))) Hc) as (H1 & H2 & H3).
  split; [exact H3|]. rewrite H1, H2. done.
Qed.

Lemma consistent_search sv ev r1 r2 st : consistent st → consistent (search sv ev r1 r2 st).
Proof.
  intros Hwf.
  destruct (decide (Js.trim sv = EmptyString ∨ Js.trim ev = EmptyString)) as [Hi|Hv].
  - unfold search. rewrite findRoute_invalid by assumption. exact Hwf.
  - rewrite search_outcome by tauto. by apply consistent_outcome.
Qed.

Lemma consistent_initial html : consistent (initial html).
Proof.
  split.
  - intros h Hh. cbn in Hh. apply elem_of_singleton in Hh. subst h. cbn. lia.
  - intros h Hh. unfold overlays in Hh. apply elem_of_filter in Hh. destruct Hh as [H1 H2].
    cbn in H2. apply elem_of_singleton in H2. subst h. vm_compute in H1. discriminate.
Qed.

(** The seven new layers, one by one. *)
Lemma created_cases (st : Page) (h : Handle) (P : Handle → Prop) :
  h ∈ created st →
  P (nextId st) → P (Pos.succ (nextId st)) → P (Pos.succ (Pos.succ (nextId st))) →
  P (Pos.succ (Pos.succ (Pos.succ (nextId st)))) →
  P (Pos.succ (Pos.succ (Pos.succ (Pos.succ (nextId st))))) →
  P (Pos.succ (Pos.succ (Pos.succ (Pos.succ (Pos.succ (nextId st)))))) →
  P (Pos.succ (Pos.succ (Pos.succ (Pos.succ (Pos.succ (Pos.succ (nextId st))))))) →
  P h.
Proof.
  unfold created. intros Hh.
  repeat (apply elem_of_cons in Hh; destruct Hh as [->|Hh]); try tauto.
  by apply elem_of_nil in Hh.
Qed.

(** Looks a handle up in the objects of [shown]. *)
Ltac lookup_shown :=
  unfold shown; cbn [objects];
  repeat first [ rewrite lookup_insert_eq | rewrite lookup_insert_ne by lia ].

Lemma shown_onMap_new p q st h : h ∈ created st → h ∈ onMap (shown p q st).
Proof. intros H. rewrite shown_onMap. apply elem_of_union_l, elem_of_list_to_set, H. Qed.

(** Membership in a list that is written out. *)
Ltac created_mem :=
  unfold created; repeat first [ apply list_elem_of_here | apply list_elem_of_further ].

(** A field value that is not empty once trimmed. *)
Ltac nonempty := let E := fresh "E" in intros E; vm_compute in E; discriminate E.

(** A layer that was on the cleared map is no overlay. *)
Lemma cleared_old p q st h :
  cleared st → h ∈ onMap (shown p q st) → h ∉ created st →
  isOverlayAt (shown p q st) h = false.
Proof.
  intros (Hb & Ho & _) Hh Hn. rewrite shown_onMap in Hh.
  apply elem_of_union in Hh. destruct Hh as [Hh|Hh]; [set_solver|].
  assert (Heq : isOverlayAt (shown p q st) h = isOverlayAt st h).
  { unfold isOverlayAt. rewrite shown_old by (by apply Hb). reflexivity. }
  rewrite Heq. destruct (isOverlayAt st h) eqn:E; [|reflexivity].
  assert (h ∈ overlays st); [|set_solver].
  unfold overlays. apply elem_of_filter. split; done.
Qed.

Lemma search_shown sv ev r1 r2 start end_ st :
  Js.trim sv ≠ EmptyString → Js.trim ev ≠ EmptyString →
  geocodeResult r1 = inl start → geocodeResult r2 = inl end_ →
  search sv ev r1 r2 st = shown start end_ (afterFetches sv ev st).
Proof.
  intros Hs He H1 H2. rewrite search_outcome by assumption.
  unfold outcome. rewrite H1, H2. apply showRoutes_shown.
Qed.

Lemma afterFetches_cleared sv ev st : consistent st → cleared (afterFetches sv ev st).
Proof. intros H. exact (clearMap_cleared st H). Qed.

(** The new handles are distinct and not below [nextId]. *)
Lemma created_NoDup st : NoDup (created st).
Proof.
  unfold created. repeat constructor; rewrite ?elem_of_cons, ?elem_of_nil; lia.
Qed.

Lemma created_fresh st h : h ∈ created st → (nextId st ≤ h)%positive.
Proof. intros Hh. apply (created_cases st h); [assumption|..]; lia. Qed.

Lemma afterFetches_frame sv ev st :
  nextId (afterFetches sv ev st) = nextId st
  ∧ onMap (afterFetches sv ev st) = onMap st ∖ tracked st.
Proof.
  change (nextId (clearMap st) = nextId st ∧ onMap (clearMap st) = onMap st ∖ tracked st).
  rewrite clearMap_eq. done.
Qed.

(** Clicks change neither the layers nor the variables. *)
Lemma foldl_set_result (st : Page) (ls : list string) :
  foldl (fun s html => set_result html s) st ls
  = set_result (default (result st) (last ls)) st.
Proof.
  revert st. induction ls as [|x ls IH]; intros st.
  - destruct st; reflexivity.
  - cbn [foldl]. rewrite IH. destruct ls as [|y ls]; [reflexivity|].
    cbn [set_result result]. rewrite !last_cons. destruct (last ls); reflexivity.
Qed.

Lemma click_frame h st :
  objects (click h st) = objects st ∧ onMap (click h st) = onMap st
  ∧ routeA (click h st) = routeA st ∧ routeB (click h st) = routeB st.
Proof.
  unfold click. destruct (decide (h ∈ onMap st)); [|done].
  destruct (objects st !! h) as [[| ? ? [?|] |? ? ? ls]|]; try done.
  rewrite foldl_set_result. done.
Qed.

Lemma clicks_frame hs st :
  let st' := foldl (fun s h => click h s) st hs in
  objects st' = objects st ∧ onMap st' = onMap st
  ∧ routeA st' = routeA st ∧ routeB st' = routeB st.
Proof.
  revert st. induction hs as [|h hs IH]; intros st; [done|].
  cbn [foldl]. destruct (IH (click h st)) as (-> & -> & -> & ->). apply click_frame.
Qed.

Lemma click_route h st c col w html :
  h ∈ onMap st → objects st !! h = Some (Polyline c col w [html]) →
  result (click h st) = html.
Proof.
  intros Hh Ho. unfold click. rewrite decide_True by assumption. rewrite Ho. reflexivity.
Qed.

(** Paths with two different latitudes are not of zero length. *)
Lemma float_lt_neq (x y : float) : (x <? y)%float = true → x ≠ y.
Proof. exact (B64Facts.ltb_neq x y). Qed.

Lemma not_zeroLength (path : list LatLng) (x y : LatLng) :
  x ∈ path → y ∈ path → fst x ≠ fst y → ¬ zeroLength path.
Proof. intros Hx Hy Hne H. apply Hne. by rewrite (H x y Hx Hy). Qed.



(** The event loop on two overlapping searches: B first, then the late
    answers for A. *)
Lemma overlapped_run st svA evA svB evB rB1 rB2 pB qB :
  Js.trim svA ≠ EmptyString → Js.trim evA ≠ EmptyString →
  Js.trim svB ≠ EmptyString → Js.trim evB ≠ EmptyString →
  geocodeResult rB1 = inl pB → geocodeResult rB2 = inl qB →
  run (overlapped svA evA svB evB rB1 rB2) (mkSystem st [])
  = mkSystem (shown pB qB (bothBegun svA evA svB evB st))
      [Some (AwaitStart (Js.trim evA)); None].
Proof.
  intros HsA HeA HsB HeB H1 H2. unfold run, overlapped. cbn [foldl step page calls].
  rewrite (findRoute_valid svA evA) by assumption. cbn [page calls app].
  rewrite (findRoute_valid svB evB) by assumption. cbn [page calls app].
  change ([Some (AwaitStart (Js.trim evA)); Some (AwaitStart (Js.trim evB))] !! 1%nat)
    with (Some (Some (AwaitStart (Js.trim evB)))).
  cbn [resume]. rewrite H1. cbn [page calls].
  change (<[1%nat:=Some (AwaitEnd pB)]>
            [Some (AwaitStart (Js.trim evA)); Some (AwaitStart (Js.trim evB))])
    with [Some (AwaitStart (Js.trim evA)); Some (AwaitEnd pB)].
  change ([Some (AwaitStart (Js.trim evA)); Some (AwaitEnd pB)] !! 1%nat)
    with (Some (Some (AwaitEnd pB))).
  cbn [resume]. rewrite H2. rewrite showRoutes_shown. reflexivity.
Qed.

Lemma stale_run sys st evA rA1 rA2 pA qA :
  sys = mkSystem st [Some (AwaitStart evA); None] →
  geocodeResult rA1 = inl pA → geocodeResult rA2 = inl qA →
  run [Reply 0 rA1; Reply 0 rA2] sys
  = mkSystem (shown pA qA (fetch (geocodeUrl evA) st)) [None; None].
Proof.
  intros -> H1 H2. unfold run. cbn [foldl step page calls].
  change ([Some (AwaitStart evA); None] !! 0%nat) with (Some (Some (AwaitStart evA))).
  cbn [resume]. rewrite H1. cbn [page calls].
  change (<[0%nat:=Some (AwaitEnd pA)]> [Some (AwaitStart evA); None])
    with [Some (AwaitEnd pA); @None Await].
  change ([Some (AwaitEnd pA); None] !! 0%nat) with (Some (Some (AwaitEnd pA))).
  cbn [resume]. rewrite H2. rewrite showRoutes_shown. reflexivity.
Qed.

Lemma run_app (l k : list Event) (sys : System) : run (l ++ k) sys = run k (run l sys).
Proof. unfold run. apply foldl_app. Qed.

(** A request changes nothing on the map. *)
Lemma cleared_fetch url st : cleared st → cleared (fetch url st).
Proof. destruct st. intros H. exact H. Qed.

Lemma below_fetch url st : below st → below (fetch url st).
Proof. destruct st. intros H. exact H. Qed.

Lemma bothBegun_cleared svA evA svB evB st :
  consistent st → cleared (bothBegun svA evA svB evB st).
Proof.
  intros H. unfold bothBegun.
  apply cleared_fetch, cleared_fetch, clearMap_cleared, cleared_consistent, cleared_fetch,
    clearMap_cleared, H.
Qed.

(** ** Any page, and a search overtaken by another *)

(** Sample coordinates are valid ones. *)
Ltac valid := vm_compute; auto.

(** [clearMap] on the overlays, the handles and the hazard list. *)
Lemma overlays_clearMap st : overlays (clearMap st) = overlays st ∖ tracked st.
Proof.
  rewrite clearMap_eq. apply set_eq. intros h. unfold overlays.
  rewrite elem_of_difference, !elem_of_filter. cbn [onMap set_hazardMarkers set_leaflet].
  rewrite elem_of_difference. unfold isOverlayAt. cbn [objects set_hazardMarkers set_leaflet].
  tauto.
Qed.

Lemma below_clearMap st : below st → below (clearMap st).
Proof.
  intros Hb h Hh. rewrite clearMap_eq in Hh. cbn in Hh. rewrite clearMap_eq. cbn.
  apply Hb. apply elem_of_difference in Hh. tauto.
Qed.

Lemma clearMap_hazards st : hazardMarkers (clearMap st) = [].
Proof. by rewrite clearMap_eq. Qed.

(** The page of a search when both requests have left, on any page. *)
Lemma afterFetches_page sv ev st :
  below st →
  below (afterFetches sv ev st) ∧ hazardMarkers (afterFetches sv ev st) = []
  ∧ overlays (afterFetches sv ev st) = overlays st ∖ tracked st.
Proof.
  intros Hb. split; [|split].
  - by apply below_fetch, below_fetch, below_clearMap.
  - exact (clearMap_hazards st).
  - exact (overlays_clearMap st).
Qed.

(** After [shown] on a page with an empty hazard list the variables hold the
    seven new layers and nothing else. *)
Lemma tracked_shown_new p q s :
  hazardMarkers s = [] → tracked (shown p q s) = list_to_set (created s).
Proof.
  intros Hh. unfold tracked, shown, created, held.
  cbn [routeA routeB startMarker endMarker hazardMarkers]. rewrite Hh. cbn [app list_to_set].
  set_solver.
Qed.

(** The new layers are none of the old ones. *)
Lemma created_not_old s h : below s → h ∈ created s → h ∉ onMap s.
Proof. intros Hb Hc Hm. apply created_fresh in Hc. apply Hb in Hm. lia. Qed.

(** A session shown on any page whose hazard list is empty. *)
Lemma shown_any p q s :
  below s → hazardMarkers s = [] →
  tracked (shown p q s) = list_to_set (created s)
  ∧ size (tracked (shown p q s)) = 7%nat
  ∧ overlays (shown p q s) = tracked (shown p q s) ∪ overlays s
  ∧ tracked (shown p q s) ## overlays s
  ∧ below (shown p q s).
Proof.
  intros Hb Hh. rewrite (tracked_shown_new p q s Hh).
  split; [reflexivity|]. split; [by rewrite size_list_to_set by apply created_NoDup|].
  split; [by apply shown_overlays|]. split; [|by apply shown_below].
  intros h Hc Ho. apply elem_of_list_to_set in Hc.
  apply (created_not_old s h Hb Hc). unfold overlays in Ho. apply elem_of_filter in Ho. tauto.
Qed.

(** One event of the loop, when it is accepted. *)
Lemma step_press sv ev sys :
  Js.trim sv ≠ EmptyString → Js.trim ev ≠ EmptyString →
  step sys (Press sv ev)
  = mkSystem (fetch (geocodeUrl (Js.trim sv)) (clearMap (page sys)))
      (calls sys ++ [Some (AwaitStart (Js.trim ev))])%list.
Proof. intros Hs He. cbn [step]. by rewrite findRoute_valid. Qed.

Lemma step_first i r endName p sys :
  calls sys !! i = Some (Some (AwaitStart endName)) → geocodeResult r = inl p →
  step sys (Reply i r)
  = mkSystem (fetch (geocodeUrl endName) (page sys)) (<[i := Some (AwaitEnd p)]> (calls sys)).
Proof. intros Hc Hr. cbn [step]. rewrite Hc. cbn [resume]. by rewrite Hr. Qed.

Lemma step_last i r p q sys :
  calls sys !! i = Some (Some (AwaitEnd p)) → geocodeResult r = inl q →
  step sys (Reply i r)
  = mkSystem (shown p q (page sys)) (<[i := None]> (calls sys)).
Proof.
  intros Hc Hr. cbn [step]. rewrite Hc. cbn [resume]. by rewrite Hr, showRoutes_shown.
Qed.

(** A request may leave before or after the routes are shown. *)
Lemma shown_fetch url p q st : fetch url (shown p q st) = shown p q (fetch url st).
Proof. reflexivity. Qed.

(** What [showRoutes] has not created is as it was. *)
Lemma shown_other p q st h :
  h ∉ created st → objects (shown p q st) !! h = objects st !! h.
Proof.
  unfold created. rewrite !not_elem_of_cons. intros (H1 & H2 & H3 & H4 & H5 & H6 & H7 & _).
  unfold shown; cbn [objects]. rewrite !lookup_insert_ne by congruence. reflexivity.
Qed.

(** A layer of the map after a search that the search has not created was an
    overlay, or the tile layer, before it, held by no variable. *)
Lemma search_other sv ev p q st h :
  h ∈ onMap (shown p q (afterFetches sv ev st)) → h ∉ created (afterFetches sv ev st) →
  objects (shown p q (afterFetches sv ev st)) !! h = objects st !! h
  ∧ h ∈ onMap st ∧ h ∉ tracked st.
Proof.
  intros Hh Hn. rewrite shown_other by assumption.
  rewrite shown_onMap in Hh. apply elem_of_union in Hh as [Hh|Hh];
    [by apply elem_of_list_to_set in Hh|].
  rewrite (proj2 (afterFetches_frame sv ev st)) in Hh. apply elem_of_difference in Hh.
  split; [|exact Hh].
  change (objects (clearMap st) !! h = objects st !! h). by rewrite clearMap_eq.
Qed.

(** [clearMap], a request and [clearMap] once more lead to such pages. *)
Lemma clearedFrom_clearMap st : below st → clearedFrom st (clearMap st).
Proof.
  intros Hb. split; [by apply below_clearMap|]. split; [apply clearMap_hazards|].
  split; [apply overlays_clearMap|].
  rewrite clearMap_eq. unfold tracked. cbn. set_solver.
Qed.

Lemma clearedFrom_fetch st url s : clearedFrom st s → clearedFrom st (fetch url s).
Proof. destruct s. intros H. exact H. Qed.

Lemma clearedFrom_again st s : clearedFrom st s → clearedFrom st (clearMap s).
Proof.
  intros (Hb & Hh & Ho & Ht). split; [by apply below_clearMap|].
  split; [apply clearMap_hazards|]. split.
  - rewrite overlays_clearMap, Ho. clear -Ht. set_solver.
  - assert (H : tracked (clearMap s) ⊆ tracked s)
      by (rewrite clearMap_eq; unfold tracked; cbn; set_solver).
    clear -H Ht. set_solver.
Qed.

(** When B has overtaken A: B's routes are shown on a page cleared since
    [st], and A waits for its last answer. *)
Lemma overtaking_run st svA evA svB evB rA1 rB1 rB2 pA pB qB k :
  below st →
  Js.trim svA ≠ EmptyString → Js.trim evA ≠ EmptyString →
  Js.trim svB ≠ EmptyString → Js.trim evB ≠ EmptyString →
  geocodeResult rA1 = inl pA → geocodeResult rB1 = inl pB → geocodeResult rB2 = inl qB →
  ∃ s, clearedFrom st s
       ∧ run (overtaking svA evA svB evB rA1 rB1 rB2 k) (mkSystem st [])
         = mkSystem (shown pB qB s) [Some (AwaitEnd pA); None].
Proof.
  intros Hc HsA HeA HsB HeB HA1 HB1 HB2.
  pose proof (clearedFrom_clearMap st Hc) as C0.
  unfold overtaking, run.
  destruct k as [|[|[|k]]]; cbn [take drop app]; rewrite ?take_nil, ?drop_nil; cbn [app foldl].
  - rewrite (step_press svA evA) by assumption. cbn [page calls app].
    rewrite (step_first 0 rA1 (Js.trim evA) pA) by (assumption || reflexivity).
    cbn [page calls]. change (<[0%nat:=?x]> [?y]) with [x].
    rewrite (step_press svB evB) by assumption. cbn [page calls app].
    rewrite (step_first 1 rB1 (Js.trim evB) pB) by (assumption || reflexivity).
    cbn [page calls]. change (<[1%nat:=?x]> [?y; ?z]) with [y; x].
    rewrite (step_last 1 rB2 pB qB) by (assumption || reflexivity).
    cbn [page calls]. change (<[1%nat:=?x]> [?y; ?z]) with [y; x].
    eexists. split; [|reflexivity].
    apply clearedFrom_fetch, clearedFrom_fetch, clearedFrom_again.
    by apply clearedFrom_fetch, clearedFrom_fetch.
  - rewrite (step_press svA evA) by assumption. cbn [page calls app].
    rewrite (step_press svB evB) by assumption. cbn [page calls app].
    rewrite (step_first 0 rA1 (Js.trim evA) pA) by (assumption || reflexivity).
    cbn [page calls]. change (<[0%nat:=?x]> [?y; ?z]) with [x; z].
    rewrite (step_first 1 rB1 (Js.trim evB) pB) by (assumption || reflexivity).
    cbn [page calls]. change (<[1%nat:=?x]> [?y; ?z]) with [y; x].
    rewrite (step_last 1 rB2 pB qB) by (assumption || reflexivity).
    cbn [page calls]. change (<[1%nat:=?x]> [?y; ?z]) with [y; x].
    eexists. split; [|reflexivity].
    apply clearedFrom_fetch, clearedFrom_fetch, clearedFrom_fetch, clearedFrom_again.
    by apply clearedFrom_fetch.
  - rewrite (step_press svA evA) by assumption. cbn [page calls app].
    rewrite (step_press svB evB) by assumption. cbn [page calls app].
    rewrite (step_first 1 rB1 (Js.trim evB) pB) by (assumption || reflexivity).
    cbn [page calls]. change (<[1%nat:=?x]> [?y; ?z]) with [y; x].
    rewrite (step_first 0 rA1 (Js.trim evA) pA) by (assumption || reflexivity).
    cbn [page calls]. change (<[0%nat:=?x]> [?y; ?z]) with [x; z].
    rewrite (step_last 1 rB2 pB qB) by (assumption || reflexivity).
    cbn [page calls]. change (<[1%nat:=?x]> [?y; ?z]) with [y; x].
    eexists. split; [|reflexivity].
    apply clearedFrom_fetch, clearedFrom_fetch, clearedFrom_fetch, clearedFrom_again.
    by apply clearedFrom_fetch.
  - rewrite (step_press svA evA) by assumption. cbn [page calls app].
    rewrite (step_press svB evB) by assumption. cbn [page calls app].
    rewrite (step_first 1 rB1 (Js.trim evB) pB) by (assumption || reflexivity).
    cbn [page calls]. change (<[1%nat:=?x]> [?y; ?z]) with [y; x].
    rewrite (step_last 1 rB2 pB qB) by (assumption || reflexivity).
    cbn [page calls]. change (<[1%nat:=?x]> [?y; ?z]) with [y; x].
    rewrite (step_first 0 rA1 (Js.trim evA) pA) by (assumption || reflexivity).
    cbn [page calls]. change (<[0%nat:=?x]> [?y; ?z]) with [x; z].
    rewrite shown_fetch.
    eexists. split; [|reflexivity].
    apply clearedFrom_fetch, clearedFrom_fetch, clearedFrom_fetch, clearedFrom_again.
    by apply clearedFrom_fetch.
Qed.

(** ** The claims *)

(** C1. For every pair of resolved places with valid coordinates, a search
    draws two routes, each of three points from the start to the
    destination; the interior point of route A is
    ((start.lat + end.lat) / 2 + 0.15, (start.lon + end.lon) / 2), that of
    route B the same with - 0.15. The arithmetic is that of JavaScript
    numbers. The search draws no other route: a third one on the map was
    there before the search, held by no variable, and there is none when
    every overlay was held by a variable, as on the first page. *)
Theorem routes_synthesized st sv ev r1 r2 start end_ :
  Js.trim sv ≠ EmptyString → Js.trim ev ≠ EmptyString →
  geocodeResult r1 = inl start → geocodeResult r2 = inl end_ →
  validCoordinate start → validCoordinate end_ →
  let st' := search sv ev r1 r2 st in
  ∃ a b : Handle,
    a ≠ b ∧ routeA st' = Some a ∧ routeB st' = Some b
    ∧ a ∈ onMap st' ∧ b ∈ onMap st'
    ∧ objects st' !! a =
        Some (Polyline
                [ (lat start, lon start);
                  (((lat start + lat end_) / 2 + 0.15)%float, ((lon start + lon end_) / 2)%float);
                  (lat end_, lon end_) ]
                "red" 6 [routeASelected])
    ∧ objects st' !! b =
        Some (Polyline
                [ (lat start, lon start);
                  (((lat start + lat end_) / 2 - 0.15)%float, ((lon start + lon end_) / 2)%float);
                  (lat end_, lon end_) ]
                "green" 6 [routeBSelected])
    ∧ (∀ (h : Handle) c col w ls,
         h ∈ onMap st' → objects st' !! h = Some (Polyline c col w ls) →
         h = a ∨ h = b ∨ (h ∈ overlays st ∧ h ∉ tracked st))
    ∧ (overlays st ⊆ tracked st →
       ∀ (h : Handle) c col w ls,
         h ∈ onMap st' → objects st' !! h = Some (Polyline c col w ls) → h = a ∨ h = b).
Proof.
  intros Hs He H1 H2 _ _ st'. subst st'.
  rewrite (search_shown sv ev r1 r2 start end_) by assumption.
  assert (Hall : ∀ (h : Handle) c col w ls,
            h ∈ onMap (shown start end_ (afterFetches sv ev st)) →
            objects (shown start end_ (afterFetches sv ev st)) !! h = Some (Polyline c col w ls) →
            h = Pos.succ (Pos.succ (nextId (afterFetches sv ev st)))
            ∨ h = Pos.succ (Pos.succ (Pos.succ (nextId (afterFetches sv ev st))))
            ∨ (h ∈ overlays st ∧ h ∉ tracked st)).
  { intros h c col w ls Hh Hobj.
    destruct (decide (h ∈ created (afterFetches sv ev st))) as [Hn|Hn].
    - revert Hobj. set (s := afterFetches sv ev st) in *.
      apply (created_cases s h); try assumption.
      all: lookup_shown; intros E; first [discriminate E | tauto].
    - destruct (search_other sv ev start end_ st h Hh Hn) as (Eo & Hm & Ht).
      right. right. split; [|exact Ht].
      unfold overlays. apply elem_of_filter. split; [|exact Hm].
      rewrite Eo in Hobj. unfold isOverlayAt. rewrite Hobj. reflexivity. }
  set (s := afterFetches sv ev st) in *.
  exists (Pos.succ (Pos.succ (nextId s))), (Pos.succ (Pos.succ (Pos.succ (nextId s)))).
  split; [lia|]. split; [reflexivity|]. split; [reflexivity|].
  split; [apply shown_onMap_new; created_mem|].
  split; [apply shown_onMap_new; created_mem|].
  split; [by lookup_shown|]. split; [by lookup_shown|].
  split; [exact Hall|].
  intros Hc h c col w ls Hh Hobj.
  destruct (Hall h c col w ls Hh Hobj) as [E|[E|[Ho Ht]]]; [by left | by right|].
  exfalso. by apply Ht, Hc.
Qed.

Lemma routes_synthesized_witness :
  Js.trim "Pokhara" ≠ EmptyString ∧ Js.trim " Kathmandu " ≠ EmptyString
  ∧ validCoordinate (placeOf pokhara) ∧ validCoordinate (placeOf kathmandu)
  ∧ ∃ a b : Handle, a ≠ b ∧ routeA demo = Some a ∧ routeB demo = Some b.
Proof.
  assert (H1 : Js.trim "Pokhara" ≠ EmptyString) by nonempty.
  assert (H2 : Js.trim " Kathmandu " ≠ EmptyString) by nonempty.
  assert (V1 : validCoordinate (placeOf pokhara)) by valid.
  assert (V2 : validCoordinate (placeOf kathmandu)) by valid.
  split; [exact H1|]. split; [exact H2|].
  split; [exact V1|]. split; [exact V2|].
  destruct (routes_synthesized (initial EmptyString) "Pokhara" " Kathmandu "
              (Json [pokhara]) (Json [kathmandu]) (placeOf pokhara) (placeOf kathmandu)
              H1 H2 eq_refl eq_refl V1 V2) as (a & b & Hab & Ha & Hb & _).
  exists a, b. split; [exact Hab|]. split; [exact Ha | exact Hb].
Defined.

(** C2. For valid coordinates a search puts exactly three hazard markers on
    the map, in the order of the catalog: marker i (i = 0, 1, 2) stands at
    (midLat + i * 0.05, midLon - i * 0.05), its icon is the round badge with
    the sign of the i-th type and its popup names the i-th type and reason:
    Flooding with "Heavy rainfall reported", Construction with "Ongoing road
    maintenance", Congestion with "High traffic volume". The texts are those
    of the template literals of lines 39-49 and 140-144. The search adds no
    other marker with an icon: a fourth one on the map was there before the
    search, held by no variable, and there is none when every overlay was
    held by a variable, as on the first page. *)
Theorem hazards_annotated st sv ev r1 r2 start end_ :
  Js.trim sv ≠ EmptyString → Js.trim ev ≠ EmptyString →
  geocodeResult r1 = inl start → geocodeResult r2 = inl end_ →
  validCoordinate start → validCoordinate end_ →
  let st' := search sv ev r1 r2 st in
  let mLat := ((lat start + lat end_) / 2)%float in
  let mLon := ((lon start + lon end_) / 2)%float in
  let icon (sign : string) :=
    Js.lines
      [ "<div style=" ++ Js.dq;
        "            font-size:22px;";
        "            background:white;";
        "            border:2px solid #ff4d4d;";
        "            border-radius:50%;";
        "            width:34px;";
        "            height:34px;";
        "            display:flex;";
        "            align-items:center;";
        "            justify-content:center;";
        "        " ++ Js.dq ++ ">" ++ sign ++ "</div>" ] in
  let popup (t r : string) :=
    Js.lines
      [ EmptyString;
        "                <b>" ++ t ++ "</b><br>";
        "                " ++ r ++ "<br>";
        "                <i>Simulated condition</i>";
        "            " ] in
  ∃ h0 h1 h2 : Handle,
    hazardMarkers st' = [h0; h1; h2] ∧ NoDup [h0; h1; h2]
    ∧ h0 ∈ onMap st' ∧ h1 ∈ onMap st' ∧ h2 ∈ onMap st'
    ∧ objects st' !! h0 =
        Some (Marker ((mLat + 0 * 0.05)%float, (mLon - 0 * 0.05)%float)
                (Some (icon "🌊")) (Some (popup "Flooding" "Heavy rainfall reported")))
    ∧ objects st' !! h1 =
        Some (Marker ((mLat + 1 * 0.05)%float, (mLon - 1 * 0.05)%float)
                (Some (icon "🚧")) (Some (popup "Construction" "Ongoing road maintenance")))
    ∧ objects st' !! h2 =
        Some (Marker ((mLat + 2 * 0.05)%float, (mLon - 2 * 0.05)%float)
                (Some (icon "🚗")) (Some (popup "Congestion" "High traffic volume")))
    ∧ Js.includes "<b>Flooding</b>" (popup "Flooding" "Heavy rainfall reported") = true
    ∧ Js.includes "Heavy rainfall reported" (popup "Flooding" "Heavy rainfall reported") = true
    ∧ (∀ (h : Handle) pos html bound,
         h ∈ onMap st' → objects st' !! h = Some (Marker pos (Some html) bound) →
         h = h0 ∨ h = h1 ∨ h = h2 ∨ (h ∈ overlays st ∧ h ∉ tracked st))
    ∧ (overlays st ⊆ tracked st →
       ∀ (h : Handle) pos html bound,
         h ∈ onMap st' → objects st' !! h = Some (Marker pos (Some html) bound) →
         h = h0 ∨ h = h1 ∨ h = h2).
Proof.
  intros Hs He H1 H2 _ _ st' mLat mLon icon popup. subst st'.
  rewrite (search_shown sv ev r1 r2 start end_) by assumption.
  assert (Hall : ∀ (h : Handle) pos icon' popup',
            h ∈ onMap (shown start end_ (afterFetches sv ev st)) →
            objects (shown start end_ (afterFetches sv ev st)) !! h
            = Some (Marker pos (Some icon') popup') →
            h = Pos.succ (Pos.succ (Pos.succ (Pos.succ (nextId (afterFetches sv ev st)))))
            ∨ h = Pos.succ (Pos.succ (Pos.succ (Pos.succ (Pos.succ
                    (nextId (afterFetches sv ev st))))))
            ∨ h = Pos.succ (Pos.succ (Pos.succ (Pos.succ (Pos.succ (Pos.succ
                    (nextId (afterFetches sv ev st)))))))
            ∨ (h ∈ overlays st ∧ h ∉ tracked st)).
  { intros h pos icon' popup' Hh Hobj.
    destruct (decide (h ∈ created (afterFetches sv ev st))) as [Hn|Hn].
    - revert Hobj. set (s := afterFetches sv ev st) in *.
      apply (created_cases s h); try assumption.
      all: lookup_shown; intros E; first [discriminate E | tauto].
    - destruct (search_other sv ev start end_ st h Hh Hn) as (Eo & Hm & Ht).
      right. right. right. split; [|exact Ht].
      unfold overlays. apply elem_of_filter. split; [|exact Hm].
      rewrite Eo in Hobj. unfold isOverlayAt. rewrite Hobj. reflexivity. }
  pose proof (clearMap_hazards st : hazardMarkers (afterFetches sv ev st) = []) as Hhz.
  set (s := afterFetches sv ev st) in *.
  set (n := nextId s) in *.
  exists (Pos.succ (Pos.succ (Pos.succ (Pos.succ n)))),
         (Pos.succ (Pos.succ (Pos.succ (Pos.succ (Pos.succ n))))),
         (Pos.succ (Pos.succ (Pos.succ (Pos.succ (Pos.succ (Pos.succ n)))))).
  split.
  { unfold shown. cbn [hazardMarkers]. rewrite Hhz. reflexivity. }
  split.
  { repeat constructor; rewrite ?elem_of_cons, ?elem_of_nil; lia. }
  split; [apply shown_onMap_new; created_mem|].
  split; [apply shown_onMap_new; created_mem|].
  split; [apply shown_onMap_new; created_mem|].
  split; [subst n; lookup_shown; reflexivity|].
  split; [subst n; lookup_shown; reflexivity|].
  split; [subst n; lookup_shown; reflexivity|].
  split; [vm_compute; reflexivity|]. split; [vm_compute; reflexivity|].
  split; [exact Hall|].
  intros Hc h pos icon' popup' Hh Hobj.
  destruct (Hall h pos icon' popup' Hh Hobj) as [E|[E|[E|[Ho Ht]]]]; [tauto..|].
  exfalso. by apply Ht, Hc.
Qed.

Lemma hazards_annotated_witness :
  Js.trim "Pokhara" ≠ EmptyString ∧ Js.trim " Kathmandu " ≠ EmptyString
  ∧ validCoordinate (placeOf pokhara) ∧ validCoordinate (placeOf kathmandu)
  ∧ ∃ h0 h1 h2 : Handle, hazardMarkers demo = [h0; h1; h2].
Proof.
  assert (H1 : Js.trim "Pokhara" ≠ EmptyString) by nonempty.
  assert (H2 : Js.trim " Kathmandu " ≠ EmptyString) by nonempty.
  assert (V1 : validCoordinate (placeOf pokhara)) by valid.
  assert (V2 : validCoordinate (placeOf kathmandu)) by valid.
  split; [exact H1|]. split; [exact H2|].
  split; [exact V1|]. split; [exact V2|].
  destruct (hazards_annotated (initial EmptyString) "Pokhara" " Kathmandu "
              (Json [pokhara]) (Json [kathmandu]) (placeOf pokhara) (placeOf kathmandu)
              H1 H2 eq_refl eq_refl V1 V2) as (h0 & h1 & h2 & Hh & _).
  exists h0, h1, h2. exact Hh.
Defined.

(** C3, as the script has it. Of two searches for valid places, the second
    begun when the first is over, on a page whose layers have handles below
    the next one, as every page has that the event loop reaches
    ([below_reached]): the first search holds its seven overlays;
    when the second search has cleared the map none of them is left, nor when
    it has shown its routes; the second search then holds its own seven
    overlays, which are on the map. What else the map shows is what no
    variable held before the first search: nothing, when every overlay was
    held by a variable, so that the overlays are then exactly the seven of the
    second search. *)
Theorem successive_searches st sv1 ev1 r1 r1' p1 q1 sv2 ev2 r2 r2' p2 q2 :
  below st →
  Js.trim sv1 ≠ EmptyString → Js.trim ev1 ≠ EmptyString →
  Js.trim sv2 ≠ EmptyString → Js.trim ev2 ≠ EmptyString →
  geocodeResult r1 = inl p1 → geocodeResult r1' = inl q1 →
  geocodeResult r2 = inl p2 → geocodeResult r2' = inl q2 →
  validCoordinate p1 → validCoordinate q1 → validCoordinate p2 → validCoordinate q2 →
  let st1 := search sv1 ev1 r1 r1' st in
  let mid := snd (findRoute sv2 ev2 st1) in
  let st2 := search sv2 ev2 r2 r2' st1 in
  let leftover := overlays st ∖ tracked st in
  size (tracked st1) = 7%nat ∧ tracked st1 ⊆ overlays st1
  ∧ overlays mid = leftover ∧ tracked st1 ## onMap mid
  ∧ size (tracked st2) = 7%nat ∧ tracked st2 ⊆ overlays st2
  ∧ tracked st1 ## onMap st2
  ∧ overlays st2 = tracked st2 ∪ leftover ∧ tracked st2 ## leftover
  ∧ (overlays st ⊆ tracked st →
     overlays mid = ∅ ∧ overlays st2 = tracked st2 ∧ size (overlays st2) = 7%nat).
Proof.
  intros Hb Hs1 He1 Hs2 He2 H1 H1' H2 H2' _ _ _ _ st1 mid st2 leftover.
  (* the first search *)
  assert (Hst1 : st1 = shown p1 q1 (afterFetches sv1 ev1 st))
    by (by apply (search_shown sv1 ev1 r1 r1')).
  destruct (afterFetches_page sv1 ev1 st Hb) as (Hb1 & Hh1 & Ho1).
  destruct (shown_any p1 q1 _ Hb1 Hh1) as (Ht1 & Hn1 & Hov1 & Hd1 & Hbs1).
  rewrite <- Hst1 in Ht1, Hn1, Hov1, Hd1, Hbs1. rewrite Ho1 in Hov1, Hd1.
  fold leftover in Hov1, Hd1.
  (* the second search *)
  assert (Hst2 : st2 = shown p2 q2 (afterFetches sv2 ev2 st1))
    by (by apply (search_shown sv2 ev2 r2 r2')).
  destruct (afterFetches_page sv2 ev2 st1 Hbs1) as (Hb2 & Hh2 & Ho2).
  assert (Hleft : overlays st1 ∖ tracked st1 = leftover).
  { rewrite Hov1. apply set_eq. intros h. rewrite elem_of_difference, elem_of_union.
    split; [tauto|]. intros Hl. split; [tauto|]. intros Ht. by apply (Hd1 h). }
  rewrite Hleft in Ho2.
  destruct (shown_any p2 q2 _ Hb2 Hh2) as (Ht2 & Hn2 & Hov2 & Hd2 & _).
  rewrite <- Hst2 in Ht2, Hn2, Hov2, Hd2. rewrite Ho2 in Hov2, Hd2.
  assert (Hmid : overlays mid = leftover).
  { subst mid. rewrite findRoute_valid by assumption. cbn [snd].
    change (overlays (clearMap st1) = leftover). by rewrite overlays_clearMap. }
  assert (Hmid' : onMap mid = onMap st1 ∖ tracked st1).
  { subst mid. rewrite findRoute_valid by assumption. cbn [snd].
    change (onMap (clearMap st1) = onMap st1 ∖ tracked st1). by rewrite clearMap_eq. }
  assert (Hgone : tracked st1 ## onMap st2).
  { intros h Ht Hon. rewrite Hst2, shown_onMap in Hon.
    apply elem_of_union in Hon as [Hon|Hon].
    - apply elem_of_list_to_set, created_fresh in Hon.
      rewrite (proj1 (afterFetches_frame sv2 ev2 st1)) in Hon.
      rewrite Ht1 in Ht. apply elem_of_list_to_set in Ht.
      assert (Hlt : (h < nextId st1)%positive); [|lia].
      rewrite Hst1. revert Ht. unfold shown. cbn [nextId].
      intros Ht. apply (created_cases _ h (fun h => (h < _)%positive) Ht); lia.
    - rewrite (proj2 (afterFetches_frame sv2 ev2 st1)) in Hon.
      apply elem_of_difference in Hon. tauto. }
  split; [exact Hn1|]. split; [rewrite Hov1; apply union_subseteq_l|].
  split; [exact Hmid|]. split.
  { intros h Ht Hon. rewrite Hmid' in Hon. apply elem_of_difference in Hon. tauto. }
  split; [exact Hn2|]. split; [rewrite Hov2; apply union_subseteq_l|].
  split; [exact Hgone|]. split; [exact Hov2|]. split; [exact Hd2|].
  intros Hc.
  assert (He : leftover = ∅).
  { subst leftover. apply set_eq. intros h. rewrite elem_of_difference.
    split; [intros [Ho Hn]; exfalso; by apply Hn, Hc | intros Hn; by apply elem_of_empty in Hn]. }
  rewrite Hmid, Hov2, He, union_empty_r_L. by rewrite Hn2.
Qed.

Lemma successive_searches_witness :
  below (initial EmptyString)
  ∧ Js.trim "Pokhara" ≠ EmptyString ∧ Js.trim " Kathmandu " ≠ EmptyString
  ∧ Js.trim "Kathmandu" ≠ EmptyString
  ∧ validCoordinate (placeOf pokhara) ∧ validCoordinate (placeOf kathmandu)
  ∧ overlays demoBack = tracked demoBack ∧ size (overlays demoBack) = 7%nat.
Proof.
  assert (H0 : below (initial EmptyString)) by apply consistent_initial.
  assert (H1 : Js.trim "Pokhara" ≠ EmptyString) by nonempty.
  assert (H2 : Js.trim " Kathmandu " ≠ EmptyString) by nonempty.
  assert (H3 : Js.trim "Kathmandu" ≠ EmptyString) by nonempty.
  assert (V1 : validCoordinate (placeOf pokhara)) by valid.
  assert (V2 : validCoordinate (placeOf kathmandu)) by valid.
  split; [exact H0|]. split; [exact H1|]. split; [exact H2|]. split; [exact H3|].
  split; [exact V1|]. split; [exact V2|].
  destruct (successive_searches (initial EmptyString) "Pokhara" " Kathmandu "
              (Json [pokhara]) (Json [kathmandu]) (placeOf pokhara) (placeOf kathmandu)
              "Kathmandu" "Pokhara"
              (Json [kathmandu]) (Json [pokhara]) (placeOf kathmandu) (placeOf pokhara)
              H0 H1 H2 H3 H1 eq_refl eq_refl eq_refl eq_refl V1 V2 V2 V1)
    as (_ & _ & _ & _ & _ & _ & _ & _ & _ & Hc).
  destruct Hc as (_ & Ho & Hn).
  - apply consistent_initial.
  - split; [exact Ho | exact Hn].
Defined.

(** C3, as the claim words it, fails: when a search from Pokhara to
    Kathmandu was overtaken by one from Biratnagar to Dharan, the two end
    markers and the two routes of the latter are held by no variable; two
    searches run one after the other from there leave them on the map, which
    then has eleven overlays, the seven of the last search among them. *)
Lemma leftover_overlays_stay :
  let sys :=
    run (overlapped "Pokhara" "Kathmandu" "Biratnagar" "Dharan"
           (Json [biratnagar]) (Json [dharan])
         ++ [Reply 0 (Json [pokhara]); Reply 0 (Json [kathmandu])])
      (mkSystem (initial EmptyString) []) in
  let st1 := search "Dharan" "Pokhara" (Json [dharan]) (Json [pokhara]) (page sys) in
  let st2 := search "Kathmandu" "Biratnagar" (Json [kathmandu]) (Json [biratnagar]) st1 in
  size (overlays st2) = 11%nat
  ∧ size (tracked st2) = 7%nat
  ∧ overlays st2 ∖ tracked st2 = {[ 2; 3; 4; 5 ]}%positive
  ∧ objects st2 !! 4%positive =
      Some (Polyline (routeAcoords (placeOf biratnagar) (placeOf dharan)) "red" 6
              [routeASelected]).
Proof. cbv zeta. repeat split; vm_compute; reflexivity. Qed.

(** C4, as the script has it. After a search for valid places, whatever was
    clicked since, a click on route A writes the text of route A, with
    "Recommended when speed is critical.", and a click on route B writes the
    text of route B, with "Recommended for safer and consistent travel.". *)
Theorem selection_explanation st sv ev r1 r2 start end_ clicks :
  Js.trim sv ≠ EmptyString → Js.trim ev ≠ EmptyString →
  geocodeResult r1 = inl start → geocodeResult r2 = inl end_ →
  validCoordinate start → validCoordinate end_ →
  let st' := foldl (fun s h => click h s) (search sv ev r1 r2 st) clicks in
  result (clickOn (routeA st') st') = routeASelected
  ∧ result (clickOn (routeB st') st') = routeBSelected
  ∧ Js.includes "Recommended when speed is critical." routeASelected = true
  ∧ Js.includes "Recommended for safer and consistent travel." routeBSelected = true.
Proof.
  intros Hs He H1 H2 _ _ st'.
  destruct (clicks_frame clicks (search sv ev r1 r2 st)) as (Ho & Hm & Ha & Hb).
  fold st' in Ho, Hm, Ha, Hb.
  rewrite (search_shown sv ev r1 r2 start end_) in Ho, Hm, Ha, Hb by assumption.
  set (s := afterFetches sv ev st) in *.
  split; [|split; [|split; reflexivity]].
  - rewrite Ha. cbn [shown routeA clickOn].
    eapply click_route.
    + rewrite Hm. apply shown_onMap_new. created_mem.
    + rewrite Ho. by lookup_shown.
  - rewrite Hb. cbn [shown routeB clickOn].
    eapply click_route.
    + rewrite Hm. apply shown_onMap_new. created_mem.
    + rewrite Ho. by lookup_shown.
Qed.

Lemma selection_explanation_witness :
  Js.trim "Pokhara" ≠ EmptyString ∧ Js.trim " Kathmandu " ≠ EmptyString
  ∧ validCoordinate (placeOf pokhara) ∧ validCoordinate (placeOf kathmandu)
  ∧ result (clickOn (routeA demo) demo) = routeASelected
  ∧ result (clickOn (routeB demo) demo) = routeBSelected.
Proof.
  assert (H1 : Js.trim "Pokhara" ≠ EmptyString) by nonempty.
  assert (H2 : Js.trim " Kathmandu " ≠ EmptyString) by nonempty.
  assert (V1 : validCoordinate (placeOf pokhara)) by valid.
  assert (V2 : validCoordinate (placeOf kathmandu)) by valid.
  split; [exact H1|]. split; [exact H2|]. split; [exact V1|]. split; [exact V2|].
  exact (let H := selection_explanation (initial EmptyString) "Pokhara" " Kathmandu "
              (Json [pokhara]) (Json [kathmandu]) (placeOf pokhara) (placeOf kathmandu) []
              H1 H2 eq_refl eq_refl V1 V2 in conj (proj1 H) (proj1 (proj2 H))).
Defined.

(** C4, as the claim words it, fails: after a search from Pokhara to
    Kathmandu a click on route B writes a text in which "recommended for
    safer, more reliable travel" does not occur, whatever the case of the
    letters; the text of route A does hold the claim's words. *)
Lemma selecting_B_other_text :
  Js.includes "recommended for safer, more reliable travel"
    (Js.toLowerCase (result (clickOn (routeB demo) demo))) = false
  ∧ result (clickOn (routeB demo) demo) = routeBSelected
  ∧ Js.includes "recommended when speed is critical"
      (Js.toLowerCase (result (clickOn (routeA demo) demo))) = true.
Proof. repeat split; vm_compute; reflexivity. Qed.

(** C5. When a field is empty once trimmed, [findRoute] alerts and returns: no
    request leaves, whatever the geocoder would have answered, and the map is
    left as it is. *)
Theorem empty_input_rejected st sv ev r1 r2 :
  Js.trim sv = EmptyString ∨ Js.trim ev = EmptyString →
  findRoute sv ev st = (None, alert enterBoth st)
  ∧ search sv ev r1 r2 st = alert enterBoth st
  ∧ fetched (search sv ev r1 r2 st) = fetched st
  ∧ onMap (search sv ev r1 r2 st) = onMap st.
Proof.
  intros H. unfold search. rewrite findRoute_invalid by assumption. done.
Qed.

Lemma empty_input_rejected_witness :
  (Js.trim "   " = EmptyString ∨ Js.trim "Kathmandu" = EmptyString)
  ∧ fetched (search "   " "Kathmandu" (Json [pokhara]) (Json [kathmandu])
               (initial EmptyString)) = [].
Proof.
  assert (H : Js.trim "   " = EmptyString ∨ Js.trim "Kathmandu" = EmptyString)
    by (left; vm_compute; reflexivity).
  split; [exact H|].
  destruct (empty_input_rejected (initial EmptyString) "   " "Kathmandu"
              (Json [pokhara]) (Json [kathmandu]) H) as (_ & _ & Hf & _).
  exact Hf.
Defined.

(** C6. [clearMap] is idempotent: on a page none of whose held layers is on
    the map (and whose list of hazard markers is empty) it changes nothing;
    twice in a row it does what it does once; it is a total function, so it
    raises no error; and after it no held layer is on the map. *)
Theorem clearMap_idempotent st :
  (tracked st ## onMap st → hazardMarkers st = [] → clearMap st = st)
  ∧ clearMap (clearMap st) = clearMap st
  ∧ tracked (clearMap st) ## onMap (clearMap st).
Proof.
  split; [apply clearMap_idle|]. split; [apply clearMap_twice|].
  rewrite clearMap_eq. unfold tracked; cbn. set_solver.
Qed.

Lemma clearMap_idempotent_witness :
  tracked (initial EmptyString) ## onMap (initial EmptyString)
  ∧ clearMap (initial EmptyString) = initial EmptyString.
Proof.
  assert (H : tracked (initial EmptyString) ## onMap (initial EmptyString)).
  { unfold tracked, initial; cbn. set_solver. }
  split; [exact H|].
  exact (proj1 (clearMap_idempotent (initial EmptyString)) H eq_refl).
Defined.

(** C7, as the script has it. When both places have the same valid
    coordinates, the search throws nothing (its only division is by the
    literal 2) and shows two routes that begin and end at that point; they are
    not of zero length: route A passes north of the point and route B south
    of it. *)
Theorem same_point_routes st sv ev r1 r2 p q :
  Js.trim sv ≠ EmptyString → Js.trim ev ≠ EmptyString →
  geocodeResult r1 = inl p → geocodeResult r2 = inl q →
  lat q = lat p → lon q = lon p → validCoordinate p →
  let st' := search sv ev r1 r2 st in
  result st' = routesFound
  ∧ (∃ a b : Handle,
       routeA st' = Some a ∧ routeB st' = Some b
       ∧ objects st' !! a =
           Some (Polyline [ (lat p, lon p); (interiorA p q, midLon p q); (lat p, lon p) ]
                   "red" 6 [routeASelected])
       ∧ objects st' !! b =
           Some (Polyline [ (lat p, lon p); (interiorB p q, midLon p q); (lat p, lon p) ]
                   "green" 6 [routeBSelected]))
  ∧ (interiorB p q <? lat p)%float = true
  ∧ (lat p <? interiorA p q)%float = true
  ∧ ¬ zeroLength (routeAcoords p q) ∧ ¬ zeroLength (routeBcoords p q).
Proof.
  intros Hs He H1 H2 Hlat Hlon [Hv _] st'. subst st'.
  rewrite (search_shown sv ev r1 r2 p q) by assumption.
  set (s := afterFetches sv ev st).
  destruct (B64Facts.lat_same_point (lat p) Hv) as [Hb Ha].
  assert (Hb' : (interiorB p q <? lat p)%float = true)
    by (unfold interiorB, midLat; rewrite Hlat; exact Hb).
  assert (Ha' : (lat p <? interiorA p q)%float = true)
    by (unfold interiorA, midLat; rewrite Hlat; exact Ha).
  split; [reflexivity|]. split.
  { exists (Pos.succ (Pos.succ (nextId s))), (Pos.succ (Pos.succ (Pos.succ (nextId s)))).
    split; [reflexivity|]. split; [reflexivity|].
    split; lookup_shown; unfold routeAcoords, routeBcoords, interiorA, interiorB;
      rewrite Hlat, Hlon; reflexivity. }
  split; [exact Hb'|]. split; [exact Ha'|]. split.
  - apply (not_zeroLength _ (lat p, lon p) (interiorA p q, midLon p q)).
    + unfold routeAcoords. apply list_elem_of_here.
    + unfold routeAcoords, interiorA. apply list_elem_of_further, list_elem_of_here.
    + cbn [fst]. by apply float_lt_neq.
  - apply (not_zeroLength _ (interiorB p q, midLon p q) (lat p, lon p)).
    + unfold routeBcoords, interiorB. apply list_elem_of_further, list_elem_of_here.
    + unfold routeBcoords. apply list_elem_of_here.
    + cbn [fst]. by apply float_lt_neq.
Qed.

Lemma same_point_routes_witness :
  Js.trim "Pokhara" ≠ EmptyString ∧ validCoordinate (placeOf pokhara)
  ∧ (interiorB (placeOf pokhara) (placeOf pokhara) <? lat (placeOf pokhara))%float = true
  ∧ (lat (placeOf pokhara) <? interiorA (placeOf pokhara) (placeOf pokhara))%float = true.
Proof.
  assert (H1 : Js.trim "Pokhara" ≠ EmptyString) by nonempty.
  assert (H2 : validCoordinate (placeOf pokhara)) by (vm_compute; auto).
  split; [exact H1|]. split; [exact H2|].
  destruct (same_point_routes (initial EmptyString) "Pokhara" "Pokhara"
              (Json [pokhara]) (Json [pokhara]) (placeOf pokhara) (placeOf pokhara)
              H1 H1 eq_refl eq_refl eq_refl eq_refl H2) as (_ & _ & Hb & Ha & _).
  split; [exact Hb | exact Ha].
Defined.

(** C7, as the claim words it, fails: from Pokhara to Pokhara neither route
    is of zero length. *)
Lemma same_point_not_degenerate :
  validCoordinate (placeOf pokhara)
  ∧ routeAcoords (placeOf pokhara) (placeOf pokhara)
    = [ (28.2096, 83.9856); (28.359599999999997, 83.9856); (28.2096, 83.9856) ]%float
  ∧ routeBcoords (placeOf pokhara) (placeOf pokhara)
    = [ (28.2096, 83.9856); (28.0596, 83.9856); (28.2096, 83.9856) ]%float
  ∧ ¬ zeroLength (routeAcoords (placeOf pokhara) (placeOf pokhara))
  ∧ ¬ zeroLength (routeBcoords (placeOf pokhara) (placeOf pokhara)).
Proof.
  assert (EA : routeAcoords (placeOf pokhara) (placeOf pokhara)
    = [ (28.2096, 83.9856); (28.359599999999997, 83.9856); (28.2096, 83.9856) ]%float)
    by (vm_compute; reflexivity).
  assert (EB : routeBcoords (placeOf pokhara) (placeOf pokhara)
    = [ (28.2096, 83.9856); (28.0596, 83.9856); (28.2096, 83.9856) ]%float)
    by (vm_compute; reflexivity).
  split; [by vm_compute|]. split; [exact EA|]. split; [exact EB|].
  rewrite EA, EB. split; intros H.
  - specialize (H (28.2096, 83.9856)%float (28.359599999999997, 83.9856)%float).
    assert (E : (28.2096, 83.9856)%float = (28.359599999999997, 83.9856)%float).
    { apply H; created_mem. }
    apply (f_equal fst) in E. cbn [fst] in E. revert E. apply float_lt_neq. reflexivity.
  - specialize (H (28.0596, 83.9856)%float (28.2096, 83.9856)%float).
    assert (E : (28.0596, 83.9856)%float = (28.2096, 83.9856)%float).
    { apply H; created_mem. }
    apply (f_equal fst) in E. cbn [fst] in E. revert E. apply float_lt_neq. reflexivity.
Qed.




(** C9, as the script has it. There is no generation token. When search B is
    begun while search A waits for an answer of the geocoder, and the two
    answers for B come before the last answer for A (whenever A's first
    answer comes), B shows its seven overlays, and the late answer for A is
    not dropped: A's seven overlays are added to the map, on which those of B
    stay, and the variables of the script hold A's routes. The places have
    valid coordinates. On a page where every overlay was held by a variable,
    as on the first page, the map has the seven overlays of B and then
    fourteen. *)
Theorem stale_results_installed st svA evA svB evB rA1 rA2 rB1 rB2 pA qA pB qB k :
  below st →
  Js.trim svA ≠ EmptyString → Js.trim evA ≠ EmptyString →
  Js.trim svB ≠ EmptyString → Js.trim evB ≠ EmptyString →
  geocodeResult rA1 = inl pA → geocodeResult rA2 = inl qA →
  geocodeResult rB1 = inl pB → geocodeResult rB2 = inl qB →
  validCoordinate pA → validCoordinate qA → validCoordinate pB → validCoordinate qB →
  let sys0 := mkSystem st [] in
  let afterB := page (run (overtaking svA evA svB evB rA1 rB1 rB2 k) sys0) in
  let final :=
    page (run (overtaking svA evA svB evB rA1 rB1 rB2 k ++ [Reply 0 rA2]) sys0) in
  let leftover := overlays st ∖ tracked st in
  size (tracked afterB) = 7%nat ∧ overlays afterB = tracked afterB ∪ leftover
  ∧ final = showRoutes pA qA afterB
  ∧ overlays afterB ⊆ overlays final
  ∧ size (overlays final ∖ overlays afterB) = 7%nat
  ∧ (∃ a : Handle,
       routeA final = Some a ∧ (a ∉ overlays afterB) ∧ a ∈ onMap final
       ∧ objects final !! a
         = Some (Polyline (routeAcoords pA qA) "red" 6 [routeASelected]))
  ∧ (overlays st ⊆ tracked st →
     overlays afterB = tracked afterB ∧ size (overlays afterB) = 7%nat
     ∧ size (overlays final) = 14%nat).
Proof.
  intros Hb0 HsA HeA HsB HeB HA1 HA2 HB1 HB2 _ _ _ _ sys0 afterB final leftover.
  destruct (overtaking_run st svA evA svB evB rA1 rB1 rB2 pA pB qB k
              Hb0 HsA HeA HsB HeB HA1 HB1 HB2) as (s3 & Hcl & Hrun).
  fold sys0 in Hrun.
  assert (HafterB : afterB = shown pB qB s3) by (subst afterB; by rewrite Hrun).
  assert (Hfinal : final = shown pA qA afterB).
  { subst final. rewrite run_app, Hrun. unfold run. cbn [foldl].
    rewrite (step_last 0 rA2 pA qA) by (assumption || reflexivity).
    cbn [page]. by rewrite HafterB. }
  clearbody afterB final.
  destruct Hcl as (Hb3 & Hh3 & Ho3 & _). fold leftover in Ho3.
  destruct (shown_any pB qB s3 Hb3 Hh3) as (Ht & Hn & Hov & Hd & Hb).
  rewrite <- HafterB in Ht, Hn, Hov, Hd, Hb. rewrite Ho3 in Hov, Hd.
  assert (Ho5 : overlays final = list_to_set (created afterB) ∪ overlays afterB).
  { rewrite Hfinal. by rewrite shown_overlays. }
  assert (Hd5 : (list_to_set (created afterB) : gset Handle) ## overlays afterB).
  { intros h Hc Ho. apply elem_of_list_to_set in Hc.
    apply (created_not_old afterB h Hb Hc). unfold overlays in Ho.
    apply elem_of_filter in Ho. tauto. }
  assert (Hrest : overlays final ∖ overlays afterB = list_to_set (created afterB)).
  { rewrite Ho5. generalize (list_to_set (created afterB) : gset Handle) Hd5.
    generalize (overlays afterB). clear. intros X Y Hd. set_solver. }
  split; [exact Hn|]. split; [exact Hov|].
  split; [by rewrite Hfinal, showRoutes_shown|].
  split; [rewrite Ho5; apply union_subseteq_r|].
  split; [by rewrite Hrest, size_list_to_set by apply created_NoDup|].
  split.
  { exists (Pos.succ (Pos.succ (nextId afterB))). rewrite Hfinal.
    split; [reflexivity|]. split; [|split].
    - intros Hin. apply (Hd5 (Pos.succ (Pos.succ (nextId afterB)))); [|exact Hin].
      apply elem_of_list_to_set. created_mem.
    - apply shown_onMap_new. created_mem.
    - by lookup_shown. }
  intros Hc.
  assert (He : leftover = ∅).
  { subst leftover. clear -Hc. set_solver. }
  rewrite He, union_empty_r_L in Hov.
  split; [exact Hov|]. split; [by rewrite Hov|].
  rewrite Ho5, size_union by exact Hd5.
  rewrite size_list_to_set by apply created_NoDup. rewrite Hov, Hn. reflexivity.
Qed.

Lemma stale_results_installed_witness :
  below (initial EmptyString)
  ∧ Js.trim "Pokhara" ≠ EmptyString ∧ Js.trim "Kathmandu" ≠ EmptyString
  ∧ Js.trim "Biratnagar" ≠ EmptyString ∧ Js.trim "Dharan" ≠ EmptyString
  ∧ validCoordinate (placeOf pokhara) ∧ validCoordinate (placeOf kathmandu)
  ∧ validCoordinate (placeOf biratnagar) ∧ validCoordinate (placeOf dharan)
  ∧ size (overlays (page (run
       (overtaking "Pokhara" "Kathmandu" "Biratnagar" "Dharan" (Json [pokhara])
          (Json [biratnagar]) (Json [dharan]) 1 ++ [Reply 0 (Json [kathmandu])])
       (mkSystem (initial EmptyString) [])))) = 14%nat.
Proof.
  assert (H0 : below (initial EmptyString)) by apply consistent_initial.
  assert (H1 : Js.trim "Pokhara" ≠ EmptyString) by nonempty.
  assert (H2 : Js.trim "Kathmandu" ≠ EmptyString) by nonempty.
  assert (H3 : Js.trim "Biratnagar" ≠ EmptyString) by nonempty.
  assert (H4 : Js.trim "Dharan" ≠ EmptyString) by nonempty.
  assert (V1 : validCoordinate (placeOf pokhara)) by valid.
  assert (V2 : validCoordinate (placeOf kathmandu)) by valid.
  assert (V3 : validCoordinate (placeOf biratnagar)) by valid.
  assert (V4 : validCoordinate (placeOf dharan)) by valid.
  split; [exact H0|]. split; [exact H1|]. split; [exact H2|].
  split; [exact H3|]. split; [exact H4|].
  split; [exact V1|]. split; [exact V2|]. split; [exact V3|]. split; [exact V4|].
  destruct (stale_results_installed (initial EmptyString) "Pokhara" "Kathmandu"
              "Biratnagar" "Dharan" (Json [pokhara]) (Json [kathmandu])
              (Json [biratnagar]) (Json [dharan])
              (placeOf pokhara) (placeOf kathmandu) (placeOf biratnagar) (placeOf dharan) 1
              H0 H1 H2 H3 H4 eq_refl eq_refl eq_refl eq_refl V1 V2 V3 V4)
    as (_ & _ & _ & _ & _ & _ & Hc).
  destruct Hc as (_ & _ & Hn); [apply consistent_initial | exact Hn].
Defined.

(** C9, as the claim words it, fails: a search from Pokhara to Kathmandu is
    overtaken by one from Biratnagar to Dharan, which shows its seven
    overlays; when the answers for the first search arrive, the map has
    fourteen overlays, and the route variable, the viewport and the hazard
    list are those of the stale search. *)
Lemma stale_search_overwrites :
  let sys0 := mkSystem (initial EmptyString) [] in
  let second :=
    run (overlapped "Pokhara" "Kathmandu" "Biratnagar" "Dharan"
           (Json [biratnagar]) (Json [dharan])) sys0 in
  let final := run [Reply 0 (Json [pokhara]); Reply 0 (Json [kathmandu])] second in
  size (overlays (page second)) = 7%nat
  ∧ size (overlays (page final)) = 14%nat
  ∧ routeA (page second) = Some 4%positive
  ∧ routeA (page final) = Some 11%positive
  ∧ objects (page final) !! 11%positive =
      Some (Polyline (routeAcoords (placeOf pokhara) (placeOf kathmandu)) "red" 6
              [routeASelected])
  ∧ view (page final) = FitBounds [11%positive; 12%positive]
  ∧ hazardMarkers (page final)
    = [6; 7; 8; 13; 14; 15]%positive.
Proof. cbv zeta. repeat split; vm_compute; reflexivity. Qed.

(** C10, as the script has it. For valid coordinates the two routes share
    their end points and the longitude of their interior point, and the
    interior latitude of route A is strictly greater than that of route B, so
    the routes differ; the two latitudes are 0.3 apart up to the rounding of
    binary64 arithmetic: in units of 2^-1074 their difference is within
    2^1028 (that is 2^-46 degrees) of the number 0.3. *)
Theorem candidates_distinct (start end_ : Place) :
  validCoordinate start → validCoordinate end_ →
  routeAcoords start end_ =
    [ (lat start, lon start); (interiorA start end_, midLon start end_); (lat end_, lon end_) ]
  ∧ routeBcoords start end_ =
    [ (lat start, lon start); (interiorB start end_, midLon start end_); (lat end_, lon end_) ]
  ∧ (interiorB start end_ <? interiorA start end_)%float = true
  ∧ routeAcoords start end_ ≠ routeBcoords start end_
  ∧ (Z.abs (B64.scaled (interiorA start end_) - B64.scaled (interiorB start end_)
            - B64.scaled 0.3) ≤ 2 ^ 1028)%Z.
Proof.
  intros [Hs _] [He _].
  destruct (B64Facts.lat_offsets (lat start) (lat end_) Hs He) as [Hlt Hd].
  split; [reflexivity|]. split; [reflexivity|]. split; [exact Hlt|]. split; [|exact Hd].
  intros E. unfold routeAcoords, routeBcoords in E.
  injection E as E. apply B64Facts.ltb_neq in Hlt. apply Hlt. symmetry. exact E.
Qed.

Lemma candidates_distinct_witness :
  validCoordinate (placeOf pokhara) ∧ validCoordinate (placeOf kathmandu)
  ∧ (interiorB (placeOf pokhara) (placeOf kathmandu)
     <? interiorA (placeOf pokhara) (placeOf kathmandu))%float = true.
Proof.
  assert (H1 : validCoordinate (placeOf pokhara)) by (vm_compute; auto).
  assert (H2 : validCoordinate (placeOf kathmandu)) by (vm_compute; auto).
  split; [exact H1|]. split; [exact H2|].
  destruct (candidates_distinct (placeOf pokhara) (placeOf kathmandu) H1 H2)
    as (_ & _ & Hlt & _).
  exact Hlt.
Defined.

(** C10, as the claim words it, fails: from Pokhara to Kathmandu the
    difference of the two interior latitudes is not the number 0.3, neither
    as JavaScript computes it nor exactly. *)
Lemma offset_not_exact :
  validCoordinate (placeOf pokhara) ∧ validCoordinate (placeOf kathmandu)
  ∧ (interiorA (placeOf pokhara) (placeOf kathmandu)
     - interiorB (placeOf pokhara) (placeOf kathmandu))%float ≠ 0.3%float
  ∧ (B64.scaled (interiorA (placeOf pokhara) (placeOf kathmandu))
     - B64.scaled (interiorB (placeOf pokhara) (placeOf kathmandu)))%Z ≠ B64.scaled 0.3.
Proof.
  split; [by vm_compute|]. split; [by vm_compute|]. split.
  - intros H. apply (f_equal (fun x => (x =? 0.3)%float)) in H. vm_compute in H. discriminate.
  - vm_compute. discriminate.
Qed.

(** ** White space

    [trim] strips the white space of both ends and nothing else. *)

(** The bytes of two strings put together. *)
Lemma list_of_append (x y : string) :
  list_ascii_of_string (x ++ y) = (list_ascii_of_string x ++ list_ascii_of_string y)%list.
Proof.
  induction x as [|c x IH]; [done|].
  change (String c x ++ y) with (String c (x ++ y)). cbn [list_ascii_of_string].
  by rewrite IH.
Qed.

Module TrimFacts.

Local Open Scope list_scope.

(** [dropPrefix p l] gives what follows [p] in [l]. *)
Lemma dropPrefix_Some p l l' : Js.dropPrefix p l = Some l' ↔ l = p ++ l'.
Proof.
  revert l. induction p as [|a p IH]; intros l; cbn.
  - split; [intros [= ->]; reflexivity | intros ->; reflexivity].
  - destruct l as [|b l]; [split; [discriminate | intros [=]]|].
    destruct (Ascii.eqb_spec a b) as [->|Hne].
    + rewrite IH. split; [intros ->; reflexivity | intros [= ->]; reflexivity].
    + split; [discriminate | intros [= -> ->]; contradiction].
Qed.

(** [dropOneOf] strips a member of [ps] from the front. *)
Lemma dropOneOf_Some ps l l' :
  Js.dropOneOf ps l = Some l' → ∃ p, p ∈ ps ∧ l = p ++ l'.
Proof.
  induction ps as [|p ps IH]; cbn; [discriminate|].
  destruct (Js.dropPrefix p l) as [r|] eqn:E.
  - intros [= ->]. exists p. split; [apply list_elem_of_here | by apply dropPrefix_Some].
  - intros H. destruct (IH H) as (q & Hq & ->). exists q. split; [by apply list_elem_of_further | done].
Qed.

(** [dropOneOf] fails when no member of [ps] begins the string. *)
Lemma dropOneOf_None ps l :
  Js.dropOneOf ps l = None ↔ ∀ p r, p ∈ ps → l ≠ p ++ r.
Proof.
  induction ps as [|p ps IH]; cbn.
  - split; [intros _ p r Hp; by apply elem_of_nil in Hp | done].
  - destruct (Js.dropPrefix p l) as [r|] eqn:E.
    + apply dropPrefix_Some in E. split; [discriminate|].
      intros H. exfalso. apply (H p r); [apply list_elem_of_here | done].
    + rewrite IH. split.
      * intros H q r Hq. apply elem_of_cons in Hq. destruct Hq as [->|Hq]; [|by apply H].
        intros El. apply dropPrefix_Some in El. congruence.
      * intros H q r Hq. apply H. by apply list_elem_of_further.
Qed.

(** In a prefix code the member in front is the one stripped. *)
Lemma dropOneOf_code ps p l : prefixCode ps → p ∈ ps → Js.dropOneOf ps (p ++ l) = Some l.
Proof.
  intros [_ Hc] Hp. destruct (Js.dropOneOf ps (p ++ l)) as [r|] eqn:E.
  - apply dropOneOf_Some in E. destruct E as (q & Hq & E).
    pose proof (Hc p q l r Hp Hq E) as ->. apply app_inv_head in E. by subst.
  - exfalso. rewrite dropOneOf_None in E. by apply (E p l).
Qed.

(** With enough fuel [dropWhile] strips members of [ps] until none is left
    in front. *)
Lemma dropWhile_spec ps fuel l :
  (∀ p, p ∈ ps → p ≠ []) → (length l ≤ fuel)%nat →
  ∃ pre : list (list ascii),
    Forall (fun p => p ∈ ps) pre ∧ l = concat pre ++ Js.dropWhile ps fuel l
    ∧ Js.dropOneOf ps (Js.dropWhile ps fuel l) = None.
Proof.
  intros Hne. revert l. induction fuel as [|fuel IH]; intros l Hl.
  - destruct l; [|cbn in Hl; lia]. exists []. cbn. split; [constructor|]. split; [done|].
    apply dropOneOf_None. intros p r Hp E. apply (Hne p Hp).
    symmetry in E. by apply app_eq_nil in E as [? _].
  - cbn. destruct (Js.dropOneOf ps l) as [l'|] eqn:E.
    + destruct (dropOneOf_Some _ _ _ E) as (p & Hp & ->).
      assert (Hlen : (length l' ≤ fuel)%nat).
      { rewrite length_app in Hl. pose proof (Hne p Hp). destruct p; [done|]. cbn in Hl. lia. }
      destruct (IH l' Hlen) as (pre & Hpre & El & Hn).
      exists (p :: pre). split; [by constructor|]. split; [|done].
      cbn. rewrite <- app_assoc. by rewrite <- El.
    + exists []. split; [constructor|]. done.
Qed.

(** A string that begins with no member of [ps] is left as it is. *)
Lemma dropWhile_stop ps fuel l : Js.dropOneOf ps l = None → Js.dropWhile ps fuel l = l.
Proof. intros H. destruct fuel; cbn; [done|]. by rewrite H. Qed.

(** Members of a prefix code in front of such a string are all stripped. *)
Lemma dropWhile_concat ps fuel pre r :
  prefixCode ps → Forall (fun p => p ∈ ps) pre → Js.dropOneOf ps r = None →
  (length (concat pre ++ r) ≤ fuel)%nat →
  Js.dropWhile ps fuel (concat pre ++ r) = r.
Proof.
  intros Hc Hpre Hr. revert fuel. induction Hpre as [|p pre Hp Hpre IH]; intros fuel Hl.
  - cbn. by apply dropWhile_stop.
  - cbn in *. rewrite <- app_assoc in *. destruct fuel as [|fuel].
    + exfalso. destruct Hc as [Hne _]. pose proof (Hne p Hp). destruct p; [done|]. cbn in Hl. lia.
    + cbn. rewrite dropOneOf_code by done. apply IH.
      destruct Hc as [Hne _]. pose proof (Hne p Hp). rewrite length_app in Hl.
      destruct p; [done|]. cbn in Hl. lia.
Qed.

(** Two strings that begin the same string are comparable. *)
Lemma comparable_app p q x y : p ++ x = q ++ y → comparable p q = true.
Proof.
  revert q. induction p as [|a p IH]; intros [|b q]; cbn; try done.
  intros [= -> E]. rewrite Ascii.eqb_refl. by apply IH.
Qed.

(** The check [codeb] is sound. *)
Lemma codeb_sound ps : codeb ps = true → prefixCode ps.
Proof.
  unfold codeb. rewrite forallb_forall. intros H. split.
  - intros p Hp. apply list_elem_of_In in Hp. specialize (H p Hp).
    apply andb_prop in H as [H _]. by destruct p.
  - intros p q x y Hp Hq E. apply list_elem_of_In in Hp, Hq. specialize (H p Hp).
    apply andb_prop in H as [_ H]. rewrite forallb_forall in H. specialize (H q Hq).
    rewrite (comparable_app p q x y E) in H. cbn in H. rewrite orb_false_r in H.
    by apply bool_decide_eq_true in H.
Qed.

(** The encodings of white space are a prefix code, and so are the reversed ones. *)
Lemma spaces_code : prefixCode spaces.
Proof. apply codeb_sound. vm_compute. reflexivity. Qed.

Lemma secaps_code : prefixCode secaps.
Proof. apply codeb_sound. vm_compute. reflexivity. Qed.

(** [trimStart] strips white space from the front until none is left there. *)
Lemma trimStart_spec l :
  ∃ pre, Forall (fun p => p ∈ spaces) pre ∧ l = concat pre ++ Js.trimStart l
         ∧ Js.dropOneOf spaces (Js.trimStart l) = None.
Proof. apply dropWhile_spec; [apply spaces_code | done]. Qed.

(** [trimEnd] does the same from the end. *)
Lemma trimEnd_spec l :
  ∃ pre, Forall (fun p => p ∈ secaps) pre ∧ rev l = concat pre ++ rev (Js.trimEnd l)
         ∧ Js.dropOneOf secaps (rev (Js.trimEnd l)) = None.
Proof.
  unfold Js.trimEnd. rewrite rev_involutive.
  rewrite <- (length_rev l). apply dropWhile_spec; [apply secaps_code | done].
Qed.

(** Strings without white space in front, or at the end, are left as they are. *)
Lemma trimStart_fixed l : Js.dropOneOf spaces l = None → Js.trimStart l = l.
Proof. apply dropWhile_stop. Qed.

Lemma trimEnd_fixed l : Js.dropOneOf secaps (rev l) = None → Js.trimEnd l = l.
Proof.
  intros H. unfold Js.trimEnd. fold secaps. rewrite dropWhile_stop by done. apply rev_involutive.
Qed.

(** What [trimEnd] leaves begins the string it was given. *)
Lemma trimEnd_prefix l : ∃ post, l = Js.trimEnd l ++ post.
Proof.
  destruct (trimEnd_spec l) as (pre & _ & E & _).
  exists (rev (concat pre)). apply (f_equal (@rev ascii)) in E.
  by rewrite rev_involutive, rev_app_distr, rev_involutive in E.
Qed.

(** The bytes of a trimmed string. *)
Lemma trim_list s :
  list_ascii_of_string (Js.trim s) = Js.trimEnd (Js.trimStart (list_ascii_of_string s)).
Proof. unfold Js.trim. apply list_ascii_of_string_of_list_ascii. Qed.

(** Trimming twice is trimming once. *)
Lemma trim_trim s : Js.trim (Js.trim s) = Js.trim s.
Proof.
  unfold Js.trim at 1. rewrite trim_list. set (l := list_ascii_of_string s).
  destruct (trimStart_spec l) as (_ & _ & _ & Hs).
  destruct (trimEnd_spec (Js.trimStart l)) as (_ & _ & _ & He).
  destruct (trimEnd_prefix (Js.trimStart l)) as (post & Ep).
  assert (Ht : Js.trimStart (Js.trimEnd (Js.trimStart l)) = Js.trimEnd (Js.trimStart l)).
  { apply trimStart_fixed, dropOneOf_None. intros p r Hp E. rewrite dropOneOf_None in Hs.
    apply (Hs p (r ++ post) Hp). rewrite Ep, E. by rewrite <- app_assoc. }
  rewrite Ht, trimEnd_fixed by done. reflexivity.
Qed.

(** Members of [map f ws] are the images of members of [ws], and conversely. *)
Lemma Forall_map_elem {A B} (f : A → B) (ws : list A) (pre : list B) :
  Forall (fun p => p ∈ map f ws) pre → ∃ cs, Forall (fun c => c ∈ ws) cs ∧ pre = map f cs.
Proof.
  induction 1 as [|p pre Hp _ (cs & Hcs & ->)]; [by exists []|].
  apply list_elem_of_fmap in Hp as (c & -> & Hc). exists (c :: cs). split; [by constructor | done].
Qed.

Lemma Forall_elem_map {A B} (f : A → B) (ws : list A) (cs : list A) :
  Forall (fun c => c ∈ ws) cs → Forall (fun p => p ∈ map f ws) (map f cs).
Proof.
  induction 1 as [|c cs Hc _ IH]; cbn; constructor; [|done].
  apply list_elem_of_fmap. by exists c.
Qed.

(** Nothing is stripped from the empty string. *)
Lemma dropOneOf_nil ps : (∀ p, p ∈ ps → p ≠ []) → Js.dropOneOf ps [] = None.
Proof.
  intros Hne. apply dropOneOf_None. intros p r Hp E. apply (Hne p Hp).
  symmetry in E. by apply app_eq_nil in E as [? _].
Qed.

(** Reversing a concatenation. *)
Lemma rev_concat {A} (l : list (list A)) : rev (concat l) = concat (map (@rev A) (rev l)).
Proof.
  induction l as [|x l IH]; [done|]. cbn. rewrite rev_app_distr, IH, map_app, concat_app.
  cbn. by rewrite app_nil_r.
Qed.

(** A string made of members of [spaces] which does not begin with one is
    empty. *)
Lemma concat_not_started ps (qs : list (list ascii)) :
  Forall (fun q => q ∈ ps) qs → Js.dropOneOf ps (concat qs) = None → concat qs = [].
Proof.
  intros Hq Hn. destruct Hq as [|q qs Hq _]; [done|]. exfalso.
  rewrite dropOneOf_None in Hn. by apply (Hn q (concat qs) Hq).
Qed.

(** A string is trimmed to the empty string exactly when it is blank. *)
Lemma trim_empty_blank s : Js.trim s = EmptyString ↔ blank s.
Proof.
  split.
  - intros E. apply (f_equal list_ascii_of_string) in E. rewrite trim_list in E. cbn in E.
    set (l := list_ascii_of_string s) in *.
    destruct (trimStart_spec l) as (pre & Hpre & El & Hs).
    destruct (trimEnd_spec (Js.trimStart l)) as (pre' & Hpre' & Er & _).
    rewrite E in Er. cbn in Er. rewrite app_nil_r in Er.
    apply (f_equal (@rev ascii)) in Er. rewrite rev_involutive, rev_concat in Er.
    assert (Hq : Forall (fun q => q ∈ spaces) (map (@rev ascii) (rev pre'))).
    { apply Forall_forall. intros q Hq.
      apply list_elem_of_fmap in Hq as (q' & -> & Hq').
      apply list_elem_of_In, in_rev, list_elem_of_In in Hq'.
      rewrite Forall_forall in Hpre'. apply Hpre' in Hq'.
      unfold secaps in Hq'. apply list_elem_of_fmap in Hq' as (c & -> & Hc).
      rewrite rev_involutive. apply list_elem_of_fmap. by exists c. }
    rewrite Er in Hs. apply concat_not_started in Hs; [|done].
    rewrite <- Er in Hs. rewrite Hs, app_nil_r in El.
    destruct (Forall_map_elem _ _ _ Hpre) as (cs & Hcs & ->). by exists cs.
  - intros (cs & Hcs & El). unfold Js.trim.
    change EmptyString with (string_of_list_ascii []). f_equal.
    rewrite El. unfold Js.trimStart. fold spaces.
    rewrite <- (app_nil_r (concat (map Js.utf8 cs))).
    rewrite dropWhile_concat; [reflexivity | apply spaces_code | | | done].
    + by apply Forall_elem_map.
    + apply dropOneOf_nil, spaces_code.
Qed.

(** What follows a prefix is one of the tails. *)
Lemma tails_elem (a b : list ascii) : b ≠ [] → b ∈ tails (a ++ b).
Proof.
  intros Hb. induction a as [|x a IH]; cbn.
  - destruct b; [done|]. cbn. apply list_elem_of_here.
  - by apply list_elem_of_further.
Qed.

(** The check [alignedb] is sound. *)
Lemma alignedb_sound ps p q (a b t u : list ascii) :
  alignedb ps = true → p ∈ ps → q ∈ ps → q ≠ [] → a ≠ [] → b ≠ [] → p = a ++ b →
  b ++ t ≠ q ++ u.
Proof.
  unfold alignedb. rewrite forallb_forall. intros H Hp Hq Hqn Ha Hb -> E.
  apply list_elem_of_In in Hp. specialize (H _ Hp). rewrite forallb_forall in H.
  assert (Hin : b ∈ tails (tl (a ++ b))).
  { destruct a as [|x a]; [done|]. cbn. by apply tails_elem. }
  apply list_elem_of_In in Hin. specialize (H _ Hin). rewrite forallb_forall in H.
  apply list_elem_of_In in Hq. specialize (H _ Hq).
  destruct b as [|x b]; [done|]. destruct q as [|y q]; [done|].
  cbn in E. injection E as -> _. cbn in H. by rewrite Ascii.eqb_refl in H.
Qed.

(** No encoding of white space straddles a border. *)
Lemma spaces_aligned : alignedb spaces = true.
Proof. vm_compute. reflexivity. Qed.

(** More fuel than the length of the string changes nothing. *)
Lemma dropWhile_fuel ps f f' l :
  (∀ p, p ∈ ps → p ≠ []) → (length l ≤ f)%nat → (length l ≤ f')%nat →
  Js.dropWhile ps f l = Js.dropWhile ps f' l.
Proof.
  intros Hne. revert f' l. induction f as [|f IH]; intros f' l Hf Hf'.
  - destruct l; [|cbn in Hf; lia]. destruct f'; cbn; [done|]. by rewrite dropOneOf_nil.
  - destruct f' as [|f'].
    + destruct l; [|cbn in Hf'; lia]. cbn. by rewrite dropOneOf_nil.
    + cbn. destruct (Js.dropOneOf ps l) as [l'|] eqn:E; [|done].
      destruct (dropOneOf_Some _ _ _ E) as (p & Hp & ->).
      pose proof (Hne p Hp). rewrite length_app in Hf, Hf'.
      destruct p; [done|]. cbn in Hf, Hf'. apply IH; lia.
Qed.

(** Members of a prefix code in front of any string are stripped first. *)
Lemma dropWhile_skip ps f pre x :
  prefixCode ps → Forall (fun p => p ∈ ps) pre → (length (concat pre ++ x) ≤ f)%nat →
  Js.dropWhile ps f (concat pre ++ x) = Js.dropWhile ps (length x) x.
Proof.
  intros Hc Hpre. revert f. induction Hpre as [|p pre Hp Hpre IH]; intros f Hl.
  - cbn in *. apply dropWhile_fuel; [apply Hc | done | done].
  - cbn in *. rewrite <- app_assoc in *. destruct Hc as [Hne Hc'].
    pose proof (Hne p Hp). rewrite length_app in Hl.
    destruct f as [|f]; [destruct p; [done|]; cbn in Hl; lia|].
    cbn. rewrite dropOneOf_code by done. apply IH.
    destruct p; [done|]. cbn in Hl. lia.
Qed.

(** White space in front is stripped by [trimStart], white space at the end by [trimEnd]. *)
Lemma trimStart_front pre x :
  Forall (fun p => p ∈ spaces) pre → Js.trimStart (concat pre ++ x) = Js.trimStart x.
Proof. intros H. apply dropWhile_skip; [apply spaces_code | done | done]. Qed.

Lemma trimEnd_back pre x :
  Forall (fun p => p ∈ secaps) pre → Js.trimEnd (x ++ rev (concat pre)) = Js.trimEnd x.
Proof.
  intros H. unfold Js.trimEnd. f_equal. rewrite rev_app_distr, rev_involutive.
  rewrite <- (length_rev x).
  apply dropWhile_skip; [apply secaps_code | done |].
  by rewrite length_app, !length_rev, length_app, length_rev, Nat.add_comm.
Qed.

(** White space put behind a string that does not begin with white space
    and is not empty does not make it begin with white space. *)
Lemma no_straddle r post :
  r ≠ [] → Js.dropOneOf spaces r = None → Forall (fun p => p ∈ spaces) post →
  Js.dropOneOf spaces (r ++ concat post) = None.
Proof.
  intros Hr Hn Hpost. apply dropOneOf_None. intros p t Hp E.
  rewrite dropOneOf_None in Hn.
  apply app_eq_app in E as [l [[E1 E2]|[E1 E2]]].
  - by apply (Hn p l Hp).
  - destruct l as [|c l].
    { rewrite app_nil_r in E1. subst p. apply (Hn r [] Hp). by rewrite app_nil_r. }
    destruct Hpost as [|q post Hq _]; [cbn in E2; discriminate|].
    change (concat (q :: post)) with (q ++ concat post) in E2. symmetry in E2. revert E2.
    apply (alignedb_sound spaces p q r (c :: l)); try done. by apply spaces_code.
Qed.

(** White space put behind a string with something else in it stays behind it under [trimStart]. *)
Lemma trimStart_back x post :
  Js.trimStart x ≠ [] → Forall (fun p => p ∈ spaces) post →
  Js.trimStart (x ++ concat post) = Js.trimStart x ++ concat post.
Proof.
  intros Hr Hpost. destruct (trimStart_spec x) as (pre & Hpre & Ex & Hn).
  rewrite Ex at 1. rewrite <- app_assoc, trimStart_front by done.
  apply trimStart_fixed. by apply no_straddle.
Qed.

(** A blank string reversed is made of reversed encodings. *)
Lemma blank_concat cs :
  Forall (fun c => c ∈ Js.whiteSpace) cs →
  ∃ pre, Forall (fun p => p ∈ secaps) pre ∧ concat (map Js.utf8 cs) = rev (concat pre).
Proof.
  intros H. exists (map (fun c => rev (Js.utf8 c)) (rev cs)). split.
  - apply Forall_forall. intros p Hp. apply list_elem_of_fmap in Hp as (c & -> & Hc).
    apply list_elem_of_In, in_rev, list_elem_of_In in Hc. rewrite Forall_forall in H.
    apply list_elem_of_fmap. exists c. split; [done | by apply H].
  - rewrite rev_concat, <- map_rev, map_map.
    rewrite rev_involutive. f_equal. apply map_ext. intros c. by rewrite rev_involutive.
Qed.

(** White space before and behind a string is trimmed away. *)
Lemma trim_padded (w1 s w2 : string) :
  blank w1 → blank w2 → Js.trim (w1 ++ s ++ w2)%string = Js.trim s.
Proof.
  intros (c1 & H1 & E1) (c2 & H2 & E2). unfold Js.trim. f_equal.
  rewrite !list_of_append, E1, E2. set (l := list_ascii_of_string s).
  rewrite trimStart_front by (by apply Forall_elem_map).
  destruct (blank_concat c2 H2) as (pre & Hpre & Er).
  destruct (Js.trimStart l) as [|a r] eqn:Es.
  - destruct (trimStart_spec l) as (pl & Hpl & El & _). rewrite Es, app_nil_r in El.
    rewrite El, <- concat_app.
    assert (Hall : Forall (fun p => p ∈ spaces) (pl ++ map Js.utf8 c2)).
    { apply Forall_app. split; [done | by apply Forall_elem_map]. }
    unfold Js.trimStart. fold spaces. rewrite <- (app_nil_r (concat (pl ++ map Js.utf8 c2))).
    rewrite dropWhile_concat; [reflexivity | apply spaces_code | done | | done].
    apply dropOneOf_nil, spaces_code.
  - rewrite trimStart_back; [|by rewrite Es|by apply Forall_elem_map].
    rewrite Es, Er. by apply trimEnd_back.
Qed.

End TrimFacts.

(** ** The request of [geocodeLocation] *)

Lemma N_of_ascii_lt (a : ascii) : (N_of_ascii a < 256)%N.
Proof. apply N_ascii_bounded. Qed.

(** The sixteen hexadecimal digits are different, and none is reserved. *)
Lemma hexDigit_inj (n m : N) :
  (n < 16)%N → (m < 16)%N → Js.hexDigit n = Js.hexDigit m → n = m.
Proof.
  intros Hn Hm E. apply (f_equal N_of_ascii) in E. unfold Js.hexDigit in E.
  destruct (N.ltb_spec n 10), (N.ltb_spec m 10); rewrite !N_ascii_embedding in E by lia; lia.
Qed.

Lemma hexDigit_unreserved (n : N) : (n < 16)%N → Js.unreserved (Js.hexDigit n) = true.
Proof.
  intros Hn.
  assert (H : n ∈ [0;1;2;3;4;5;6;7;8;9;10;11;12;13;14;15]%N).
  { rewrite !elem_of_cons. lia. }
  repeat (apply elem_of_cons in H; destruct H as [->|H]; [reflexivity|]).
  by apply elem_of_nil in H.
Qed.

(** The percent sign is reserved: an escape cannot be taken for a plain byte. *)
Lemma percent_reserved : Js.unreserved "%" = false.
Proof. reflexivity. Qed.

(** [encodeURIComponent] works byte by byte. *)
Lemma encodeURIComponent_app (s t : string) :
  Js.encodeURIComponent (s ++ t) = Js.encodeURIComponent s ++ Js.encodeURIComponent t.
Proof.
  induction s as [|a s IH]; [reflexivity|].
  change (String a s ++ t) with (String a (s ++ t)). cbn [Js.encodeURIComponent].
  rewrite IH. by destruct (Js.unreserved a).
Qed.

(** [encodeURIComponent] is injective. *)
Lemma encodeURIComponent_inj (s t : string) :
  Js.encodeURIComponent s = Js.encodeURIComponent t → s = t.
Proof.
  revert t. induction s as [|a s IH]; intros [|b t]; cbn.
  - done.
  - destruct (Js.unreserved b); discriminate.
  - destruct (Js.unreserved a); discriminate.
  - destruct (Js.unreserved a) eqn:Ea, (Js.unreserved b) eqn:Eb.
    + intros [= -> E]. f_equal. by apply IH.
    + intros [= -> _]. by rewrite percent_reserved in Ea.
    + intros [= <- _]. by rewrite percent_reserved in Eb.
    + intros [= E1 E2 E]. f_equal; [|by apply IH].
      pose proof (N_of_ascii_lt a). pose proof (N_of_ascii_lt b).
      apply hexDigit_inj in E1; [|apply N.Div0.div_lt_upper_bound; lia..].
      apply hexDigit_inj in E2; [|apply N.mod_lt; lia..].
      rewrite <- (ascii_N_embedding a), <- (ascii_N_embedding b). f_equal.
      rewrite (N.div_mod (N_of_ascii a) 16), (N.div_mod (N_of_ascii b) 16) by lia. lia.
Qed.

(** Every byte [encodeURIComponent] gives is a letter, a digit, one of
    [- _ . ! ~ * ' ( )], or the percent sign. *)
Lemma encodeURIComponent_bytes (s : string) (a : ascii) :
  a ∈ list_ascii_of_string (Js.encodeURIComponent s) → Js.unreserved a = true ∨ a = "%"%char.
Proof.
  induction s as [|b s IH]; cbn; [intros H; by apply elem_of_nil in H|].
  destruct (Js.unreserved b) eqn:Eb; cbn.
  - intros [->|H]%elem_of_cons; [by left | by apply IH].
  - pose proof (N_of_ascii_lt b) as Hb.
    intros [->|[->|[->|H]%elem_of_cons]%elem_of_cons]%elem_of_cons; [by right | left.. | by apply IH].
    + apply hexDigit_unreserved, N.Div0.div_lt_upper_bound. lia.
    + apply hexDigit_unreserved, N.mod_lt. lia.
Qed.

(** Strings with the same tail, or the same head, put behind or before them. *)
Lemma string_app_inv_tail (s t u : string) : s ++ u = t ++ u → s = t.
Proof.
  intros E. apply (f_equal list_ascii_of_string) in E.
  rewrite !list_of_append in E. apply app_inv_tail in E.
  rewrite <- (string_of_list_ascii_of_string s), <- (string_of_list_ascii_of_string t).
  by rewrite E.
Qed.

Lemma string_app_inv_head (s t u : string) : u ++ s = u ++ t → s = t.
Proof. induction u as [|c u IH]; cbn; [done|]. intros [= E]. by apply IH. Qed.

(** ** The places of the hazard markers *)

Module HazardFacts.

Import B64 B64Facts.
Local Open Scope Z_scope.

(** Constants, counted in units of 2^-55. *)
Lemma scaled_180 : scaled 180 = 6485183463413514240 * unit1019. Proof. vm_compute. reflexivity. Qed.
Lemma scaled_m180 : scaled (-180) = - (6485183463413514240 * unit1019). Proof. vm_compute. reflexivity. Qed.
Lemma scaled_005 : 2 * scaled 0.05 = 3602879701896397 * unit1019. Proof. vm_compute. reflexivity. Qed.
Lemma scaled_01 : scaled 0.1 = 3602879701896397 * unit1019. Proof. vm_compute. reflexivity. Qed.
Lemma scaled_899 : scaled 89.9 = 3238988852004860928 * unit1019. Proof. vm_compute. reflexivity. Qed.
Lemma scaled_m899 : scaled (-89.9) = - (3238988852004860928 * unit1019). Proof. vm_compute. reflexivity. Qed.
Lemma pow_1029 : 2 ^ (9 + 1020) = 1024 * unit1019. Proof. vm_compute. reflexivity. Qed.
Lemma pow_1029' : 2 ^ (8 + 1021) = 1024 * unit1019. Proof. vm_compute. reflexivity. Qed.
Lemma pow_1083 : 2 ^ (9 + 1074) = 18446744073709551616 * unit1019. Proof. vm_compute. reflexivity. Qed.
Lemma pow_1083' : 2 ^ (8 + 1075) = 18446744073709551616 * unit1019. Proof. vm_compute. reflexivity. Qed.

(** The steps of the hazard markers: [i * 0.05] for the indices 0, 1, 2. *)
Lemma step_0 : (Js.ofIndex 0 * 0.05 = 0)%float. Proof. vm_compute. reflexivity. Qed.
Lemma step_1 : (Js.ofIndex 1 * 0.05 = 0.05)%float. Proof. vm_compute. reflexivity. Qed.
Lemma step_2 : (Js.ofIndex 2 * 0.05 = 0.1)%float. Proof. vm_compute. reflexivity. Qed.

(** Two finite numbers of the same value are equal for [=?]. *)
Lemma eqb_scaled (x y : float) :
  finiteF x = true -> finiteF y = true -> scaled x = scaled y -> (x =? y)%float = true.
Proof.
  unfold finiteF, scaled. intros Fx Fy H. rewrite FloatAxioms.eqb_spec. unfold SFeqb.
  rewrite (SFcompare_value _ _ (prim_inFormat x) (prim_inFormat y) Fx Fy).
  rewrite H, Z.compare_refl. reflexivity.
Qed.

(** Adding or subtracting zero changes neither the value of a number nor
    whether it is finite. *)
Lemma add_zero (x : float) :
  finiteF (x + 0) = finiteF x /\ scaled (x + 0) = scaled x.
Proof.
  unfold finiteF, scaled. rewrite FloatAxioms.add_spec.
  change (Prim2SF 0) with (S754_zero false).
  destruct (Prim2SF x) as [[|]| | |s m e]; split; reflexivity.
Qed.

Lemma sub_zero (x : float) :
  finiteF (x - 0) = finiteF x /\ scaled (x - 0) = scaled x.
Proof.
  unfold finiteF, scaled. rewrite FloatAxioms.sub_spec.
  change (Prim2SF 0) with (S754_zero false).
  destruct (Prim2SF x) as [[|]| | |s m e]; split; reflexivity.
Qed.

(** A valid longitude is finite and at most 180 in absolute value. *)
Lemma lonOK_scaled (x : float) :
  lonOK x -> finiteF x = true /\ Z.abs (scaled x) <= 6485183463413514240 * unit1019.
Proof.
  intros [H1 H2].
  assert (F : finiteF x = true) by (apply (between_fin (-180) x 180); auto).
  split; [exact F|].
  apply leb_scaled in H1; [|reflexivity|exact F]. apply leb_scaled in H2; [|exact F|reflexivity].
  rewrite scaled_m180 in H1. rewrite scaled_180 in H2. lia.
Qed.

(** The midpoint of two valid longitudes: twice it is the sum, up to 2^-44. *)
Lemma lon_mid_bound (s e : float) :
  lonOK s -> lonOK e ->
  finiteF ((s + e) / 2) = true
  /\ Z.abs (2 * scaled ((s + e) / 2) - (scaled s + scaled e)) <= 2048 * unit1019.
Proof.
  intros Hs He. pose proof unit1019_pos.
  destruct (lonOK_scaled s Hs) as [Fs Bs]. destruct (lonOK_scaled e He) as [Fe Be].
  destruct (add_bound s e 9 Fs Fe ltac:(lia)) as [Fse Bse].
  { rewrite pow_1083. lia. }
  rewrite pow_1029 in Bse.
  destruct (half_bound (s + e) 8 Fse ltac:(lia)) as [Fm Bm].
  { rewrite pow_1083'. lia. }
  rewrite pow_1029' in Bm.
  split; [exact Fm|]. lia.
Qed.

(** A number of absolute value below 256 moved by a step [c] of absolute
    value below 1: the sum and the difference are off by at most 2^-46. *)
Lemma step_bound (m c : float) :
  finiteF m = true -> finiteF c = true ->
  Z.abs (scaled m) <= 6485183463413514240 * unit1019 + 1024 * unit1019 ->
  Z.abs (scaled c) <= 36028797018963968 * unit1019 ->
  finiteF (m + c) = true /\ finiteF (m - c) = true
  /\ Z.abs (scaled (m + c) - (scaled m + scaled c)) <= 512 * unit1019
  /\ Z.abs (scaled (m - c) - (scaled m - scaled c)) <= 512 * unit1019.
Proof.
  intros Fm Fc Bm Bc. pose proof unit1019_pos.
  destruct (add_bound m c 8 Fm Fc ltac:(lia)) as [Fa Ba].
  { rewrite pow_1082. lia. }
  destruct (sub_bound m c 8 Fm Fc ltac:(lia)) as [Fb Bb].
  { rewrite pow_1082. lia. }
  rewrite pow_1028 in Ba, Bb. auto.
Qed.

(** The latitudes of the hazard markers lie in increasing order between
    those of the two routes, the first one on the midpoint. *)
Lemma hazard_lats (s e : float) :
  latOK s -> latOK e ->
  let m := ((s + e) / 2)%float in
  ((m + Js.ofIndex 0 * 0.05 =? m)%float = true)
  /\ ((m - 0.15 <? m + Js.ofIndex 0 * 0.05)%float = true)
  /\ ((m + Js.ofIndex 0 * 0.05 <? m + Js.ofIndex 1 * 0.05)%float = true)
  /\ ((m + Js.ofIndex 1 * 0.05 <? m + Js.ofIndex 2 * 0.05)%float = true)
  /\ ((m + Js.ofIndex 2 * 0.05 <? m + 0.15)%float = true).
Proof.
  intros Hs He m. pose proof unit1019_pos.
  destruct (latOK_scaled s Hs) as [Fs Bs]. destruct (latOK_scaled e He) as [Fe Be].
  destruct (mid_bound s e Hs He) as [Fm Bm]. fold m in Fm, Bm.
  rewrite step_0, step_1, step_2.
  destruct (add_zero m) as [F0 S0]. rewrite Fm in F0.
  destruct (step_bound m 0.05 Fm ltac:(reflexivity)) as (F1 & _ & B1 & _);
    [lia | pose proof scaled_005; lia |].
  destruct (step_bound m 0.1 Fm ltac:(reflexivity)) as (F2 & _ & B2 & _);
    [lia | rewrite scaled_01; lia |].
  destruct (step_bound m 0.15 Fm ltac:(reflexivity)) as (FA & FB & BA & BB);
    [lia | rewrite scaled_015; lia |].
  pose proof scaled_005. rewrite scaled_01 in B2. rewrite scaled_015 in BA, BB.
  split; [by apply eqb_scaled|].
  repeat split; apply ltb_scaled; auto; lia.
Qed.

(** Their longitudes lie in decreasing order, the first one on the
    midpoint. *)
Lemma hazard_lons (s e : float) :
  lonOK s -> lonOK e ->
  let n := ((s + e) / 2)%float in
  ((n - Js.ofIndex 0 * 0.05 =? n)%float = true)
  /\ ((n - Js.ofIndex 1 * 0.05 <? n - Js.ofIndex 0 * 0.05)%float = true)
  /\ ((n - Js.ofIndex 2 * 0.05 <? n - Js.ofIndex 1 * 0.05)%float = true).
Proof.
  intros Hs He n. pose proof unit1019_pos.
  destruct (lonOK_scaled s Hs) as [Fs Bs]. destruct (lonOK_scaled e He) as [Fe Be].
  destruct (lon_mid_bound s e Hs He) as [Fn Bn]. fold n in Fn, Bn.
  rewrite step_0, step_1, step_2.
  destruct (sub_zero n) as [F0 S0]. rewrite Fn in F0.
  destruct (step_bound n 0.05 Fn ltac:(reflexivity)) as (_ & F1 & _ & B1);
    [lia | pose proof scaled_005; lia |].
  destruct (step_bound n 0.1 Fn ltac:(reflexivity)) as (_ & F2 & _ & B2);
    [lia | rewrite scaled_01; lia |].
  pose proof scaled_005. rewrite scaled_01 in B2.
  split; [by apply eqb_scaled|].
  repeat split; apply ltb_scaled; auto; lia.
Qed.

(** Near a pole the latitude of a route leaves the range of latitudes. *)
Lemma beyond_north (s e : float) :
  latOK s -> latOK e -> (89.9 <=? s)%float = true -> (89.9 <=? e)%float = true ->
  scaled 90 < scaled ((s + e) / 2 + 0.15) /\ finiteF ((s + e) / 2 + 0.15) = true.
Proof.
  intros Hs He Ls Le. pose proof unit1019_pos.
  destruct (latOK_scaled s Hs) as [Fs Bs]. destruct (latOK_scaled e He) as [Fe Be].
  destruct (mid_bound s e Hs He) as [Fm Bm].
  destruct (offsets_bound ((s + e) / 2) Fm ltac:(lia)) as (Fa & _ & Ba & _).
  apply leb_scaled in Ls; [|reflexivity|exact Fs]. apply leb_scaled in Le; [|reflexivity|exact Fe].
  rewrite scaled_899 in Ls, Le. rewrite scaled_90. split; [lia | exact Fa].
Qed.

(** The same near the south pole. *)
Lemma beyond_south (s e : float) :
  latOK s -> latOK e -> (s <=? -89.9)%float = true -> (e <=? -89.9)%float = true ->
  scaled ((s + e) / 2 - 0.15) < scaled (-90) /\ finiteF ((s + e) / 2 - 0.15) = true.
Proof.
  intros Hs He Ls Le. pose proof unit1019_pos.
  destruct (latOK_scaled s Hs) as [Fs Bs]. destruct (latOK_scaled e He) as [Fe Be].
  destruct (mid_bound s e Hs He) as [Fm Bm].
  destruct (offsets_bound ((s + e) / 2) Fm ltac:(lia)) as (_ & Fb & _ & Bb).
  apply leb_scaled in Ls; [|exact Fs|reflexivity]. apply leb_scaled in Le; [|exact Fe|reflexivity].
  rewrite scaled_m899 in Ls, Le. rewrite scaled_m90. split; [lia | exact Fb].
Qed.

End HazardFacts.

(** ** Layers, requests and alerts under any events *)

(** [click] writes the result and moves the popup, nothing else. *)
Lemma click_rest h st :
  objects (click h st) = objects st ∧ nextId (click h st) = nextId st
  ∧ onMap (click h st) = onMap st ∧ tracked (click h st) = tracked st.
Proof.
  unfold click. destruct (decide (h ∈ onMap st)); [|done].
  destruct (objects st !! h) as [[| ? ? [?|] |? ? ? ls]|]; try done.
  rewrite foldl_set_result. done.
Qed.

(** [clearMap] and [shown] on the layers the variables hold. *)
Lemma tracked_clearMap st : tracked (clearMap st) ⊆ tracked st.
Proof. rewrite clearMap_eq. unfold tracked. cbn. set_solver. Qed.

Lemma tracked_shown p q st :
  tracked (shown p q st) ⊆ list_to_set (created st) ∪ list_to_set (hazardMarkers st).
Proof.
  unfold tracked, shown, created, held. cbn [routeA routeB startMarker endMarker hazardMarkers].
  rewrite list_to_set_app_L. cbn [list_to_set]. set_solver.
Qed.

(** The hazard markers are held. *)
Lemma hazardMarkers_tracked st : list_to_set (hazardMarkers st) ⊆ tracked st.
Proof. unfold tracked. set_solver. Qed.

(** A layer no variable holds stays one, as it is, under [shown], [clearMap], [findRoute], [resume], one event and any events. *)
Lemma untracked_shown p q st h :
  untracked st h →
  untracked (shown p q st) h ∧ objects (shown p q st) !! h = objects st !! h.
Proof.
  intros (Hm & Ht & Hn). split; [split; [|split]|].
  - rewrite shown_onMap. by apply elem_of_union_r.
  - intros Hin. apply tracked_shown in Hin. apply elem_of_union in Hin as [Hin|Hin].
    + apply elem_of_list_to_set, created_fresh in Hin. lia.
    + by apply Ht, hazardMarkers_tracked.
  - unfold shown. cbn [nextId]. lia.
  - by apply shown_old.
Qed.

Lemma untracked_clearMap st h :
  untracked st h →
  untracked (clearMap st) h ∧ objects (clearMap st) !! h = objects st !! h.
Proof.
  intros (Hm & Ht & Hn). split; [split; [|split]|].
  - rewrite clearMap_eq. cbn. by apply elem_of_difference.
  - intros Hin. by apply Ht, tracked_clearMap.
  - by rewrite clearMap_eq.
  - by rewrite clearMap_eq.
Qed.

Lemma untracked_findRoute sv ev st h :
  untracked st h →
  untracked (snd (findRoute sv ev st)) h
  ∧ objects (snd (findRoute sv ev st)) !! h = objects st !! h.
Proof.
  intros H. unfold findRoute.
  destruct (Js.falsy (Js.trim sv) || Js.falsy (Js.trim ev)); [done|].
  exact (untracked_clearMap st h H).
Qed.

Lemma untracked_resume k r st h :
  untracked st h →
  untracked (snd (resume k r st)) h
  ∧ objects (snd (resume k r st)) !! h = objects st !! h.
Proof.
  intros H. unfold resume. destruct k as [endName|start];
    destruct (geocodeResult r) as [p|message]; cbn [snd];
    [exact (conj H eq_refl) | exact (conj H eq_refl) | | exact (conj H eq_refl)].
  rewrite showRoutes_shown. by apply untracked_shown.
Qed.

Lemma untracked_step sys e h :
  untracked (page sys) h →
  untracked (page (step sys e)) h
  ∧ objects (page (step sys e)) !! h = objects (page sys) !! h.
Proof.
  intros H. destruct e as [sv ev|i r|c]; cbn [step].
  - pose proof (untracked_findRoute sv ev (page sys) h H) as H'.
    by destruct (findRoute sv ev (page sys)).
  - destruct (calls sys !! i) as [[k|]|]; try done.
    pose proof (untracked_resume k r (page sys) h H) as H'.
    by destruct (resume k r (page sys)).
  - cbn [page]. destruct (click_rest c (page sys)) as (Eo & En & Em & Et).
    destruct H as (Hm & Ht & Hn). unfold untracked. by rewrite Eo, En, Em, Et.
Qed.

Lemma untracked_run events sys h :
  untracked (page sys) h →
  untracked (page (run events sys)) h
  ∧ objects (page (run events sys)) !! h = objects (page sys) !! h.
Proof.
  revert sys. induction events as [|e events IH]; intros sys H; [done|].
  change (run (e :: events) sys) with (run events (step sys e)).
  destruct (untracked_step sys e h H) as [H' E]. destruct (IH _ H') as [H'' E'].
  split; [done | by rewrite E'].
Qed.

(** Every layer on the map has a handle below the next one, on every page
    the event loop reaches from a page where it is so, the first page
    among them. *)
Lemma below_findRoute sv ev st : below st → below (snd (findRoute sv ev st)).
Proof.
  intros H. unfold findRoute.
  destruct (Js.falsy (Js.trim sv) || Js.falsy (Js.trim ev)); [exact H|].
  cbn [snd]. by apply below_fetch, below_clearMap.
Qed.

Lemma below_resume k r st : below st → below (snd (resume k r st)).
Proof.
  intros H. unfold resume. destruct k as [endName|start];
    destruct (geocodeResult r) as [p|message]; cbn [snd];
    [by apply below_fetch | exact H | | exact H].
  rewrite showRoutes_shown. by apply shown_below.
Qed.

Lemma below_step sys e : below (page sys) → below (page (step sys e)).
Proof.
  intros H. destruct e as [sv ev|i r|c]; cbn [step].
  - pose proof (below_findRoute sv ev (page sys) H) as H'.
    by destruct (findRoute sv ev (page sys)).
  - destruct (calls sys !! i) as [[k|]|]; try done.
    pose proof (below_resume k r (page sys) H) as H'.
    by destruct (resume k r (page sys)).
  - cbn [page]. destruct (click_rest c (page sys)) as (Eo & En & Em & Et).
    unfold below. by rewrite En, Em.
Qed.

Lemma below_run events sys : below (page sys) → below (page (run events sys)).
Proof.
  revert sys. induction events as [|e events IH]; intros sys H; [exact H|].
  apply IH. by apply below_step.
Qed.

Lemma below_reached html events :
  below (page (run events (mkSystem (initial html) []))).
Proof. apply below_run. exact (proj1 (consistent_initial html)). Qed.

(** ** Further properties *)

(** The fields of a page that [alert], [fetch] and [showError] leave alone. *)
Lemma overlays_alert s st : overlays (alert s st) = overlays st.
Proof. reflexivity. Qed.

Lemma overlays_fetch url st : overlays (fetch url st) = overlays st.
Proof. reflexivity. Qed.

Lemma overlays_showError m st : overlays (showError m st) = overlays st.
Proof. reflexivity. Qed.

(** X1. A press of the button is rejected, with the alert and nothing else,
    as soon as one field is blank (empty, or white space only: spaces, tabs,
    line ends, any ECMAScript white space); when neither field is blank the
    call clears the map and sends the request for the trimmed start name. *)
Theorem blank_field_rejected sv ev st :
  (blank sv ∨ blank ev → findRoute sv ev st = (None, alert enterBoth st))
  ∧ (¬ blank sv → ¬ blank ev →
     findRoute sv ev st
     = (Some (AwaitStart (Js.trim ev)), fetch (geocodeUrl (Js.trim sv)) (clearMap st))).
Proof.
  split.
  - intros H. apply findRoute_invalid. by rewrite !TrimFacts.trim_empty_blank.
  - intros Hs He. apply findRoute_valid; by rewrite TrimFacts.trim_empty_blank.
Qed.

Lemma blank_field_rejected_witness :
  blank (" " ++ String "009"%char (String "010"%char EmptyString))
  ∧ (¬ blank "Pokhara")
  ∧ fst (findRoute (" " ++ String "009"%char (String "010"%char EmptyString)) "Pokhara"
           (initial EmptyString)) = None
  ∧ fst (findRoute "Pokhara" "Pokhara" (initial EmptyString)) = Some (AwaitStart "Pokhara").
Proof.
  assert (H1 : blank (" " ++ String "009"%char (String "010"%char EmptyString))).
  { exists [32; 9; 10]%N. split; [|reflexivity].
    repeat constructor; rewrite !elem_of_cons; tauto. }
  assert (H2 : ¬ blank "Pokhara").
  { rewrite <- TrimFacts.trim_empty_blank. vm_compute. discriminate. }
  split; [exact H1|]. split; [exact H2|].
  destruct (blank_field_rejected (" " ++ String "009"%char (String "010"%char EmptyString))
              "Pokhara" (initial EmptyString)) as [Hr _].
  destruct (blank_field_rejected "Pokhara" "Pokhara" (initial EmptyString)) as [_ Ha].
  rewrite (Hr (or_introl H1)), (Ha H2 H2). split; reflexivity.
Defined.

(** X2. White space before and behind the field values does not count: the
    call and the whole search are the same with it and without it, and the
    same for the trimmed values. *)
Theorem surrounding_space_ignored w1 w2 w3 w4 sv ev r1 r2 st :
  blank w1 → blank w2 → blank w3 → blank w4 →
  findRoute (w1 ++ sv ++ w2) (w3 ++ ev ++ w4) st = findRoute sv ev st
  ∧ search (w1 ++ sv ++ w2) (w3 ++ ev ++ w4) r1 r2 st = search sv ev r1 r2 st
  ∧ findRoute (Js.trim sv) (Js.trim ev) st = findRoute sv ev st.
Proof.
  intros H1 H2 H3 H4.
  assert (E : findRoute (w1 ++ sv ++ w2) (w3 ++ ev ++ w4) st = findRoute sv ev st).
  { unfold findRoute. by rewrite !TrimFacts.trim_padded. }
  split; [exact E|]. split; [unfold search; by rewrite E|].
  unfold findRoute. by rewrite !TrimFacts.trim_trim.
Qed.

Lemma surrounding_space_ignored_witness :
  blank "  " ∧ blank Js.nl
  ∧ findRoute ("  " ++ "Pokhara" ++ Js.nl) (Js.nl ++ "Kathmandu" ++ "  ") (initial EmptyString)
    = findRoute "Pokhara" "Kathmandu" (initial EmptyString).
Proof.
  assert (H1 : blank "  ").
  { exists [32; 32]%N. split; [|reflexivity]. repeat constructor; rewrite !elem_of_cons; tauto. }
  assert (H2 : blank Js.nl).
  { exists [10]%N. split; [|reflexivity]. repeat constructor; rewrite !elem_of_cons; tauto. }
  split; [exact H1|]. split; [exact H2|].
  exact (proj1 (surrounding_space_ignored "  " Js.nl Js.nl "  " "Pokhara" "Kathmandu"
                  (Json []) (Json []) (initial EmptyString) H1 H2 H2 H1)).
Defined.

(** X3. Two different place names never give the same request:
    [geocodeUrl], and with it [encodeURIComponent], is injective. *)
Theorem requests_distinct (p q : string) : p ≠ q → geocodeUrl p ≠ geocodeUrl q.
Proof.
  intros Hne E. apply Hne. unfold geocodeUrl in E.
  apply string_app_inv_head in E. apply encodeURIComponent_inj in E.
  by apply string_app_inv_tail in E.
Qed.

Lemma requests_distinct_witness :
  geocodeUrl "Main Road" ≠ geocodeUrl "Main%20Road" ∧ geocodeUrl "a&b" ≠ geocodeUrl "a".
Proof.
  split; apply requests_distinct; discriminate.
Defined.

(** X4. The request of [geocodeLocation] is the fixed query followed by the
    encoded name and the encoded [", Nepal"]; every byte after [q=] is a
    letter, a digit, one of [- _ . ! ~ * ' ( )] or the percent sign, so that
    no [&], [=], [#], [?], [/], space or [+] of a name can end the parameter
    or begin another. *)
Theorem request_shape (place : string) :
  geocodeUrl place
  = "https://nominatim.openstreetmap.org/search?format=json&limit=1&q="
    ++ Js.encodeURIComponent place ++ "%2C%20Nepal"
  ∧ ∀ a : ascii,
      a ∈ list_ascii_of_string (Js.encodeURIComponent place ++ "%2C%20Nepal") →
      (Js.unreserved a = true ∨ a = "%"%char)
      ∧ a ≠ "&"%char ∧ a ≠ "="%char ∧ a ≠ "#"%char ∧ a ≠ "?"%char ∧ a ≠ "/"%char
      ∧ a ≠ " "%char ∧ a ≠ "+"%char.
Proof.
  assert (E : Js.encodeURIComponent (place ++ ", Nepal")
              = Js.encodeURIComponent place ++ "%2C%20Nepal").
  { by rewrite encodeURIComponent_app. }
  split; [unfold geocodeUrl; by rewrite E|].
  intros a Ha. rewrite <- E in Ha. apply encodeURIComponent_bytes in Ha.
  split; [exact Ha|].
  repeat split; intros ->; destruct Ha as [Ha|Ha]; discriminate.
Qed.

(** X5. The requests of a search whose fields are not blank: when the start
    name resolves, exactly two leave, for the trimmed start name and then for
    the trimmed destination; when it does not, the request for the start name
    is the only one. No alert is shown. *)
Theorem requests_in_order sv ev r1 r2 st :
  Js.trim sv ≠ EmptyString → Js.trim ev ≠ EmptyString →
  let st' := search sv ev r1 r2 st in
  (∀ start, geocodeResult r1 = inl start →
     fetched st' = (fetched st ++ [geocodeUrl (Js.trim sv); geocodeUrl (Js.trim ev)])%list)
  ∧ (∀ message, geocodeResult r1 = inr message →
       fetched st' = (fetched st ++ [geocodeUrl (Js.trim sv)])%list)
  ∧ alerts st' = alerts st.
Proof.
  intros Hs He st'. subst st'. rewrite search_outcome by assumption. unfold outcome.
  assert (Ec : fetched (clearMap st) = fetched st ∧ alerts (clearMap st) = alerts st)
    by (by rewrite clearMap_eq).
  destruct Ec as [Ef Ea].
  destruct (geocodeResult r1) as [p|m1].
  - destruct (geocodeResult r2) as [q|m2]; [rewrite showRoutes_shown; unfold shown|];
      cbn [showError set_result fetched alerts fetch]; rewrite Ef, Ea, <- app_assoc;
      (split; [intros _ _; reflexivity | split; [intros ? [=] | reflexivity]]).
  - cbn [showError set_result fetched alerts fetch]. rewrite Ef, Ea.
    split; [intros ? [=] | split; [intros _ _; reflexivity | reflexivity]].
Qed.

Lemma requests_in_order_witness :
  Js.trim " Pokhara" ≠ EmptyString ∧ Js.trim "Kathmandu" ≠ EmptyString
  ∧ fetched (search " Pokhara" "Kathmandu" (Json []) (Json [kathmandu]) (initial EmptyString))
    = [geocodeUrl "Pokhara"].
Proof.
  assert (H1 : Js.trim " Pokhara" ≠ EmptyString) by nonempty.
  assert (H2 : Js.trim "Kathmandu" ≠ EmptyString) by nonempty.
  split; [exact H1|]. split; [exact H2|].
  destruct (requests_in_order " Pokhara" "Kathmandu" (Json []) (Json [kathmandu])
              (initial EmptyString) H1 H2) as (_ & Hf & _).
  exact (Hf _ eq_refl).
Defined.





(** A search creates seven layers. *)
Lemma size_created st : size (list_to_set (created st) : gset Handle) = 7%nat.
Proof. rewrite size_list_to_set by apply created_NoDup. reflexivity. Qed.

(** One search on a consistent page leaves no overlay or seven. *)
Lemma search_count sv ev r1 r2 st :
  consistent st →
  (size (overlays st) = 0 ∨ size (overlays st) = 7)%nat →
  (size (overlays (search sv ev r1 r2 st)) = 0
   ∨ size (overlays (search sv ev r1 r2 st)) = 7)%nat.
Proof.
  intros Hc Hn.
  destruct (decide (Js.trim sv = EmptyString ∨ Js.trim ev = EmptyString)) as [Hi|Hv].
  - unfold search. rewrite findRoute_invalid by assumption. exact Hn.
  - rewrite search_outcome by tauto. unfold outcome.
    destruct (clearMap_cleared st Hc) as (Hb & Ho & Hh).
    destruct (geocodeResult r1) as [p|m1].
    + destruct (geocodeResult r2) as [q|m2].
      * right. rewrite showRoutes_shown.
        assert (Hcl : cleared (fetch (geocodeUrl (Js.trim ev))
                                 (fetch (geocodeUrl (Js.trim sv)) (clearMap st))))
          by (by apply cleared_fetch, cleared_fetch, clearMap_cleared).
        destruct (shown_session p q _ Hcl) as (-> & _ & _). apply size_created.
      * left. rewrite overlays_showError, !overlays_fetch, Ho. apply size_empty.
    + left. rewrite overlays_showError, overlays_fetch, Ho. apply size_empty.
Qed.

(** X8. Searches run one after the other from the first page, with whatever
    field values, each one rejected, failed at the geocoder or for places
    with valid coordinates: the page stays consistent (every overlay of the
    map is held by a variable), and the map has no overlay or exactly
    seven. *)
Theorem sequential_sessions (l : list Query) (html : string) :
  Forall validQuery l →
  let st := searches l (initial html) in
  below st
  ∧ overlays st ⊆ tracked st
  ∧ (size (overlays st) = 0 ∨ size (overlays st) = 7)%nat.
Proof.
  intros _ st.
  assert (H : consistent st ∧ (size (overlays st) = 0 ∨ size (overlays st) = 7)%nat).
  { subst st. unfold searches.
    assert (H0 : consistent (initial html)
                 ∧ (size (overlays (initial html)) = 0
                    ∨ size (overlays (initial html)) = 7)%nat).
    { split; [apply consistent_initial|]. left.
      assert (Ht : tracked (initial html) = ∅) by (unfold tracked, initial; cbn; set_solver).
      destruct (consistent_initial html) as [_ Hs]. rewrite Ht in Hs.
      assert (Ho : overlays (initial html) = ∅) by set_solver.
      rewrite Ho. apply size_empty. }
    revert H0. generalize (initial html). induction l as [|q l IH]; intros s0 [Hc Hn]; [done|].
    cbn [foldl]. apply IH. split; [by apply consistent_search | by apply search_count]. }
  destruct H as [[Hb Hs] Hn]. split; [exact Hb|]. split; [exact Hs | exact Hn].
Qed.

Lemma sequential_sessions_witness :
  Forall validQuery
    [ mkQuery "Pokhara" "Kathmandu" (Json [pokhara]) (Json [kathmandu]);
      mkQuery "Dharan" "Atlantis" (Json [dharan]) (Json []);
      mkQuery "Biratnagar" "   " (Json [biratnagar]) (Json [dharan]) ]
  ∧ size (overlays (searches
       [ mkQuery "Pokhara" "Kathmandu" (Json [pokhara]) (Json [kathmandu]);
         mkQuery "Dharan" "Atlantis" (Json [dharan]) (Json []);
         mkQuery "Biratnagar" "   " (Json [biratnagar]) (Json [dharan]) ]
       (initial EmptyString))) = 0%nat.
Proof.
  assert (H : Forall validQuery
    [ mkQuery "Pokhara" "Kathmandu" (Json [pokhara]) (Json [kathmandu]);
      mkQuery "Dharan" "Atlantis" (Json [dharan]) (Json []);
      mkQuery "Biratnagar" "   " (Json [biratnagar]) (Json [dharan]) ]).
  { apply List.Forall_cons;
      [|apply List.Forall_cons; [|apply List.Forall_cons; [|apply List.Forall_nil]]];
      intros p q E1 E2; vm_compute in E1, E2; try discriminate E2;
      injection E1 as <-; injection E2 as <-; vm_compute; auto. }
  split; [exact H|].
  destruct (sequential_sessions _ EmptyString H) as (_ & _ & [H0|H7]); [exact H0|].
  exfalso. revert H7. vm_compute. discriminate.
Defined.

(** X9. A layer of the map that no variable of the script holds is never
    removed and never changed, whatever events follow (presses, answers,
    clicks): [clearMap] only removes what the variables hold. The tile layer
    is such a layer. *)
Theorem untracked_layers_stay (events : list Event) (sys : System) (h : Handle) :
  untracked (page sys) h →
  let st' := page (run events sys) in
  h ∈ onMap st' ∧ (h ∉ tracked st') ∧ objects st' !! h = objects (page sys) !! h.
Proof.
  intros H st'. subst st'. revert sys H.
  induction events as [|e events IH]; intros sys H.
  - destruct H as (Hm & Ht & _). done.
  - change (run (e :: events) sys) with (run events (step sys e)).
    destruct (untracked_step sys e h H) as [H' E].
    destruct (IH _ H') as (Hm & Ht & Eo). rewrite Eo, E. done.
Qed.

Lemma untracked_layers_stay_witness :
  untracked (initial EmptyString) 1%positive
  ∧ 1%positive ∈ onMap (page (run [Press "Pokhara" "Kathmandu"; Reply 0 (Json [pokhara]);
                                   Press "Dharan" "Atlantis"; Reply 0 (Json [kathmandu]);
                                   Click 5%positive; Reply 1 (Json [dharan]);
                                   Reply 1 (Json [])]
                                (mkSystem (initial EmptyString) []))).
Proof.
  assert (H : untracked (initial EmptyString) 1%positive).
  { unfold untracked, tracked, initial. cbn. split; [set_solver|]. split; [set_solver | lia]. }
  split; [exact H|].
  exact (proj1 (untracked_layers_stay _ (mkSystem (initial EmptyString) []) 1%positive H)).
Defined.

(** X10. Only a press takes layers off the map: it leaves the map as it is
    (when rejected) or removes the layers the variables hold; an answer of
    the geocoder only adds layers; a click changes nothing on the map. *)
Theorem only_a_press_removes (sys : System) :
  (∀ sv ev, onMap (page (step sys (Press sv ev))) = onMap (page sys)
            ∨ onMap (page (step sys (Press sv ev))) = onMap (page sys) ∖ tracked (page sys))
  ∧ (∀ i r, onMap (page sys) ⊆ onMap (page (step sys (Reply i r))))
  ∧ (∀ h, onMap (page (step sys (Click h))) = onMap (page sys)).
Proof.
  split; [|split].
  - intros sv ev. cbn [step]. unfold findRoute.
    destruct (Js.falsy (Js.trim sv) || Js.falsy (Js.trim ev)); [by left|].
    right. cbn [page onMap fetch]. by rewrite clearMap_eq.
  - intros i r. cbn [step]. destruct (calls sys !! i) as [[k|]|]; try done.
    unfold resume. destruct k as [endName|start];
      destruct (geocodeResult r) as [p|message]; try done.
    cbn [page]. rewrite showRoutes_shown, shown_onMap. apply union_subseteq_r.
  - intros h. cbn [step page]. by destruct (click_rest h (page sys)) as (_ & _ & -> & _).
Qed.

(** X11. [clearMap] takes off the map exactly the layers the variables
    hold, closes the open popup when its marker is one of them, and empties
    the hazard list; it does not reset the four route and marker variables,
    which go on holding the removed layers, and it leaves the layer objects,
    the viewport and [#result] as they are. *)
Theorem clearMap_removes_held (st : Page) :
  onMap (clearMap st) = onMap st ∖ tracked st
  ∧ popupOpen (clearMap st) = popupAfter (tracked st) st
  ∧ hazardMarkers (clearMap st) = []
  ∧ routeA (clearMap st) = routeA st ∧ routeB (clearMap st) = routeB st
  ∧ startMarker (clearMap st) = startMarker st ∧ endMarker (clearMap st) = endMarker st
  ∧ objects (clearMap st) = objects st ∧ nextId (clearMap st) = nextId st
  ∧ view (clearMap st) = view st ∧ result (clearMap st) = result st.
Proof.
  rewrite clearMap_removeAll, removeAll_eq, heldList_tracked.
  cbn [set_hazardMarkers set_leaflet onMap popupOpen hazardMarkers routeA routeB startMarker
       endMarker objects nextId view result].
  repeat split.
Qed.

(** The variables, the hazard list and the next handle after [shown]. *)
Lemma shown_variables p q s :
  startMarker (shown p q s) = Some (nextId s)
  ∧ endMarker (shown p q s) = Some (Pos.succ (nextId s))
  ∧ routeA (shown p q s) = Some (Pos.succ (Pos.succ (nextId s)))
  ∧ routeB (shown p q s) = Some (Pos.succ (Pos.succ (Pos.succ (nextId s))))
  ∧ hazardMarkers (shown p q s)
    = (hazardMarkers s
       ++ [ Pos.succ (Pos.succ (Pos.succ (Pos.succ (nextId s))));
            Pos.succ (Pos.succ (Pos.succ (Pos.succ (Pos.succ (nextId s)))));
            Pos.succ (Pos.succ (Pos.succ (Pos.succ (Pos.succ (Pos.succ (nextId s)))))) ])%list
  ∧ nextId (shown p q s)
    = Pos.succ (Pos.succ (Pos.succ (Pos.succ (Pos.succ (Pos.succ (Pos.succ (nextId s))))))).
Proof. repeat split; reflexivity. Qed.

(** A request leaves the hazard list as it is. *)
Lemma hazardMarkers_fetch url st : hazardMarkers (fetch url st) = hazardMarkers st.
Proof. reflexivity. Qed.

(** One of four successive handles is one of the four, and lies in their
    range. *)
Lemma four_of_seven (n h : positive) :
  Some h ∈ [ Some n; Some (Pos.succ n); Some (Pos.succ (Pos.succ n));
             Some (Pos.succ (Pos.succ (Pos.succ n))) ] →
  (h = n ∨ h = Pos.succ n ∨ h = Pos.succ (Pos.succ n) ∨ h = Pos.succ (Pos.succ (Pos.succ n)))
  ∧ (n ≤ h)%positive ∧ (h < Pos.succ (Pos.succ (Pos.succ (Pos.succ n))))%positive.
Proof.
  rewrite !elem_of_cons, elem_of_nil.
  intros [H|[H|[H|[H|[]]]]]; injection H as ->; (split; [tauto | lia]).
Qed.

(** The hazard list is empty when both calls have cleared the map. *)
Lemma bothBegun_hazards svA evA svB evB st : hazardMarkers (bothBegun svA evA svB evB st) = [].
Proof. unfold bothBegun. rewrite !hazardMarkers_fetch. apply clearMap_hazards. Qed.

(** X12. When search B overtakes search A and A's late answers are then
    shown, all places with valid coordinates, the two end markers and the two
    routes of B are overlays that no variable holds any more: they stay on
    the map, unchanged, through every later event, also through later
    searches. *)
Theorem overtaken_routes_stay st svA evA svB evB rA1 rA2 rB1 rB2 pA qA pB qB later :
  Js.trim svA ≠ EmptyString → Js.trim evA ≠ EmptyString →
  Js.trim svB ≠ EmptyString → Js.trim evB ≠ EmptyString →
  geocodeResult rA1 = inl pA → geocodeResult rA2 = inl qA →
  geocodeResult rB1 = inl pB → geocodeResult rB2 = inl qB →
  validCoordinate pA → validCoordinate qA → validCoordinate pB → validCoordinate qB →
  let sys0 := mkSystem st [] in
  let afterB := page (run (overlapped svA evA svB evB rB1 rB2) sys0) in
  let final :=
    page (run (overlapped svA evA svB evB rB1 rB2 ++ [Reply 0 rA1; Reply 0 rA2] ++ later)
            sys0) in
  ∀ h : Handle,
    Some h ∈ [startMarker afterB; endMarker afterB; routeA afterB; routeB afterB] →
    h ∈ overlays final ∧ (h ∉ tracked final) ∧ objects final !! h = objects afterB !! h.
Proof.
  intros HsA HeA HsB HeB HA1 HA2 HB1 HB2 _ _ _ _ sys0 afterB final h Hh.
  pose proof (overlapped_run st svA evA svB evB rB1 rB2 pB qB HsA HeA HsB HeB HB1 HB2) as Hrun.
  fold sys0 in Hrun.
  assert (HafterB : afterB = shown pB qB (bothBegun svA evA svB evB st))
    by (subst afterB; rewrite Hrun; reflexivity).
  pose proof (bothBegun_hazards svA evA svB evB st) as Hh3.
  set (s3 := bothBegun svA evA svB evB st) in *.
  set (s4 := fetch (geocodeUrl (Js.trim evA)) (shown pB qB s3)).
  assert (Hfinal : final = page (run later (mkSystem (shown pA qA s4) [None; None]))).
  { subst final. rewrite !run_app.
    by rewrite (stale_run _ _ _ rA1 rA2 pA qA Hrun HA1 HA2). }
  clearbody afterB final. subst afterB. clear Hrun.
  destruct (shown_variables pB qB s3) as (E1 & E2 & E3 & E4 & E5 & E6).
  rewrite E1, E2, E3, E4 in Hh.
  (* the four layers are among the seven of B, and none is a hazard marker *)
  destruct (four_of_seven (nextId s3) h Hh) as (Hcases & Hge & Hlt4).
  assert (Hc : h ∈ created s3)
    by (destruct Hcases as [-> | [-> | [-> | -> ]]]; created_mem).
  assert (Hhaz : h ∉ hazardMarkers (shown pB qB s3)).
  { rewrite E5, Hh3. cbn [app]. rewrite !elem_of_cons, elem_of_nil. clear -Hlt4. lia. }
  pose proof (shown_onMap_new pB qB s3 h Hc) as HonB.
  pose proof (shown_new pB qB s3 h Hc) as Hov.
  assert (Hlt : (h < nextId s4)%positive).
  { change (nextId s4) with (nextId (shown pB qB s3)). rewrite E6. clear -Hlt4. lia. }
  assert (Hun : untracked (shown pA qA s4) h).
  { split; [|split].
    - rewrite shown_onMap. by apply elem_of_union_r.
    - intros Hin. apply tracked_shown in Hin. apply elem_of_union in Hin as [Hin|Hin].
      + apply elem_of_list_to_set, created_fresh in Hin. clear -Hin Hlt. lia.
      + by apply elem_of_list_to_set in Hin.
    - rewrite (proj2 (proj2 (proj2 (proj2 (proj2 (shown_variables pA qA s4)))))).
      clear -Hlt. lia. }
  assert (Hold : objects (shown pA qA s4) !! h = objects (shown pB qB s3) !! h)
    by (by rewrite shown_old).
  destruct (untracked_run later (mkSystem (shown pA qA s4) [None; None]) h Hun)
    as [(Hm & Ht & _) Eo].
  rewrite <- Hfinal in Hm, Ht, Eo. cbn [page] in Eo.
  split; [|split; [exact Ht | by rewrite Eo]].
  unfold overlays. apply elem_of_filter. split; [|exact Hm].
  unfold isOverlayAt in *. by rewrite Eo, Hold.
Qed.

Lemma overtaken_routes_stay_witness :
  Js.trim "Pokhara" ≠ EmptyString ∧ Js.trim "Kathmandu" ≠ EmptyString
  ∧ Js.trim "Biratnagar" ≠ EmptyString ∧ Js.trim "Dharan" ≠ EmptyString
  ∧ validCoordinate (placeOf pokhara) ∧ validCoordinate (placeOf kathmandu)
  ∧ validCoordinate (placeOf biratnagar) ∧ validCoordinate (placeOf dharan)
  ∧ 4%positive ∈ overlays (page (run
       (overlapped "Pokhara" "Kathmandu" "Biratnagar" "Dharan" (Json [biratnagar])
          (Json [dharan])
        ++ [Reply 0 (Json [pokhara]); Reply 0 (Json [kathmandu])]
        ++ [Press "Dharan" "Pokhara"; Reply 2 (Json [dharan]); Reply 2 (Json [pokhara])])
       (mkSystem (initial EmptyString) []))).
Proof.
  assert (H1 : Js.trim "Pokhara" ≠ EmptyString) by nonempty.
  assert (H2 : Js.trim "Kathmandu" ≠ EmptyString) by nonempty.
  assert (H3 : Js.trim "Biratnagar" ≠ EmptyString) by nonempty.
  assert (H4 : Js.trim "Dharan" ≠ EmptyString) by nonempty.
  assert (V1 : validCoordinate (placeOf pokhara)) by valid.
  assert (V2 : validCoordinate (placeOf kathmandu)) by valid.
  assert (V3 : validCoordinate (placeOf biratnagar)) by valid.
  assert (V4 : validCoordinate (placeOf dharan)) by valid.
  split; [exact H1|]. split; [exact H2|]. split; [exact H3|]. split; [exact H4|].
  split; [exact V1|]. split; [exact V2|]. split; [exact V3|]. split; [exact V4|].
  refine (proj1 (overtaken_routes_stay (initial EmptyString) "Pokhara" "Kathmandu"
              "Biratnagar" "Dharan" (Json [pokhara]) (Json [kathmandu])
              (Json [biratnagar]) (Json [dharan])
              (placeOf pokhara) (placeOf kathmandu) (placeOf biratnagar) (placeOf dharan)
              [Press "Dharan" "Pokhara"; Reply 2 (Json [dharan]); Reply 2 (Json [pokhara])]
              H1 H2 H3 H4 eq_refl eq_refl eq_refl eq_refl V1 V2 V3 V4 4%positive _)).
  assert (E : routeA (page (run (overlapped "Pokhara" "Kathmandu" "Biratnagar" "Dharan"
                                   (Json [biratnagar]) (Json [dharan]))
                              (mkSystem (initial EmptyString) []))) = Some 4%positive)
    by (vm_compute; reflexivity).
  rewrite E. apply list_elem_of_further, list_elem_of_further, list_elem_of_here.
Defined.

(** An alert more changes nothing in what [shown], [resume] and [click] do. *)
Lemma shown_alert s p q st : shown p q (alert s st) = alert s (shown p q st).
Proof. reflexivity. Qed.

Lemma resume_alert s k r st :
  resume k r (alert s st) = (fst (resume k r st), alert s (snd (resume k r st))).
Proof.
  unfold resume. destruct k as [endName|start];
    destruct (geocodeResult r) as [p|message]; try reflexivity.
  cbn [fst snd]. by rewrite !showRoutes_shown, shown_alert.
Qed.

Lemma click_alert s h st : click h (alert s st) = alert s (click h st).
Proof.
  unfold click. cbn [onMap objects alert].
  destruct (decide (h ∈ onMap st)); [|reflexivity].
  destruct (objects st !! h) as [[| ? ? [?|] |? ? ? ls]|]; try reflexivity.
  rewrite !foldl_set_result. reflexivity.
Qed.

(** An event that is no press keeps two systems one alert apart. *)
Lemma step_oneAlertMore sys sys' e :
  noPress e = true → oneAlertMore sys sys' → oneAlertMore (step sys e) (step sys' e).
Proof.
  intros He [Hp Hc]. destruct e as [sv ev|i r|h]; [discriminate| |].
  - cbn [step]. rewrite Hc.
    destruct (calls sys !! i) as [[k|]|] eqn:E.
    + rewrite (lookup_app_l_Some _ _ _ _ E). rewrite Hp, resume_alert.
      destruct (resume k r (page sys)) as [k' st']. cbn [fst snd].
      split; [reflexivity|]. cbn [calls].
      apply lookup_lt_Some in E. by rewrite insert_app_l.
    + rewrite (lookup_app_l_Some _ _ _ _ E). by split.
    + apply lookup_ge_None in E.
      destruct ((calls sys ++ [None])%list !! i) as [[k|]|] eqn:E'; [|by split..].
      exfalso. apply lookup_app_Some in E' as [E'|[_ E']].
      * apply lookup_lt_Some in E'. lia.
      * destruct (i - length (calls sys))%nat; [discriminate|]. by destruct n.
  - cbn [step]. split; [|exact Hc]. cbn [page]. by rewrite Hp, click_alert.
Qed.

(** X13. A rejected press (a blank field) does not disturb what is under
    way: followed by any answers and clicks, the page is the one without that
    press, with one alert more, and the calls are the same with one finished
    call more. *)
Theorem rejected_press_harmless (sv ev : string) (later : list Event) (sys : System) :
  blank sv ∨ blank ev → forallb noPress later = true →
  page (run (Press sv ev :: later) sys) = alert enterBoth (page (run later sys))
  ∧ calls (run (Press sv ev :: later) sys) = (calls (run later sys) ++ [None])%list.
Proof.
  intros Hb Hl.
  change (run (Press sv ev :: later) sys) with (run later (step sys (Press sv ev))).
  assert (H0 : oneAlertMore sys (step sys (Press sv ev))).
  { cbn [step]. rewrite findRoute_invalid by (by rewrite !TrimFacts.trim_empty_blank). by split. }
  revert H0. generalize (step sys (Press sv ev)). revert sys.
  induction later as [|e later IH]; intros sys sys' H0; [exact H0|].
  cbn [forallb] in Hl. apply andb_prop in Hl as [He Hl].
  change (run (e :: later) sys) with (run later (step sys e)).
  change (run (e :: later) sys') with (run later (step sys' e)).
  apply IH; [exact Hl|]. by apply step_oneAlertMore.
Qed.

Lemma rejected_press_harmless_witness :
  (blank "  " ∨ blank "Dharan")
  ∧ result (page (run [Press "Pokhara" "Kathmandu"; Press "  " "Dharan";
                       Reply 0 (Json [pokhara]); Reply 0 (Json [kathmandu])]
                    (mkSystem (initial EmptyString) []))) = routesFound.
Proof.
  assert (H : blank "  " ∨ blank "Dharan").
  { left. exists [32; 32]%N. split; [|reflexivity].
    repeat constructor; rewrite !elem_of_cons; tauto. }
  split; [exact H|].
  change (run [Press "Pokhara" "Kathmandu"; Press "  " "Dharan";
               Reply 0 (Json [pokhara]); Reply 0 (Json [kathmandu])]
            (mkSystem (initial EmptyString) []))
    with (run [Press "  " "Dharan"; Reply 0 (Json [pokhara]); Reply 0 (Json [kathmandu])]
            (step (mkSystem (initial EmptyString) []) (Press "Pokhara" "Kathmandu"))).
  rewrite (proj1 (rejected_press_harmless "  " "Dharan"
                    [Reply 0 (Json [pokhara]); Reply 0 (Json [kathmandu])]
                    (step (mkSystem (initial EmptyString) []) (Press "Pokhara" "Kathmandu"))
                    H eq_refl)).
  vm_compute. reflexivity.
Defined.

(** X14. For valid coordinates the hazard markers stand on three different
    places: the first on the midpoint, latitudes strictly increasing and
    longitudes strictly decreasing with the index, all latitudes strictly
    between the interior latitudes of route B and of route A. *)
Theorem hazards_spread (start end_ : Place) :
  validCoordinate start → validCoordinate end_ →
  let m := midLat start end_ in
  let n := midLon start end_ in
  let at_ (i : nat) := hazardLatLng m n i in
  (fst (at_ 0%nat) =? m)%float = true ∧ (snd (at_ 0%nat) =? n)%float = true
  ∧ (fst (at_ 0%nat) <? fst (at_ 1%nat))%float = true
  ∧ (fst (at_ 1%nat) <? fst (at_ 2%nat))%float = true
  ∧ (snd (at_ 1%nat) <? snd (at_ 0%nat))%float = true
  ∧ (snd (at_ 2%nat) <? snd (at_ 1%nat))%float = true
  ∧ (interiorB start end_ <? fst (at_ 0%nat))%float = true
  ∧ (fst (at_ 2%nat) <? interiorA start end_)%float = true.
Proof.
  intros [Hs1 Hs2] [He1 He2] m n at_.
  destruct (HazardFacts.hazard_lats (lat start) (lat end_) Hs1 He1) as (L0 & LB & L1 & L2 & LA).
  destruct (HazardFacts.hazard_lons (lon start) (lon end_) Hs2 He2) as (N0 & N1 & N2).
  subst at_ m n. unfold hazardLatLng, interiorA, interiorB, midLat, midLon. cbn [fst snd].
  repeat split; assumption.
Qed.

Lemma hazards_spread_witness :
  validCoordinate (placeOf pokhara) ∧ validCoordinate (placeOf kathmandu)
  ∧ (fst (hazardLatLng (midLat (placeOf pokhara) (placeOf kathmandu))
            (midLon (placeOf pokhara) (placeOf kathmandu)) 1)
     <? fst (hazardLatLng (midLat (placeOf pokhara) (placeOf kathmandu))
               (midLon (placeOf pokhara) (placeOf kathmandu)) 2))%float = true.
Proof.
  assert (H1 : validCoordinate (placeOf pokhara)) by (repeat split; reflexivity).
  assert (H2 : validCoordinate (placeOf kathmandu)) by (repeat split; reflexivity).
  split; [exact H1|]. split; [exact H2|].
  destruct (hazards_spread (placeOf pokhara) (placeOf kathmandu) H1 H2)
    as (_ & _ & _ & H & _).
  exact H.
Defined.

(** X15. Nothing keeps a route within the range of latitudes: for two valid
    places at latitude 89.9 or more the interior point of route A lies beyond
    90, and for two at -89.9 or less that of route B lies below -90. *)
Theorem routes_leave_range (start end_ : Place) :
  validCoordinate start → validCoordinate end_ →
  ((89.9 <=? lat start)%float = true → (89.9 <=? lat end_)%float = true →
   (90 <? interiorA start end_)%float = true ∧ ¬ latOK (interiorA start end_))
  ∧ ((lat start <=? -89.9)%float = true → (lat end_ <=? -89.9)%float = true →
     (interiorB start end_ <? -90)%float = true ∧ ¬ latOK (interiorB start end_)).
Proof.
  intros [Hs _] [He _]. unfold interiorA, interiorB, midLat. split.
  - intros Ls Le.
    destruct (HazardFacts.beyond_north (lat start) (lat end_) Hs He Ls Le) as [Hlt Hf].
    split; [by apply B64Facts.ltb_scaled|].
    intros [_ H]. apply B64Facts.leb_scaled in H; [lia | exact Hf | reflexivity].
  - intros Ls Le.
    destruct (HazardFacts.beyond_south (lat start) (lat end_) Hs He Ls Le) as [Hlt Hf].
    split; [by apply B64Facts.ltb_scaled|].
    intros [H _]. apply B64Facts.leb_scaled in H; [lia | reflexivity | exact Hf].
Qed.

Lemma routes_leave_range_witness :
  validCoordinate (mkPlace 89.95 0 "North") ∧ validCoordinate (mkPlace 90 10 "Pole")
  ∧ (90 <? interiorA (mkPlace 89.95 0 "North") (mkPlace 90 10 "Pole"))%float = true.
Proof.
  assert (H1 : validCoordinate (mkPlace 89.95 0 "North")) by (repeat split; reflexivity).
  assert (H2 : validCoordinate (mkPlace 90 10 "Pole")) by (repeat split; reflexivity).
  split; [exact H1|]. split; [exact H2|].
  destruct (routes_leave_range (mkPlace 89.95 0 "North") (mkPlace 90 10 "Pole") H1 H2)
    as [Hn _].
  exact (proj1 (Hn eq_refl eq_refl)).
Defined.

(** X16. Showing the routes removes nothing: for places with valid
    coordinates, on a page whose layers are older than the next handle,
    [showRoutes] keeps every layer and every overlay and adds exactly seven
    overlays. *)
Theorem showRoutes_adds_seven (start end_ : Place) (st : Page) :
  validCoordinate start → validCoordinate end_ →
  below st →
  overlays st ⊆ overlays (showRoutes start end_ st)
  ∧ size (overlays (showRoutes start end_ st)) = (size (overlays st) + 7)%nat
  ∧ onMap st ⊆ onMap (showRoutes start end_ st).
Proof.
  intros _ _ Hb. rewrite showRoutes_shown, shown_overlays, shown_onMap by assumption.
  split; [apply union_subseteq_r|]. split; [|apply union_subseteq_r].
  rewrite size_union, size_created; [lia|].
  intros h Hc Ho. apply elem_of_list_to_set, created_fresh in Hc.
  unfold overlays in Ho. apply elem_of_filter in Ho as [_ Ho]. apply Hb in Ho. lia.
Qed.

Lemma showRoutes_adds_seven_witness :
  validCoordinate (placeOf biratnagar) ∧ validCoordinate (placeOf dharan) ∧ below demo
  ∧ size (overlays (showRoutes (placeOf biratnagar) (placeOf dharan) demo)) = 14%nat.
Proof.
  assert (H : below demo).
  { exact (proj1 (consistent_search "Pokhara" " Kathmandu " (Json [pokhara]) (Json [kathmandu])
                    (initial EmptyString) (consistent_initial EmptyString))). }
  assert (V1 : validCoordinate (placeOf biratnagar)) by valid.
  assert (V2 : validCoordinate (placeOf dharan)) by valid.
  split; [exact V1|]. split; [exact V2|]. split; [exact H|].
  destruct (showRoutes_adds_seven (placeOf biratnagar) (placeOf dharan) demo V1 V2 H)
    as (_ & -> & _).
  vm_compute. reflexivity.
Defined.

(** A string that is not falsy is not empty. *)
Lemma falsy_true_empty (s : string) : Js.falsy s = false → s ≠ EmptyString.
Proof. by destruct s. Qed.

(** A click sends no request and shows no alert. *)
Lemma click_fetched h st : fetched (click h st) = fetched st ∧ alerts (click h st) = alerts st.
Proof.
  unfold click. destruct (decide (h ∈ onMap st)); [|done].
  destruct (objects st !! h) as [[| ? ? [?|] |? ? ? ls]|]; try done.
  rewrite foldl_set_result. done.
Qed.

(** What one event adds to the requests and to the alerts. *)
Lemma step_requests sys e :
  Forall namedCall (calls sys) →
  Forall namedCall (calls (step sys e))
  ∧ ∃ (new : list string) (n : nat),
      fetched (page (step sys e)) = (fetched (page sys) ++ new)%list
      ∧ Forall forName new
      ∧ alerts (page (step sys e)) = (alerts (page sys) ++ replicate n enterBoth)%list.
Proof.
  intros Hc. destruct e as [sv ev|i r|h]; cbn [step].
  - unfold findRoute.
    destruct (Js.falsy (Js.trim sv)) eqn:Es; cbn [orb].
    { split; [apply Forall_app; split; [done | by repeat constructor]|].
      exists [], 1%nat. cbn [page alert fetched alerts replicate].
      by rewrite app_nil_r. }
    destruct (Js.falsy (Js.trim ev)) eqn:Ee.
    { split; [apply Forall_app; split; [done | by repeat constructor]|].
      exists [], 1%nat. cbn [page alert fetched alerts replicate].
      by rewrite app_nil_r. }
    apply falsy_true_empty in Es, Ee. split.
    + apply Forall_app. split; [done|]. repeat constructor; [done | apply TrimFacts.trim_trim].
    + exists [geocodeUrl (Js.trim sv)], 0%nat. cbn [page fetch fetched alerts replicate].
      rewrite clearMap_eq. cbn [set_hazardMarkers set_leaflet fetched alerts].
      split; [done|]. split; [|by rewrite app_nil_r].
      repeat constructor. exists (Js.trim sv). split; [done|]. split; [apply TrimFacts.trim_trim | done].
  - destruct (calls sys !! i) as [[k|]|] eqn:E;
      [|split; [done | exists [], 0%nat; by rewrite !app_nil_r]..].
    pose proof (Forall_lookup_1 _ _ _ _ Hc E) as Hk.
    unfold resume. destruct k as [endName|start];
      destruct (geocodeResult r) as [p|message]; cbn [page calls].
    + split; [by apply Forall_insert|].
      exists [geocodeUrl endName], 0%nat. cbn [fetch fetched alerts replicate].
      split; [done|]. split; [|by rewrite app_nil_r].
      repeat constructor. exists endName. by destruct Hk.
    + split; [by apply Forall_insert|]. exists [], 0%nat.
      cbn [showError set_result fetched alerts replicate]. by rewrite !app_nil_r.
    + split; [by apply Forall_insert|]. exists [], 0%nat.
      rewrite showRoutes_shown. unfold shown. cbn [fetched alerts replicate].
      by rewrite !app_nil_r.
    + split; [by apply Forall_insert|]. exists [], 0%nat.
      cbn [showError set_result fetched alerts replicate]. by rewrite !app_nil_r.
  - split; [done|]. exists [], 0%nat. cbn [page replicate].
    destruct (click_fetched h (page sys)) as [-> ->]. by rewrite !app_nil_r.
Qed.

(** X17. Whatever the events, from any page: every request the page sends
    is a geocoder request for a name that is trimmed and not empty, and every
    alert it shows is the one for an empty field. *)
Theorem only_geocoder_requests (events : list Event) (st : Page) :
  ∃ (new : list string) (n : nat),
    fetched (page (run events (mkSystem st []))) = (fetched st ++ new)%list
    ∧ Forall forName new
    ∧ alerts (page (run events (mkSystem st []))) = (alerts st ++ replicate n enterBoth)%list.
Proof.
  assert (H : ∀ sys, Forall namedCall (calls sys) →
    ∃ (new : list string) (n : nat),
      fetched (page (run events sys)) = (fetched (page sys) ++ new)%list
      ∧ Forall forName new
      ∧ alerts (page (run events sys)) = (alerts (page sys) ++ replicate n enterBoth)%list).
  { induction events as [|e events IH]; intros sys Hc.
    - exists [], 0%nat. cbn. by rewrite !app_nil_r.
    - change (run (e :: events) sys) with (run events (step sys e)).
      destruct (step_requests sys e Hc) as (Hc' & new1 & n1 & Ef1 & Hn1 & Ea1).
      destruct (IH _ Hc') as (new2 & n2 & Ef2 & Hn2 & Ea2).
      exists (new1 ++ new2)%list, (n1 + n2)%nat.
      rewrite Ef2, Ef1, Ea2, Ea1, <- !app_assoc, replicate_add.
      split; [done|]. split; [by apply Forall_app | done]. }
  apply (H (mkSystem st [])). constructor.
Qed.
